(** * The Claude Code agent of stagewise: a shallow embedding

    The development follows the package [agent/claude-code]:

    - [JS]             the few string and array primitives of the platform
                       that the package calls ([split], [trim], [join],
                       truthiness, [Buffer.toString]);
    - [Types]          [types.ts];
    - [PromptBuilder]  [prompt-builder.ts];
    - [StreamParser]   [stream-parser.ts];
    - [ProcessManager] [process-manager.ts];
    - [Agent]          [ClaudeCodeAgent.ts], the session store and the turn.

    A JavaScript string is a sequence of UTF-16 code units, here a list of
    [N].  An exception is an explicit [Throw] result.  What the platform
    decides (random identifiers, the clock, the outcome of [spawn], the chunks
    that arrive on a pipe) is an input of the function that consumes it. *)

From Stdlib Require Import NArith String Ascii Lia.
From stdpp Require Import base list option numbers pretty.

#[local] Open Scope N_scope.

(** A string of the source language: UTF-16 code units. *)
Abbreviation jsstring := (list N).

(** A [Buffer] of the platform: raw bytes. *)
Abbreviation Buffer := (list Byte.byte).

(** The result of a call that can throw: a value, or an exception. *)
Inductive res (A : Type) :=
| Ok (a : A)
| Throw.
Arguments Ok {A} a.
Arguments Throw {A}.

(** ** Platform primitives *)
Module JS.

(** An ASCII literal of the source, as code units. *)
Definition lit (s : string) : jsstring :=
  N_of_ascii <$> list_ascii_of_string s.

(** The line feed, ['\n']. *)
Definition LF : N := 10.

(** [s === t] on strings. *)
Definition eqb (s t : jsstring) : bool := bool_decide (s = t).

(** Truthiness of a string: every string but the empty one. *)
Definition truthy (s : jsstring) : bool :=
  match s with [] => false | _ :: _ => true end.

(** Truthiness of a value that is a string or [undefined]. *)
Definition truthy_opt (o : option jsstring) : bool :=
  match o with Some s => truthy s | None => false end.

(** [xs.join(sep)] on an array of strings. *)
Fixpoint join (sep : jsstring) (xs : list jsstring) : jsstring :=
  match xs with
  | [] => []
  | x :: rest =>
      match rest with
      | [] => x
      | _ :: _ => x ++ sep ++ join sep rest
      end
  end.

(** The value of a decimal digit. *)
Definition digit (c : N) : option N :=
  if (48 <=? c) && (c <=? 57) then Some (c - 48) else None.

(** The array index that a property key is, if it is one: the canonical
    decimal numeral of an integer from 0 to 2^32 - 2. *)
Definition array_index (k : jsstring) : option N :=
  match k with
  | [] => None
  | c :: rest =>
      if bool_decide (c = 48) && negb (bool_decide (rest = [])) then None
      else
        match foldl (λ acc c,
                       match acc, digit c with
                       | Some a, Some d => Some (10 * a + d)
                       | _, _ => None
                       end) (Some 0) k with
        | Some n => if n <? 4294967295 then Some n else None
        | None => None
        end
  end.

(** [s.startsWith(prefix)]. *)
Definition startsWith (s prefix : jsstring) : bool :=
  bool_decide (take (length prefix) s = prefix).

(** [s.split('\n')]: the segments between line feeds; never empty, and
    the last segment is what follows the last line feed. *)
Fixpoint split_lf (s : jsstring) : list jsstring :=
  match s with
  | [] => [[]]
  | c :: rest =>
      if bool_decide (c = LF) then [] :: split_lf rest
      else match split_lf rest with
           | [] => [[c]]
           | seg :: segs => (c :: seg) :: segs
           end
  end.

(** [xs.pop()]: the array without its last element, and that element
    ([undefined] on an empty array). *)
Definition pop {A} (xs : list A) : list A * option A :=
  (removelast xs, last xs).

(** White space and line terminators of ECMAScript, the code units that
    [trim] strips. *)
Definition is_space (c : N) : bool :=
  bool_decide (c ∈ [9; 10; 11; 12; 13; 32; 160; 5760; 8232; 8233; 8239;
                    8287; 12288; 65279])
  || ((8192 <=? c) && (c <=? 8202)).

Fixpoint trimStart (s : jsstring) : jsstring :=
  match s with
  | [] => []
  | c :: rest => if is_space c then trimStart rest else s
  end.

(** [s.trim()]. *)
Definition trim (s : jsstring) : jsstring :=
  reverse (trimStart (reverse (trimStart s))).

(** The decimal numeral of a non-negative integer, as a template literal
    prints it. *)
Definition of_nat (n : nat) : jsstring := lit (pretty n).

(** *** [Buffer.prototype.toString()]

    The default encoding is UTF-8.  The decoder is the one of the Encoding
    standard: an ill-formed or truncated sequence becomes U+FFFD, and the
    byte that broke a sequence is read again as the start of the next.
    A code point above U+FFFF becomes a surrogate pair. *)

Definition REPLACEMENT : N := 65533.

Definition code_units (cp : N) : jsstring :=
  if cp <? 65536 then [cp]
  else [55296 + N.shiftr (cp - 65536) 10; 56320 + N.land (cp - 65536) 1023].

(** The decoder between two bytes: idle, or inside a sequence with the
    code point so far, the number of continuation bytes still expected and
    the range allowed for the next one. *)
Inductive Utf8State :=
| Idle
| Partial (cp : N) (needed : nat) (lower upper : N).

(** A byte read in the idle state. *)
Definition utf8_lead (b : N) : jsstring * Utf8State :=
  if b <=? 127 then ([b], Idle)
  else if (194 <=? b) && (b <=? 223)
    then ([], Partial (N.land b 31) 1 128 191)
  else if (224 <=? b) && (b <=? 239)
    then ([], Partial (N.land b 15) 2
                      (if b =? 224 then 160 else 128)
                      (if b =? 237 then 159 else 191))
  else if (240 <=? b) && (b <=? 244)
    then ([], Partial (N.land b 7) 3
                      (if b =? 240 then 144 else 128)
                      (if b =? 244 then 143 else 191))
  else ([REPLACEMENT], Idle).

Definition utf8_step (st : Utf8State) (b : N) : jsstring * Utf8State :=
  match st with
  | Idle => utf8_lead b
  | Partial cp needed lower upper =>
      if (lower <=? b) && (b <=? upper) then
        let cp := N.lor (N.shiftl cp 6) (N.land b 63) in
        match needed with
        | 0%nat | 1%nat => (code_units cp, Idle)
        | S n => ([], Partial cp n 128 191)
        end
      else
        let '(out, st') := utf8_lead b in (REPLACEMENT :: out, st')
  end.

Fixpoint utf8_decode (st : Utf8State) (bytes : list N) : jsstring :=
  match bytes with
  | [] => match st with Idle => [] | Partial _ _ _ _ => [REPLACEMENT] end
  | b :: rest =>
      let '(out, st') := utf8_step st b in out ++ utf8_decode st' rest
  end.

Definition Buffer_toString (chunk : Buffer) : jsstring :=
  utf8_decode Idle (Byte.to_N <$> chunk).

End JS.

(** ** [types.ts] *)
Module Types.

Record ClaudeCodeAgentConfig := {
  command : jsstring;
  cwd : jsstring;
  skipPermissions : bool;
  appendSystemPrompt : option jsstring;
  allowedTools : option (list jsstring)
}.

Record ImageSource := {
  src_type : jsstring;
  media_type : jsstring;
  data : jsstring
}.

(** An element of [StreamJsonUserMessage['message']['content']]. *)
Inductive ContentItem :=
| CText (text : jsstring)
| CImage (source : ImageSource).

Record WireBody := {
  role : jsstring;
  content : list ContentItem
}.

Record StreamJsonUserMessage := {
  wire_type : jsstring;
  wire_message : WireBody
}.

(** An element of [StreamEvent.message.content]. *)
Record ContentFragment := {
  c_type : jsstring;
  c_text : option jsstring
}.

(** [content] is an array in the declaration; the handler reads it with
    [?.], so an absent one is kept representable. *)
Record EventMessage := {
  m_id : jsstring;
  m_content : option (list ContentFragment)
}.

Record StreamEvent := {
  type_ : jsstring;
  subtype : option jsstring;
  message : option EventMessage;
  result : option jsstring;
  session_id : option jsstring;
  is_error : option bool;
  duration_ms : option N
}.

Record ClaudeCodeInput := {
  text : jsstring;
  domContext : option jsstring;
  screenshots : option (list jsstring);
  pluginSnippets : option (list jsstring)
}.

(** A value in the argument list of the subprocess, and the value that
    [spawnClaudeCode] receives as [sessionId]: a string by its declaration,
    a function at the call in [handleUserMessage].  [F] is the type of
    function values. *)
Inductive Arg (F : Type) :=
| ArgString (s : jsstring)
| ArgFunction (f : F).
Arguments ArgString {F} s.
Arguments ArgFunction {F} f.

(** The handle that [spawnClaudeCode] returns wraps a [ChildProcess] of
    the platform.  What the package does with it is kept: the identity of
    the child, the invocation, and the listeners that were registered on
    it ([exit_callback] is the [onExit] that the ['exit'] listener
    captured, [proc_listeners] the event names that have a listener). *)
Record ProcessHandle (F : Type) := {
  pid : N;
  spawn_command : jsstring;
  spawn_args : list (Arg F);
  spawn_cwd : jsstring;
  exit_callback : option F;
  proc_listeners : list jsstring;
  stderr_listeners : list jsstring
}.
Arguments pid {F} _.
Arguments spawn_command {F} _.
Arguments spawn_args {F} _.
Arguments spawn_cwd {F} _.
Arguments exit_callback {F} _.
Arguments proc_listeners {F} _.
Arguments stderr_listeners {F} _.

End Types.

(** ** The types of [@stagewise/karton-contract] that the package uses

    The contract package is a dependency; a value has the fields that the
    package reads or writes. *)
Module Contract.

(** A message part, [{ type, text?, data?, mimeType? }]. *)
Record Part := {
  p_type : jsstring;
  p_text : option jsstring;
  p_data : option jsstring;
  p_mimeType : option jsstring
}.

(** A selected element; [attributes] is a string-to-string object, in
    key order. *)
Record SelectedElement := {
  xpath : option jsstring;
  textContent : option jsstring;
  attributes : option (list (jsstring * jsstring))
}.

Record BrowserData := {
  selectedElements : option (list SelectedElement)
}.

Record PluginItem := { item_text : jsstring }.

(** [pluginContentItems] is an object of objects; [Object.entries] lists
    it in key order, which is the order of the lists here. *)
Record Metadata := {
  md_createdAt : N;
  browserData : option BrowserData;
  pluginContentItems : option (list (jsstring * list (jsstring * PluginItem)))
}.

Record ChatMessage := {
  id : jsstring;
  msg_role : jsstring;
  parts : list Part;
  metadata : option Metadata
}.

Record Chat := {
  title : jsstring;
  createdAt : N;
  messages : list ChatMessage
}.

(** [KartonContract['state']].  [chats] is an object keyed by chat
    identifier, kept in insertion order, the order in which [Object.keys]
    lists identifiers that are not array indices.  The fields
    [toolCallApprovalRequests] and [subscription] are never written after
    initialisation and are left out. *)
Record State := {
  activeChatId : option jsstring;
  chats : list (jsstring * Chat);
  isWorking : bool
}.

End Contract.

(** ** [prompt-builder.ts] *)
Module PromptBuilder.
Import Types.

(** The literal ["[用户选中的DOM元素]\n"]. *)
Definition dom_label : jsstring :=
  [91; 29992; 25143; 36873; 20013; 30340; 68; 79; 77; 20803; 32032; 93; 10].

(** The literal ["[项目上下文]\n"]. *)
Definition plugin_label : jsstring :=
  [91; 39033; 30446; 19978; 19979; 25991; 93; 10].

(** [input.pluginSnippets?.length] as a condition. *)
Definition has_length {A} (o : option (list A)) : bool :=
  match o with Some (_ :: _) => true | _ => false end.

Definition buildPromptText (input : ClaudeCodeInput) : jsstring :=
  let parts : list jsstring := [] in
  let parts :=
    if JS.truthy_opt (domContext input)
    then parts ++ [dom_label ++ default [] (domContext input)]
    else parts in
  let parts :=
    if has_length (pluginSnippets input)
    then parts ++ [plugin_label
                     ++ JS.join [JS.LF] (default [] (pluginSnippets input))]
    else parts in
  let parts := parts ++ [text input] in
  JS.join [JS.LF; JS.LF] parts.

Definition buildStreamJsonMessage (input : ClaudeCodeInput)
  : StreamJsonUserMessage :=
  let content : list ContentItem := [] in
  let content :=
    foldl (λ content screenshot,
             content ++ [CImage {| src_type := JS.lit "base64";
                                   media_type := JS.lit "image/png";
                                   data := screenshot |}])
          content (default [] (screenshots input)) in
  let content := content ++ [CText (buildPromptText input)] in
  {| wire_type := JS.lit "user";
     wire_message := {| role := JS.lit "user"; content := content |} |}.

(** The literals of [serializeDomContext]: ["元素 "], ["XPath: "],
    ["文本: "] and ["属性: "]. *)
Definition element_label : jsstring := [20803; 32032; 32].
Definition xpath_label : jsstring := JS.lit "XPath: ".
Definition text_label : jsstring := [25991; 26412; 58; 32].
Definition attributes_label : jsstring := [23646; 24615; 58; 32].

Section Stringify.
Import Contract.

(** [JSON.stringify] on an attribute object. *)
Variable JSON_stringify : list (jsstring * jsstring) → jsstring.

Definition serializeElement (i : nat) (el : SelectedElement) : jsstring :=
  let parts := [element_label ++ JS.of_nat (i + 1) ++ JS.lit ":"] in
  let parts :=
    if JS.truthy_opt (xpath el)
    then parts ++ [xpath_label ++ default [] (xpath el)] else parts in
  let parts :=
    if JS.truthy_opt (textContent el)
    then parts ++ [text_label ++ default [] (textContent el)]
    else parts in
  let parts :=
    match attributes el with
    | Some attrs => parts ++ [attributes_label ++ JSON_stringify attrs]
    | None => parts
    end in
  JS.join [JS.LF] parts.

Definition serializeDomContext (browserData : option BrowserData)
  : option jsstring :=
  match browserData with
  | Some bd =>
      if has_length (selectedElements bd) then
        Some (JS.join [JS.LF; JS.LF]
                (imap serializeElement
                      (default [] (selectedElements bd))))
      else None
  | None => None
  end.
End Stringify.

Definition extractPluginSnippets
  (pluginContentItems :
     option (list (jsstring * list (jsstring * Contract.PluginItem))))
  : list jsstring :=
  match pluginContentItems with
  | None => []
  | Some plugins =>
      foldl (λ snippets '(pluginName, items),
               foldl (λ snippets '(itemName, item),
                        snippets ++
                          [JS.lit "[" ++ pluginName ++ JS.lit "/" ++ itemName
                             ++ JS.lit "]" ++ [JS.LF]
                             ++ Contract.item_text item])
                     snippets items)
            [] plugins
  end.

Definition extractScreenshots (parts : list Contract.Part) : list jsstring :=
  let files :=
    List.filter (λ p, JS.eqb (Contract.p_type p) (JS.lit "file")
                      && match Contract.p_mimeType p with
                         | Some m => JS.startsWith m (JS.lit "image/")
                         | None => false
                         end) parts in
  omap (λ p, match Contract.p_data p with
             | Some d => if JS.truthy d then Some d else None
             | None => None
             end) files.

End PromptBuilder.

(** ** [stream-parser.ts] *)
Module StreamParser.
Import Types.

(** What the generator does at a record: it yields an event, or it logs a
    warning with the text it could not parse. *)
Inductive Output :=
| Yield (event : StreamEvent)
| Warn (line : jsstring).

Section Parser.
(** [JSON.parse] followed by the cast to [StreamEvent]; [None] is the
    [SyntaxError].  The cast checks nothing.  The development follows the
    declared type: a line that parses to a value outside it (the value
    [null], a [content] that is not an array) has no event here, and what
    the handler does on such a value is not part of it. *)
Variable JSON_parse : jsstring → option StreamEvent.

(** The body of the loop over [lines]. *)
Definition parse_line (line : jsstring) : list Output :=
  let trimmed := JS.trim line in
  if negb (JS.truthy trimmed) then []
  else match JSON_parse trimmed with
       | Some event => [Yield event]
       | None => [Warn trimmed]
       end.

(** The body of the loop over the chunks of [stdout]: the outputs and
    the new buffer. *)
Definition on_chunk (buffer : jsstring) (chunk : Buffer)
  : list Output * jsstring :=
  let buffer := buffer ++ JS.Buffer_toString chunk in
  let '(lines, last) := JS.pop (JS.split_lf buffer) in
  let buffer := default [] last in
  (flat_map parse_line lines, buffer).

(** After the loop: what is left in the buffer. *)
Definition on_close (buffer : jsstring) : list Output :=
  if JS.truthy (JS.trim buffer) then
    match JSON_parse (JS.trim buffer) with
    | Some event => [Yield event]
    | None => [Warn buffer]
    end
  else [].

Fixpoint run (buffer : jsstring) (chunks : list Buffer) : list Output :=
  match chunks with
  | [] => on_close buffer
  | chunk :: rest =>
      let '(out, buffer) := on_chunk buffer chunk in out ++ run buffer rest
  end.

(** The generator, run to the end of a [stdout] that delivers [chunks]
    and closes. *)
Definition parseStreamJson (stdout : list Buffer) : list Output :=
  run [] stdout.

End Parser.

End StreamParser.

(** ** [process-manager.ts] *)
Module ProcessManager.
Import Types.

(** What [spawn] of [node:child_process] does: it returns a child with a
    fresh identity, or it throws. *)
Inductive SpawnOutcome :=
| Spawned (pid : N)
| SpawnThrows.

Section Spawn.
Context {F : Type}.

(** Truthiness of the value received as [sessionId]. *)
Definition arg_truthy (v : Arg F) : bool :=
  match v with
  | ArgString s => JS.truthy s
  | ArgFunction _ => true
  end.

Definition buildArgs (config : ClaudeCodeAgentConfig)
  (sessionId : option (Arg F)) : list (Arg F) :=
  let args : list (Arg F) :=
    ArgString <$> [JS.lit "-p"; JS.lit "--input-format";
                   JS.lit "stream-json"; JS.lit "--output-format";
                   JS.lit "stream-json"; JS.lit "--verbose"] in
  let args :=
    match sessionId with
    | Some v =>
        if arg_truthy v then args ++ [ArgString (JS.lit "--resume"); v]
        else args
    | None => args
    end in
  let args :=
    if skipPermissions config
    then args ++ [ArgString (JS.lit "--dangerously-skip-permissions")]
    else args in
  let args :=
    if JS.truthy_opt (appendSystemPrompt config)
    then args ++ [ArgString (JS.lit "--append-system-prompt");
                  ArgString (default [] (appendSystemPrompt config))]
    else args in
  let args :=
    if PromptBuilder.has_length (allowedTools config)
    then args ++ ArgString (JS.lit "--allowed-tools")
              :: (ArgString <$> default [] (allowedTools config))
    else args in
  args.

Definition spawnClaudeCode (config : ClaudeCodeAgentConfig)
  (sessionId : option (Arg F)) (onExit : option F)
  (outcome : SpawnOutcome) : res (ProcessHandle F) :=
  let args := buildArgs config sessionId in
  match outcome with
  | SpawnThrows => Throw
  | Spawned p =>
      Ok {| pid := p;
            spawn_command := command config;
            spawn_args := args;
            spawn_cwd := cwd config;
            exit_callback := onExit;
            proc_listeners := [JS.lit "exit"];
            stderr_listeners := [JS.lit "data"] |}
  end.

(** The ['exit'] listener, [(code) => { onExit?.(code) }]: the calls of
    the callback that one ['exit'] event makes. *)
Definition on_exit_event (h : ProcessHandle F) (code : option Z)
  : list (F * option Z) :=
  match exit_callback h with
  | Some f => [(f, code)]
  | None => []
  end.

(** An event emitter that emits ['error'] without a listener for it
    throws the error, and nothing is there to catch it. *)
Definition error_event_handled (h : ProcessHandle F) : bool :=
  bool_decide (JS.lit "error" ∈ proc_listeners h).
End Spawn.

End ProcessManager.

(** ** [ClaudeCodeAgent.ts] *)
Module Agent.
Import Types Contract ProcessManager StreamParser.

(** The one function value that the class hands to another module: the
    arrow function written at the call of [spawnClaudeCode],
    [() => { this.karton?.setState((draft) => { draft.isWorking = false }) }]. *)
Inductive Closure := ClearWorking.

Abbreviation Handle := (ProcessHandle Closure).

(** The fields of the instance. *)
Record Agent := {
  karton : option State;
  config : ClaudeCodeAgentConfig;
  currentProcess : option Handle
}.

(** What [generateId()] and [new Date()] return when an operation calls
    them. *)
Record Fresh := {
  new_id : jsstring;
  now : N
}.

(** What an operation does to the outside. *)
Inductive Effect :=
| Spawn (h : Handle)
| StdinWrite (p : N) (m : StreamJsonUserMessage)
| StdinEnd (p : N)
| Kill (p : N)
| ConsoleLog (what : option jsstring)
| ConsoleWarn (line : jsstring)
| ConsoleError.

(** *** Objects used as maps

    An object is the list of its properties in the order in which
    [Object.keys] lists them: the keys that are array indices first, in
    ascending order, then the other keys in the order of their
    creation. *)

Fixpoint obj_get {V} (o : list (jsstring * V)) (k : jsstring) : option V :=
  match o with
  | [] => None
  | (k', v) :: rest => if JS.eqb k' k then Some v else obj_get rest k
  end.

(** A new value for a key that exists: the key keeps its place. *)
Fixpoint obj_replace {V} (o : list (jsstring * V)) (k : jsstring) (v : V)
  : list (jsstring * V) :=
  match o with
  | [] => []
  | (k', v') :: rest =>
      if JS.eqb k' k then (k', v) :: rest else (k', v') :: obj_replace rest k v
  end.

(** A new key that is the array index [n]: after the smaller indices. *)
Fixpoint obj_insert_index {V} (n : N) (k : jsstring) (v : V)
  (o : list (jsstring * V)) : list (jsstring * V) :=
  match o with
  | [] => [(k, v)]
  | (k', v') :: rest =>
      match JS.array_index k' with
      | Some n' =>
          if n' <? n then (k', v') :: obj_insert_index n k v rest
          else (k, v) :: o
      | None => (k, v) :: o
      end
  end.

(** [o[k] = v]. *)
Definition obj_set {V} (o : list (jsstring * V)) (k : jsstring) (v : V)
  : list (jsstring * V) :=
  match obj_get o k with
  | Some _ => obj_replace o k v
  | None =>
      match JS.array_index k with
      | Some n => obj_insert_index n k v o
      | None => o ++ [(k, v)]
      end
  end.

(** [delete o[k]]. *)
Fixpoint obj_delete {V} (o : list (jsstring * V)) (k : jsstring)
  : list (jsstring * V) :=
  match o with
  | [] => []
  | (k', v') :: rest =>
      if JS.eqb k' k then obj_delete rest k else (k', v') :: obj_delete rest k
  end.

Definition obj_keys {V} (o : list (jsstring * V)) : list jsstring := o.*1.

(** *** Field updates *)

Definition set_activeChatId (a : option jsstring) (st : State) : State :=
  {| activeChatId := a; chats := chats st; isWorking := isWorking st |}.

Definition set_chats (c : list (jsstring * Chat)) (st : State) : State :=
  {| activeChatId := activeChatId st; chats := c; isWorking := isWorking st |}.

Definition set_isWorking (b : bool) (st : State) : State :=
  {| activeChatId := activeChatId st; chats := chats st; isWorking := b |}.

Definition set_messages (ms : list ChatMessage) (c : Chat) : Chat :=
  {| title := title c; createdAt := createdAt c; messages := ms |}.

Definition set_parts (ps : list Part) (m : ChatMessage) : ChatMessage :=
  {| id := id m; msg_role := msg_role m; parts := ps;
     metadata := metadata m |}.

Definition set_text (t : jsstring) (p : Part) : Part :=
  {| p_type := p_type p; p_text := Some t; p_data := p_data p;
     p_mimeType := p_mimeType p |}.

Definition set_karton (k : option State) (ag : Agent) : Agent :=
  {| karton := k; config := config ag; currentProcess := currentProcess ag |}.

Definition set_currentProcess (h : option Handle) (ag : Agent) : Agent :=
  {| karton := karton ag; config := config ag; currentProcess := h |}.

(** *** The store

    [setState] runs its callback on a draft of the state and installs the
    draft when the callback returns; a callback that throws installs
    nothing.  [this.karton.setState] throws when [karton] is [null];
    [this.karton?.setState] does nothing then. *)

Definition setState (recipe : State → res State) (ag : Agent) : res Agent :=
  match karton ag with
  | None => Throw
  | Some st =>
      match recipe st with
      | Ok st' => Ok (set_karton (Some st') ag)
      | Throw => Throw
      end
  end.

Definition setState_opt (recipe : State → State) (ag : Agent) : Agent :=
  match karton ag with
  | None => ag
  | Some st => set_karton (Some (recipe st)) ag
  end.

(** [draft.chats[chatId]!.messages], then [f] on that array. *)
Definition with_messages (chatId : jsstring)
  (f : list ChatMessage → list ChatMessage) (draft : State) : res State :=
  match obj_get (chats draft) chatId with
  | None => Throw
  | Some chat =>
      Ok (set_chats (obj_set (chats draft) chatId
                             (set_messages (f (messages chat)) chat))
                    draft)
  end.

(** *** Chats *)

Definition createAndActivateNewChat (fresh : Fresh) (ag : Agent)
  : res (Agent * jsstring) :=
  let chatId := new_id fresh in
  let newChat := {| title := JS.lit "New Chat"; createdAt := now fresh;
                    messages := [] |} in
  match setState (λ draft,
                    Ok (set_activeChatId (Some chatId)
                          (set_chats (obj_set (chats draft) chatId newChat)
                                     draft))) ag with
  | Ok ag' => Ok (ag', chatId)
  | Throw => Throw
  end.

Definition switchChat (chatId : jsstring) (ag : Agent) : Agent :=
  setState_opt (set_activeChatId (Some chatId)) ag.

Definition deleteChat (chatId : jsstring) (fresh : Fresh) (ag : Agent)
  : res Agent :=
  match karton ag with
  | None => Throw
  | Some st =>
      let promoted :=
        if bool_decide (activeChatId st = Some chatId) then
          let nextChatId :=
            List.find (λ id, negb (JS.eqb id chatId)) (obj_keys (chats st)) in
          if negb (JS.truthy_opt nextChatId) then
            match createAndActivateNewChat fresh ag with
            | Ok (ag', _) => Ok ag'
            | Throw => Throw
            end
          else Ok (setState_opt (set_activeChatId nextChatId) ag)
        else Ok ag in
      match promoted with
      | Ok ag' =>
          Ok (setState_opt (λ draft,
                              set_chats (obj_delete (chats draft) chatId)
                                        draft) ag')
      | Throw => Throw
      end
  end.

(** The initial state of the store, then the first chat. *)
Definition initialState : State :=
  {| activeChatId := None; chats := []; isWorking := false |}.

Definition initialize (fresh : Fresh) (ag : Agent) : res Agent :=
  match createAndActivateNewChat fresh (set_karton (Some initialState) ag) with
  | Ok (ag', _) => Ok ag'
  | Throw => Throw
  end.

Definition abort (ag : Agent) : Agent * list Effect :=
  let '(ag, eff) :=
    match currentProcess ag with
    | Some h => (set_currentProcess None ag, [Kill (pid h)])
    | None => (ag, [])
    end in
  (setState_opt (set_isWorking false) ag, eff).

Definition shutdown (ag : Agent) : Agent * list Effect := abort ag.

(** *** One event of the stream *)

(** [event.message?.content?.filter(...).map(...).join('')]. *)
Definition textContent_of (event : StreamEvent) : option jsstring :=
  match message event with
  | Some m =>
      match m_content m with
      | Some content =>
          Some (JS.join []
                  ((λ c, default [] (c_text c)) <$>
                   List.filter (λ c, JS.eqb (c_type c) (JS.lit "text"))
                               content))
      | None => None
      end
  | None => None
  end.

(** The callback given to [setState] for a non-empty [textContent]. *)
Definition replace_text (chatId assistantMessageId textContent : jsstring)
  (draft : State) : res State :=
  with_messages chatId
    (λ messages,
       match list_find (λ m, id m = assistantMessageId) messages with
       | Some (msgIndex, m) =>
           let existingParts := parts m in
           let parts' :=
             match list_find (λ p, p_type p = JS.lit "text") existingParts with
             | Some (textPartIndex, p) =>
                 <[textPartIndex := set_text textContent p]> existingParts
             | None =>
                 existingParts ++
                   [{| p_type := JS.lit "text"; p_text := Some textContent;
                       p_data := None; p_mimeType := None |}]
             end in
           <[msgIndex := set_parts parts' m]> messages
       | None => messages
       end)
    draft.

Definition handleStreamEvent (event : StreamEvent)
  (chatId assistantMessageId : jsstring) (ag : Agent)
  : res (Agent * list Effect) :=
  match karton ag with
  | None => Ok (ag, [])
  | Some _ =>
      if JS.eqb (type_ event) (JS.lit "assistant") then
        match textContent_of event with
        | Some textContent =>
            if JS.truthy textContent then
              match setState (replace_text chatId assistantMessageId
                                           textContent) ag with
              | Ok ag' => Ok (ag', [])
              | Throw => Throw
              end
            else Ok (ag, [])
        | None => Ok (ag, [])
        end
      else if JS.eqb (type_ event) (JS.lit "result") then
        Ok (ag, [ConsoleLog (result event)])
      else if JS.eqb (type_ event) (JS.lit "system") then
        if bool_decide (subtype event = Some (JS.lit "init"))
        then Ok (ag, [ConsoleLog (session_id event)])
        else Ok (ag, [])
      else Ok (ag, [])
  end.

(** The events of a list, one after the other; the first exception ends
    it. *)
Fixpoint handleStreamEvents (events : list StreamEvent)
  (chatId assistantMessageId : jsstring) (ag : Agent) : res Agent :=
  match events with
  | [] => Ok ag
  | event :: rest =>
      match handleStreamEvent event chatId assistantMessageId ag with
      | Ok (ag', _) => handleStreamEvents rest chatId assistantMessageId ag'
      | Throw => Throw
      end
  end.

(** *** A turn

    [handleUserMessage] runs without interruption up to its first [await],
    the first read of [stdout]; from there it advances when a chunk
    arrives, when [stdout] ends or fails, and calls of the other
    procedures run in between.  All events that one chunk yields are
    handled before anything else runs. *)

Record Turn := {
  turn_chatId : jsstring;
  turn_assistantMessageId : jsstring;
  turn_process : Handle;
  turn_buffer : jsstring;
  turn_reading : bool
}.

Definition set_buffer (b : jsstring) (t : Turn) : Turn :=
  {| turn_chatId := turn_chatId t;
     turn_assistantMessageId := turn_assistantMessageId t;
     turn_process := turn_process t; turn_buffer := b;
     turn_reading := turn_reading t |}.

Definition stop_reading (t : Turn) : Turn :=
  {| turn_chatId := turn_chatId t;
     turn_assistantMessageId := turn_assistantMessageId t;
     turn_process := turn_process t; turn_buffer := turn_buffer t;
     turn_reading := false |}.

(** How the synchronous part of [handleUserMessage] ends: it returned, it
    threw, or it waits for [stdout]. *)
Inductive Started :=
| Returned
| Rejected
| Reading (turn : Turn).

(** What arrives while a turn is reading. *)
Inductive Input :=
| StdoutData (chunk : Buffer)
| StdoutEnd
| StdoutError
| ProcExit (code : option Z)
| CallAbort
| CallCreateChat (fresh : Fresh)
| CallSwitchChat (chatId : jsstring)
| CallDeleteChat (chatId : jsstring) (fresh : Fresh).

(** A call of a function value. *)
Definition call (f : Closure) (ag : Agent) : Agent :=
  match f with
  | ClearWorking => setState_opt (set_isWorking false) ag
  end.

(** Step 7 of [handleUserMessage]. *)
Definition complete (ag : Agent) : Agent :=
  let ag := set_currentProcess None ag in
  match setState (λ draft, Ok (set_isWorking false draft)) ag with
  | Ok ag' => ag'
  | Throw => ag
  end.

(** The body of the [for await] loop on the outputs of the generator; the
    boolean tells that [handleStreamEvent] threw, which leaves the loop. *)
Fixpoint consume (chatId assistantMessageId : jsstring)
  (outs : list Output) (ag : Agent) : Agent * list Effect * bool :=
  match outs with
  | [] => (ag, [], false)
  | Warn line :: rest =>
      let '(ag', eff, threw) := consume chatId assistantMessageId rest ag in
      (ag', ConsoleWarn line :: eff, threw)
  | Yield event :: rest =>
      match handleStreamEvent event chatId assistantMessageId ag with
      | Ok (ag', eff1) =>
          let '(ag'', eff, threw) :=
            consume chatId assistantMessageId rest ag' in
          (ag'', eff1 ++ eff, threw)
      | Throw => (ag, [], true)
      end
  end.

Section Platform.
Variable JSON_parse : jsstring → option StreamEvent.
Variable JSON_stringify : list (jsstring * jsstring) → jsstring.

(** Step 2: the input of the prompt builder. *)
Definition inputOf (message : ChatMessage) : ClaudeCodeInput :=
  let textPart :=
    List.find (λ p, JS.eqb (p_type p) (JS.lit "text")) (parts message) in
  {| text := default [] (textPart ≫= p_text);
     domContext :=
       PromptBuilder.serializeDomContext JSON_stringify
         (metadata message ≫= browserData);
     screenshots := Some (PromptBuilder.extractScreenshots (parts message));
     pluginSnippets :=
       Some (PromptBuilder.extractPluginSnippets
               (metadata message ≫= pluginContentItems)) |}.

(** Steps 1 to 5. *)
Definition handleUserMessage_start (message : ChatMessage)
  (outcome : SpawnOutcome) (fresh : Fresh) (ag : Agent)
  : Agent * list Effect * Started :=
  match karton ag with
  | None => (ag, [], Returned)
  | Some st =>
      match activeChatId st with
      | None => (ag, [], Returned)
      | Some chatId =>
          if negb (JS.truthy chatId) then (ag, [], Returned) else
          match setState (λ draft,
                            with_messages chatId (λ ms, ms ++ [message])
                                          (set_isWorking true draft)) ag with
          | Throw => (ag, [], Rejected)
          | Ok ag1 =>
              let streamJsonMessage :=
                PromptBuilder.buildStreamJsonMessage (inputOf message) in
              match spawnClaudeCode (config ag1)
                      (Some (ArgFunction ClearWorking)) None outcome with
              | Throw => (ag1, [], Rejected)
              | Ok h =>
                  let ag2 := set_currentProcess (Some h) ag1 in
                  let eff := [Spawn h; StdinWrite (pid h) streamJsonMessage;
                              StdinEnd (pid h)] in
                  let assistantMessageId := new_id fresh in
                  let placeholder :=
                    {| id := assistantMessageId;
                       msg_role := JS.lit "assistant";
                       parts := [];
                       metadata :=
                         Some {| md_createdAt := now fresh;
                                 browserData := None;
                                 pluginContentItems := None |} |} in
                  match setState (with_messages chatId
                                    (λ ms, ms ++ [placeholder])) ag2 with
                  | Throw => (ag2, eff, Rejected)
                  | Ok ag3 =>
                      (ag3, eff,
                       Reading {| turn_chatId := chatId;
                                  turn_assistantMessageId :=
                                    assistantMessageId;
                                  turn_process := h;
                                  turn_buffer := [];
                                  turn_reading := true |})
                  end
              end
          end
      end
  end.

(** The loop on the outputs of one read, then step 7 if the loop is
    over: because [stdout] is over ([last]) or because the handler
    threw, which the [catch] logs. *)
Definition advance (t : Turn) (outs : list Output) (buffer : jsstring)
  (last : bool) (ag : Agent) : Agent * Turn * list Effect :=
  let '(ag', eff, threw) :=
    consume (turn_chatId t) (turn_assistantMessageId t) outs ag in
  if threw then (complete ag', stop_reading t, eff ++ [ConsoleError])
  else if last then (complete ag', stop_reading t, eff)
  else (ag', set_buffer buffer t, eff).

Definition step (s : Agent * Turn) (i : Input)
  : Agent * Turn * list Effect :=
  let '(ag, t) := s in
  match i with
  | StdoutData chunk =>
      if turn_reading t then
        let '(outs, buffer) := on_chunk JSON_parse (turn_buffer t) chunk in
        advance t outs buffer false ag
      else (ag, t, [])
  | StdoutEnd =>
      if turn_reading t then
        advance t (on_close JSON_parse (turn_buffer t)) [] true ag
      else (ag, t, [])
  | StdoutError =>
      if turn_reading t
      then (complete ag, stop_reading t, [ConsoleError])
      else (ag, t, [])
  | ProcExit code =>
      (foldl (λ ag '(f, _), call f ag) ag
             (on_exit_event (turn_process t) code), t, [])
  | CallAbort => let '(ag', eff) := abort ag in (ag', t, eff)
  | CallCreateChat fresh =>
      match createAndActivateNewChat fresh ag with
      | Ok (ag', _) => (ag', t, [])
      | Throw => (ag, t, [])
      end
  | CallSwitchChat chatId => (switchChat chatId ag, t, [])
  | CallDeleteChat chatId fresh =>
      match deleteChat chatId fresh ag with
      | Ok ag' => (ag', t, [])
      | Throw => (ag, t, [])
      end
  end.

Fixpoint run (s : Agent * Turn) (inputs : list Input)
  : Agent * Turn * list Effect :=
  match inputs with
  | [] => (s, [])
  | i :: rest =>
      let '(s', eff1) := step s i in
      let '(s'', eff2) := run s' rest in
      (s'', eff1 ++ eff2)
  end.

(** [handleUserMessage] on a [stdout] that delivers [chunks] and closes,
    with nothing else in between. *)
Definition handleUserMessage (message : ChatMessage)
  (outcome : SpawnOutcome) (fresh : Fresh) (chunks : list Buffer)
  (ag : Agent) : Agent * list Effect :=
  match handleUserMessage_start message outcome fresh ag with
  | (ag', eff, Reading t) =>
      let '(ag'', _, eff') :=
        run (ag', t) ((StdoutData <$> chunks) ++ [StdoutEnd]) in
      (ag'', eff ++ eff')
  | (ag', eff, _) => (ag', eff)
  end.
End Platform.

End Agent.

(** ** [getInstance] of [ClaudeCodeAgent.ts], and [agent-loader.ts] *)
Module AgentLoader.
Import Types Contract Agent.

(** [new ClaudeCodeAgent(config)]. *)
Definition newAgent (config : ClaudeCodeAgentConfig) : Agent :=
  {| karton := None; config := config; currentProcess := None |}.

(** [ClaudeCodeAgent.getInstance(config)], on the static field [instance]
    of the class: the object that the field holds after the call, which is
    also the object returned. *)
Definition getInstance (instance : option Agent)
  (config : ClaudeCodeAgentConfig) : Agent :=
  match instance with
  | Some a => a
  | None => newAgent config
  end.

(** The fields of the resolved configuration that the loader reads. *)
Record Config := {
  agent : jsstring;
  claudeCommand : option jsstring;
  dir : jsstring
}.

(** The object literal that the loader passes to [getInstance]. *)
Definition claudeCodeConfig (config : Config) : ClaudeCodeAgentConfig :=
  {| command := default (JS.lit "claude") (claudeCommand config);
     cwd := dir config;
     skipPermissions := true;
     appendSystemPrompt := None;
     allowedTools := None |}.

(** The state of the loader: the static field of the class, and whether the
    module variable [agentInstance] refers to that object or is [null]. *)
Record Loader := {
  instance : option Agent;
  agentInstance : bool
}.

(** [loadAndInitializeAgent] when the configuration asks for the Claude
    Code agent: the new state and the [success] field of the result.  The
    other backend is another package; the function is not defined for
    it. *)
Definition loadAndInitializeAgent (config : Config) (fresh : Fresh)
  (st : Loader) : option (Loader * bool) :=
  if JS.eqb (agent config) (JS.lit "claude-code") then
    let a := getInstance (instance st) (claudeCodeConfig config) in
    match initialize fresh a with
    | Ok a' => Some ({| instance := Some a'; agentInstance := true |}, true)
    | Throw => Some ({| instance := Some a; agentInstance := true |}, false)
    end
  else None.

(** [shutdownAgent]. *)
Definition shutdownAgent (st : Loader) : Loader * list Effect :=
  if agentInstance st then
    match instance st with
    | Some a =>
        let '(a', eff) := shutdown a in
        ({| instance := Some a'; agentInstance := false |}, eff)
    | None => ({| instance := None; agentInstance := false |}, [])
    end
  else (st, []).

End AgentLoader.

(** ** [proxy.ts] *)
Module Proxy.

Definition PROXY_PREFIX : jsstring := JS.lit "/__stagewise_proxy__".

(** The two request headers that the filter reads; a header that the
    request does not carry is [None]. *)
Record Headers := {
  sec_fetch_dest : option jsstring;
  accept : option jsstring
}.

(** [pathFilter]: whether the request goes to the dev server, and the
    debug line that is logged. *)
Definition pathFilter (pathname : jsstring) (headers : Headers)
  : bool * list jsstring :=
  if JS.startsWith pathname PROXY_PREFIX then
    (true, [JS.lit "Proxying (prefixed): " ++ pathname])
  else if JS.startsWith pathname (JS.lit "/stagewise-toolbar-app") then
    (false, [])
  else
    match sec_fetch_dest headers with
    | Some secFetchDest =>
        if JS.eqb secFetchDest (JS.lit "document") then
          (false, [JS.lit "Not proxying " ++ pathname
                     ++ JS.lit " - document navigation"])
        else (true, [JS.lit "Proxying request: " ++ pathname])
    | None =>
        let accept := default [] (accept headers) in
        if JS.startsWith accept (JS.lit "text/html") then
          (false, [JS.lit "Not proxying " ++ pathname
                     ++ JS.lit " - html accept without prefix, serving toolbar"])
        else (true, [JS.lit "Proxying request (no sec-fetch-dest): "
                       ++ pathname])
    end.

End Proxy.

(** * Notions used to state the properties *)

(** ** The stream as text *)
Module StreamSpec.
Import Types StreamParser.

(** What [split_lf] does to a character that is not a line feed. *)
Definition cons_head (c : N) (segs : list jsstring) : list jsstring :=
  match segs with
  | [] => [[c]]
  | seg :: rest => (c :: seg) :: rest
  end.

(** The events among the outputs, in order. *)
Definition events (outs : list Output) : list StreamEvent :=
  omap (λ o, match o with Yield e => Some e | Warn _ => None end) outs.

(** The warnings among the outputs, in order. *)
Definition warnings (outs : list Output) : list jsstring :=
  omap (λ o, match o with Warn l => Some l | Yield _ => None end) outs.

(** The text that the chunks decode to, each chunk on its own. *)
Definition decoded (chunks : list Buffer) : jsstring :=
  concat (JS.Buffer_toString <$> chunks).

Section Parser.
Variable JSON_parse : jsstring → option StreamEvent.

(** The outputs for the lines of a text that are complete, that is,
    followed by a line feed: one record per line, in order. *)
Definition outputs_of_lines (text : jsstring) : list Output :=
  flat_map (parse_line JSON_parse) (removelast (JS.split_lf text)).

(** The outputs for a whole text: its complete lines, then what follows
    the last line feed as the last record. *)
Definition outputs_of_text (text : jsstring) : list Output :=
  outputs_of_lines text
    ++ on_close JSON_parse (default [] (last (JS.split_lf text))).

(** A line that holds a record: no line feed inside, not blank, and
    parsed to [event]. *)
Definition valid_line (line : jsstring) (event : StreamEvent) : Prop :=
  (JS.LF ∉ line) ∧ JS.truthy (JS.trim line) = true
  ∧ JSON_parse (JS.trim line) = Some event.

(** A line that is not blank and does not parse. *)
Definition malformed_line (line : jsstring) : Prop :=
  (JS.LF ∉ line) ∧ JS.truthy (JS.trim line) = true
  ∧ JSON_parse (JS.trim line) = None.
End Parser.

(** A text made of complete lines: empty, or ended by a line feed. *)
Definition complete_lines (text : jsstring) : Prop :=
  text = [] ∨ last text = Some JS.LF.

(** Bytes that are ASCII characters. *)
Definition ascii_only (bytes : Buffer) : Prop :=
  Forall (λ b, (Byte.to_N b <= 127)%N) bytes.

End StreamSpec.

(** ** The wire message in words *)
Module PromptSpec.
Import Types.

(** The attachment for one screenshot: an inline base64 image, with the
    one media type that the builder writes. *)
Definition image (screenshot : jsstring) : ContentItem :=
  CImage {| src_type := JS.lit "base64"; media_type := JS.lit "image/png";
            data := screenshot |}.

(** A blank line between two sections. *)
Definition blank_line : jsstring := [JS.LF; JS.LF].

(** The labels of the two blocks, ["[用户选中的DOM元素]"] and
    ["[项目上下文]"], each on a line of its own. *)
Definition dom_heading : jsstring :=
  [91; 29992; 25143; 36873; 20013; 30340; 68; 79; 77; 20803; 32032; 93; 10].

Definition plugin_heading : jsstring :=
  [91; 39033; 30446; 19978; 19979; 25991; 93; 10].

(** Texts, one per line: a line feed between two of them. *)
Fixpoint lines (xs : list jsstring) : jsstring :=
  match xs with
  | [] => []
  | x :: rest =>
      match rest with
      | [] => x
      | _ :: _ => x ++ [10] ++ lines rest
      end
  end.

(** The DOM block of the text: for a context that is given and is not the
    empty string, the label, the context and a blank line; nothing
    otherwise. *)
Definition dom_block (domContext : option jsstring) : jsstring :=
  match domContext with
  | Some (c :: context) => dom_heading ++ (c :: context) ++ blank_line
  | Some [] | None => []
  end.

(** The plugin block of the text: for a list of snippets that is given and
    is not empty, the label, the snippets one per line and a blank line;
    nothing otherwise. *)
Definition plugin_block (pluginSnippets : option (list jsstring))
  : jsstring :=
  match pluginSnippets with
  | Some (s :: rest) => plugin_heading ++ lines (s :: rest) ++ blank_line
  | Some [] | None => []
  end.

(** The first line of a serialized selection, ["元素 1:"]. *)
Definition first_element_heading : jsstring := [20803; 32032; 32; 49; 58].

End PromptSpec.

(** ** The session in words *)
Module SessionSpec.
Import Types Contract Agent.

(** The text part that the handler writes. *)
Definition text_part (t : jsstring) : Part :=
  {| p_type := JS.lit "text"; p_text := Some t; p_data := None;
     p_mimeType := None |}.

(** The concatenation of the text-typed fragments of an event. *)
Definition concatenated_text (event : StreamEvent) : jsstring :=
  match message event with
  | Some m =>
      concat ((λ c, default [] (c_text c)) <$>
              List.filter (λ c, bool_decide (c_type c = JS.lit "text"))
                          (default [] (m_content m)))
  | None => []
  end.

(** The concatenated text of the last event whose concatenated text is
    not empty, if there is one. *)
Definition last_nonempty_text (events : list StreamEvent)
  : option jsstring :=
  last (List.filter JS.truthy (concatenated_text <$> events)).

(** The messages of a chat of the store. *)
Definition chat_messages (ag : Agent) (chatId : jsstring)
  : option (list ChatMessage) :=
  st ← karton ag; chat ← obj_get (chats st) chatId; Some (messages chat).

(** The working flag of the store. *)
Definition working (ag : Agent) : option bool := isWorking <$> karton ag.

(** The active chat of the store. *)
Definition active (ag : Agent) : option jsstring :=
  karton ag ≫= activeChatId.

(** The identifiers of the chats of the store. *)
Definition chat_ids (ag : Agent) : list jsstring :=
  match karton ag with Some st => obj_keys (chats st) | None => [] end.

(** The parts of the placeholder while it is streamed to: none, or the
    one text part. *)
Definition streamed_parts (o : option jsstring) : list Part :=
  match o with Some t => [text_part t] | None => [] end.

(** The later of two optional texts. *)
Definition later (o1 o2 : option jsstring) : option jsstring :=
  match o2 with Some t => Some t | None => o1 end.

(** The message [m] with the parts [ps] and its other fields as they
    are. *)
Definition holding (ps : list Part) (m : ChatMessage) : ChatMessage :=
  {| id := id m; msg_role := msg_role m; parts := ps;
     metadata := metadata m |}.

(** A chat in which [placeholder] holds the parts [ps], after the
    messages [pre] and before the messages [post]. *)
Definition thread (pre post : list ChatMessage) (placeholder : ChatMessage)
  (ps : list Part) : list ChatMessage :=
  pre ++ holding ps placeholder :: post.

(** A text written to the parts [ps] of a message: the first part of type
    text has another text and is otherwise the same, or, when no part has
    type text, one text part is added at the end. *)
Definition text_written (ps ps' : list Part) : Prop :=
  (∃ ps1 p ps2 t,
     ps = ps1 ++ p :: ps2
     ∧ Forall (λ q, p_type q ≠ JS.lit "text") ps1
     ∧ p_type p = JS.lit "text"
     ∧ ps' = ps1 ++ {| p_type := p_type p; p_text := Some t;
                       p_data := p_data p; p_mimeType := p_mimeType p |}
                 :: ps2)
  ∨ (∃ t,
       Forall (λ q, p_type q ≠ JS.lit "text") ps
       ∧ ps' = ps ++ [text_part t]).

(** The messages [ms'] are the messages [ms], but for a text written to
    the first message that has the identifier [aid]: every other message
    is the same and at its place, and that message has the same
    identifier, role and metadata. *)
Definition placeholder_written (aid : jsstring)
  (ms ms' : list ChatMessage) : Prop :=
  ms' = ms
  ∨ ∃ pre m post ps',
      ms = pre ++ m :: post
      ∧ Forall (λ x, id x ≠ aid) pre
      ∧ id m = aid
      ∧ text_written (parts m) ps'
      ∧ ms' = pre ++ {| id := id m; msg_role := msg_role m; parts := ps';
                        metadata := metadata m |} :: post.

(** What the events of a stream leave alone: the active chat, the working
    flag, the set of chats, the process handle and every chat but the one
    of the turn. *)
Definition same_session (chatId : jsstring) (ag ag' : Agent) : Prop :=
  active ag' = active ag
  ∧ working ag' = working ag
  ∧ chat_ids ag' = chat_ids ag
  ∧ currentProcess ag' = currentProcess ag
  ∧ (∀ k, k ≠ chatId → chat_messages ag' k = chat_messages ag k).

(** The store exists. *)
Definition initialized (ag : Agent) : Prop := is_Some (karton ag).

(** What is read from the output, as opposed to what is called. *)
Definition from_stdout (i : Input) : Prop :=
  match i with
  | StdoutData _ | StdoutEnd | StdoutError => True
  | _ => False
  end.

(** An event of kind [assistant]. *)
Definition is_assistant (event : StreamEvent) : Prop :=
  type_ event = JS.lit "assistant".

End SessionSpec.

(** ** Lines of text *)
Module LineSpec.
Import Types StreamParser.

(** The event that a line holds: none for a blank line or a line that does
    not parse. *)
Definition record_of_line (JSON_parse : jsstring → option StreamEvent)
  (line : jsstring) : option StreamEvent :=
  if JS.truthy (JS.trim line) then JSON_parse (JS.trim line) else None.

(** A line with something else than white space. *)
Definition nonblank (line : jsstring) : bool := JS.truthy (JS.trim line).

(** A text of white space only. *)
Definition blank_text (text : jsstring) : Prop :=
  Forall (λ c, JS.is_space c = true) text.

(** The carriage return, ['\r']. *)
Definition CR : N := 13.

(** A text with every line feed preceded by a carriage return. *)
Definition crlf (text : jsstring) : jsstring :=
  flat_map (λ c, if bool_decide (c = JS.LF) then [CR; JS.LF] else [c]) text.

(** The state of the decoder after some bytes. *)
Definition utf8_state_after (st : JS.Utf8State) (bytes : list N)
  : JS.Utf8State :=
  foldl (λ st b, (JS.utf8_step st b).2) st bytes.

(** A chunk that ends where a character ends, as far as the decoder can
    tell: it is idle after the last byte. *)
Definition ends_on_character (chunk : Buffer) : Prop :=
  utf8_state_after JS.Idle (Byte.to_N <$> chunk) = JS.Idle.

End LineSpec.

(** ** Parts of a chat message *)
Module MessageSpec.
Import Types Contract.

(** The part [p] is an image file that carries the data [d]. *)
Definition is_screenshot (p : Part) (d : jsstring) : Prop :=
  p_type p = JS.lit "file"
  ∧ (∃ m, p_mimeType p = Some m ∧ JS.startsWith m (JS.lit "image/") = true)
  ∧ p_data p = Some d
  ∧ d ≠ [].

(** The snippet of one content item of a plugin. *)
Definition snippet (pluginName itemName : jsstring) (item : PluginItem)
  : jsstring :=
  JS.lit "[" ++ pluginName ++ JS.lit "/" ++ itemName ++ JS.lit "]"
    ++ [JS.LF] ++ item_text item.

(** The text of the first part of type text, empty if there is none or if
    it has no text. *)
Definition first_text (message : ChatMessage) : jsstring :=
  match List.find (λ p, bool_decide (p_type p = JS.lit "text"))
                  (parts message) with
  | Some p => default [] (p_text p)
  | None => []
  end.

End MessageSpec.

(** ** The store and the turn, further notions *)
Module StoreSpec.
Import Types Contract StreamParser Agent StreamSpec SessionSpec.

(** The active identifier is the identifier of a chat of the store. *)
Definition active_chat_exists (ag : Agent) : Prop :=
  ∃ a, active ag = Some a ∧ a ∈ chat_ids ag.

(** While a process handle is held the working flag is set. *)
Definition handle_implies_working (ag : Agent) : Prop :=
  is_Some (currentProcess ag) → working ag = Some true.

(** A key that is an array index below [n]. *)
Definition index_below (n : N) (k : jsstring) : Prop :=
  ∃ n', JS.array_index k = Some n' ∧ (n' < n)%N.

(** The place of a new key [k] among the keys [front ++ back] of an
    object: last if it is not an array index, and otherwise after the
    indices below it and before every other key. *)
Definition placed (k : jsstring) (front back : list jsstring) : Prop :=
  match JS.array_index k with
  | None => back = []
  | Some n =>
      Forall (index_below n) front
      ∧ match back with
        | [] => True
        | k' :: _ => ¬ index_below n k'
        end
  end.

(** The identifiers without [chatId], in their order. *)
Definition without (chatId : jsstring) (ids : list jsstring)
  : list jsstring :=
  List.filter (λ k, negb (JS.eqb k chatId)) ids.

(** A call that keeps the active chat among the chats: a switch to a chat
    that exists, a deletion whose generated identifier is not the deleted
    one. *)
Definition input_ok (ag : Agent) (i : Input) : Prop :=
  match i with
  | CallSwitchChat chatId => chatId ∈ chat_ids ag
  | CallDeleteChat chatId fresh => new_id fresh ≠ chatId
  | _ => True
  end.

(** What the handler logs for an event that is not of kind
    [assistant]. *)
Definition other_kind_log (event : StreamEvent) : list Effect :=
  if JS.eqb (type_ event) (JS.lit "result") then [ConsoleLog (result event)]
  else if JS.eqb (type_ event) (JS.lit "system")
          && bool_decide (subtype event = Some (JS.lit "init"))
       then [ConsoleLog (session_id event)]
  else [].





End StoreSpec.

(** ** The instance over its life *)
Module LifeSpec.
Import Types Contract ProcessManager Agent.

Section Platform.
Variable JSON_parse : jsstring → option StreamEvent.
Variable JSON_stringify : list (jsstring * jsstring) → jsstring.

End Platform.


End LifeSpec.

(** ** Concrete values *)
Module Samples.
Import Types Contract ProcessManager StreamParser Agent SessionSpec.

(** Bytes of a JSON text that is written here with an apostrophe in the
    place of each double quote. *)
Definition json_bytes (s : string) : Buffer :=
  (λ b, if Byte.eqb b Byte.x27 then Byte.x22 else b)
    <$> list_byte_of_string s.

Definition json_text (s : string) : jsstring :=
  JS.Buffer_toString (json_bytes s).

(** An assistant event with one text fragment. *)
Definition assistant_event (t : jsstring) : StreamEvent :=
  {| type_ := JS.lit "assistant"; subtype := None;
     message :=
       Some {| m_id := JS.lit "m1";
               m_content :=
                 Some [{| c_type := JS.lit "text"; c_text := Some t |}] |};
     result := None; session_id := None; is_error := None;
     duration_ms := None |}.

Definition record_prefix : jsstring :=
  json_text
    "{'type':'assistant','message':{'id':'m1','content':[{'type':'text','text':'".

Definition record_suffix : jsstring := json_text "'}]}}".

(** A character that a JSON string holds as it is. *)
Definition plain (c : N) : bool :=
  (32 <=? c) && negb (c =? 34) && negb (c =? 92).

(** [JSON.parse] on the records of one shape, an assistant message with
    one text fragment whose text needs no escape; any other text is
    reported as malformed. *)
Definition parse_assistant_record (line : jsstring) : option StreamEvent :=
  if JS.startsWith line record_prefix then
    let rest := drop (length record_prefix) line in
    let n := (length rest - length record_suffix)%nat in
    if bool_decide (drop n rest = record_suffix)
       && bool_decide (length record_suffix ≤ length rest)%nat
       && forallb plain (take n rest)
    then Some (assistant_event (take n rest))
    else None
  else None.

(** The record whose text is [t], as bytes and without its line feed. *)
Definition record_bytes (t : string) : Buffer :=
  json_bytes
    "{'type':'assistant','message':{'id':'m1','content':[{'type':'text','text':'"
    ++ list_byte_of_string t ++ json_bytes "'}]}}".

(** One byte per chunk. *)
Definition bytewise (bytes : Buffer) : list Buffer := (λ b, [b]) <$> bytes.

(** A record whose text is the letter e with an acute accent, two bytes
    in UTF-8, and its line feed. *)
Definition accent_stream : Buffer := record_bytes "é" ++ [Byte.x0a].

(** A stream of three lines, the second of which is not JSON. *)
Definition three_lines : Buffer :=
  record_bytes "Hel" ++ [Byte.x0a] ++ list_byte_of_string "oops"
    ++ [Byte.x0a] ++ record_bytes "Hello" ++ [Byte.x0a].

Definition sample_config : ClaudeCodeAgentConfig :=
  {| command := JS.lit "claude"; cwd := JS.lit "/work";
     skipPermissions := true; appendSystemPrompt := None;
     allowedTools := None |}.

(** An instance before [initialize], and after it. *)
Definition blank_agent : Agent :=
  {| karton := None; config := sample_config; currentProcess := None |}.

Definition empty_chat (t : N) : Chat :=
  {| title := JS.lit "New Chat"; createdAt := t; messages := [] |}.

Definition ready_agent : Agent :=
  {| karton := Some {| activeChatId := Some (JS.lit "c1");
                       chats := [(JS.lit "c1", empty_chat 0)];
                       isWorking := false |};
     config := sample_config; currentProcess := None |}.

Definition user_message : ChatMessage :=
  {| id := JS.lit "u1"; msg_role := JS.lit "user";
     parts := [text_part (JS.lit "hi")]; metadata := None |}.

Definition fresh1 : Fresh := {| new_id := JS.lit "a1"; now := 1 |}.
Definition fresh2 : Fresh := {| new_id := JS.lit "c2"; now := 2 |}.

(** The placeholder that a turn started with [fresh1] appends. *)
Definition sample_placeholder : ChatMessage :=
  {| id := JS.lit "a1"; msg_role := JS.lit "assistant"; parts := [];
     metadata := Some {| md_createdAt := 1; browserData := None;
                         pluginContentItems := None |} |}.

(** [JSON.stringify] is not reached by the sample messages, which select
    no element. *)
Definition no_stringify (attrs : list (jsstring * jsstring)) : jsstring := [].

(** The instance and the turn after the synchronous part of
    [handleUserMessage] on [ready_agent], with a spawn that succeeds. *)
Definition started :=
  handleUserMessage_start no_stringify user_message (Spawned 7) fresh1
    ready_agent.

Definition streaming_agent : Agent := started.1.1.

Definition sample_handle : Handle :=
  {| pid := 7; spawn_command := JS.lit "claude";
     spawn_args :=
       (ArgString <$> [JS.lit "-p"; JS.lit "--input-format";
                       JS.lit "stream-json"; JS.lit "--output-format";
                       JS.lit "stream-json"; JS.lit "--verbose";
                       JS.lit "--resume"])
         ++ [ArgFunction ClearWorking;
             ArgString (JS.lit "--dangerously-skip-permissions")];
     spawn_cwd := JS.lit "/work"; exit_callback := None;
     proc_listeners := [JS.lit "exit"];
     stderr_listeners := [JS.lit "data"] |}.

Definition streaming_turn : Turn :=
  {| turn_chatId := JS.lit "c1"; turn_assistantMessageId := JS.lit "a1";
     turn_process := sample_handle; turn_buffer := [];
     turn_reading := true |}.

(** [ready_agent] after step 1 of [handleUserMessage]: the flag is set
    and the user message is in the chat. *)
Definition stuck_agent : Agent :=
  {| karton := Some {| activeChatId := Some (JS.lit "c1");
                       chats := [(JS.lit "c1",
                                  {| title := JS.lit "New Chat";
                                     createdAt := 0;
                                     messages := [user_message] |})];
                       isWorking := true |};
     config := sample_config; currentProcess := None |}.

(** An instance with two chats, the second under the empty identifier,
    which [generateId] returns when [Math.random()] returns 0. *)
Definition two_chat_agent : Agent :=
  {| karton := Some {| activeChatId := Some (JS.lit "c1");
                       chats := [(JS.lit "c1", empty_chat 0);
                                 ([], empty_chat 1)];
                       isWorking := false |};
     config := sample_config; currentProcess := None |}.

(** An instance with two chats under ordinary identifiers. *)
Definition two_named_chats_agent : Agent :=
  {| karton := Some {| activeChatId := Some (JS.lit "c1");
                       chats := [(JS.lit "c1", empty_chat 0);
                                 (JS.lit "c0", empty_chat 1)];
                       isWorking := false |};
     config := sample_config; currentProcess := None |}.

(** A record that arrives late, with its line feed. *)
Definition late_chunk : Buffer := record_bytes "late" ++ [Byte.x0a].

End Samples.

(** ** More concrete values *)
Module MoreSamples.
Import Types Contract ProcessManager StreamParser Agent SessionSpec Samples.

(** An event of a kind that the handler has no case for. *)
Definition tool_use_event : StreamEvent :=
  {| type_ := JS.lit "tool_use"; subtype := None; message := None;
     result := None; session_id := None; is_error := None;
     duration_ms := None |}.

(** An instance with three chats, the second of which is active. *)
Definition three_chat_agent : Agent :=
  {| karton := Some {| activeChatId := Some (JS.lit "c2");
                       chats := [(JS.lit "c1",
                                  {| title := JS.lit "New Chat";
                                     createdAt := 0;
                                     messages := [user_message] |});
                                 (JS.lit "c2", empty_chat 1);
                                 (JS.lit "c3", empty_chat 2)];
                       isWorking := false |};
     config := sample_config; currentProcess := None |}.

Definition fresh4 : Fresh := {| new_id := JS.lit "c4"; now := 4 |}.

End MoreSamples.

(** * Properties *)

(** ** Lines and chunks *)
Module StreamParserFacts.
Import Types StreamParser StreamSpec.

Lemma split_lf_cons c s :
  JS.split_lf (c :: s) =
    if bool_decide (c = JS.LF) then [] :: JS.split_lf s
    else cons_head c (JS.split_lf s).
Proof. reflexivity. Qed.

Lemma split_lf_nonempty s : JS.split_lf s ≠ [].
Proof.
  destruct s as [|c s]; [done|].
  rewrite split_lf_cons. case_bool_decide; [done|].
  by destruct (JS.split_lf s).
Qed.

Lemma split_lf_no_lf s : JS.LF ∉ s → JS.split_lf s = [s].
Proof.
  induction s as [|c s IH]; [done|].
  intros Hin. rewrite split_lf_cons.
  rewrite bool_decide_false by (intros ->; apply Hin; left).
  rewrite IH; [done|]. intros ?. apply Hin. by right.
Qed.

(** No segment contains a line feed. *)
Lemma split_lf_segments s seg : seg ∈ JS.split_lf s → JS.LF ∉ seg.
Proof.
  revert seg. induction s as [|c s IH]; intros seg.
  - simpl. intros ->%list_elem_of_singleton. apply not_elem_of_nil.
  - rewrite split_lf_cons. case_bool_decide as Hc.
    + intros [->|?]%elem_of_cons; [apply not_elem_of_nil|by apply IH].
    + destruct (JS.split_lf s) as [|seg0 segs] eqn:E; simpl.
      * intros ->%list_elem_of_singleton.
        intros [?|[]%not_elem_of_nil]%elem_of_cons. congruence.
      * intros [->|Hin]%elem_of_cons.
        -- intros [?|Hin]%elem_of_cons; [congruence|].
           revert Hin. apply IH. left.
        -- apply IH. by right.
Qed.

Lemma split_lf_last_no_lf s : JS.LF ∉ default [] (last (JS.split_lf s)).
Proof.
  destruct (last (JS.split_lf s)) as [seg|] eqn:E; simpl.
  - apply (split_lf_segments s). by apply last_Some_elem_of.
  - apply not_elem_of_nil.
Qed.

(** Splitting a concatenation: the complete lines of the first text, then
    the split of its unfinished line followed by the second text. *)
Lemma split_lf_app x y :
  JS.split_lf (x ++ y) =
    removelast (JS.split_lf x)
      ++ JS.split_lf (default [] (last (JS.split_lf x)) ++ y).
Proof.
  induction x as [|c x IH]; [done|].
  rewrite <- app_comm_cons, !split_lf_cons.
  pose proof (split_lf_nonempty x) as Hne.
  case_bool_decide as Hc.
  - rewrite IH. destruct (JS.split_lf x) as [|seg segs]; [done|].
    by rewrite last_cons_cons.
  - rewrite IH. destruct (JS.split_lf x) as [|seg [|seg' segs]]; [done| |].
    + simpl. rewrite bool_decide_false by done. done.
    + simpl cons_head. rewrite !last_cons_cons.
      change (removelast ((c :: seg) :: seg' :: segs))
        with ((c :: seg) :: removelast (seg' :: segs)).
      change (removelast (seg :: seg' :: segs))
        with (seg :: removelast (seg' :: segs)).
      done.
Qed.

Section Parser.
Variable JSON_parse : jsstring → option StreamEvent.

Lemma run_outputs chunks buffer :
  JS.LF ∉ buffer →
  run JSON_parse buffer chunks = outputs_of_text JSON_parse (buffer ++ decoded chunks).
Proof.
  revert buffer. induction chunks as [|chunk chunks IH]; intros buffer Hb.
  - unfold decoded, outputs_of_text, outputs_of_lines. simpl. rewrite app_nil_r.
    by rewrite split_lf_no_lf.
  - simpl. unfold on_chunk, JS.pop.
    rewrite IH by apply split_lf_last_no_lf.
    unfold decoded. rewrite fmap_cons. simpl concat.
    rewrite (assoc_L (++) buffer).
    unfold outputs_of_text, outputs_of_lines.
    rewrite (split_lf_app (buffer ++ _) (concat _)).
    set (rest := JS.split_lf (_ ++ concat _)).
    assert (rest ≠ []) as Hrest by apply split_lf_nonempty.
    rewrite removelast_app by done.
    rewrite flat_map_app, <- (assoc_L (++)). f_equal. f_equal.
    rewrite last_app. destruct (last rest) eqn:E; [done|].
    by apply last_None in E.
Qed.

(** The generator depends on the chunks only through the text they
    decode to. *)
Lemma parseStreamJson_outputs chunks :
  parseStreamJson JSON_parse chunks = outputs_of_text JSON_parse (decoded chunks).
Proof. apply run_outputs, not_elem_of_nil. Qed.

Lemma parseStreamJson_same_text chunks1 chunks2 :
  decoded chunks1 = decoded chunks2 →
  parseStreamJson JSON_parse chunks1 = parseStreamJson JSON_parse chunks2.
Proof. intros H. by rewrite !parseStreamJson_outputs, H. Qed.
End Parser.

End StreamParserFacts.

(** ** The decoder on lines *)
Module DecoderProperties.
Import Types StreamParser StreamSpec StreamParserFacts Samples.

Lemma split_lf_line line rest :
  JS.LF ∉ line →
  JS.split_lf (line ++ JS.LF :: rest) = line :: JS.split_lf rest.
Proof.
  induction line as [|c line IH]; intros Hl.
  - by rewrite app_nil_l, split_lf_cons, bool_decide_true.
  - rewrite <- app_comm_cons, split_lf_cons.
    rewrite bool_decide_false by (intros ->; apply Hl; left).
    rewrite IH; [done|]. intros ?. apply Hl. by right.
Qed.

Lemma split_lf_complete text rest :
  complete_lines text →
  JS.split_lf (text ++ rest) = removelast (JS.split_lf text) ++ JS.split_lf rest.
Proof.
  intros Hc. rewrite split_lf_app. f_equal.
  destruct Hc as [->|[text' ->]%last_Some]; [done|].
  rewrite (split_lf_app text' [JS.LF]).
  rewrite split_lf_line by apply split_lf_last_no_lf.
  by rewrite last_app.
Qed.

Section Parser.
Variable JSON_parse : jsstring → option StreamEvent.

Lemma outputs_of_text_line line rest :
  JS.LF ∉ line →
  outputs_of_text JSON_parse (line ++ JS.LF :: rest) =
    parse_line JSON_parse line ++ outputs_of_text JSON_parse rest.
Proof.
  intros Hl. unfold outputs_of_text, outputs_of_lines.
  rewrite split_lf_line by done.
  pose proof (split_lf_nonempty rest).
  destruct (JS.split_lf rest) as [|seg segs] eqn:E; [done|].
  rewrite last_cons_cons.
  change (removelast (line :: seg :: segs))
    with (line :: removelast (seg :: segs)).
  simpl flat_map. by rewrite <- (assoc_L (++)).
Qed.

Lemma outputs_of_text_complete text rest :
  complete_lines text →
  outputs_of_text JSON_parse (text ++ rest) =
    outputs_of_lines JSON_parse text ++ outputs_of_text JSON_parse rest.
Proof.
  intros Hc. unfold outputs_of_text, outputs_of_lines.
  rewrite split_lf_complete by done.
  pose proof (split_lf_nonempty rest).
  rewrite removelast_app, flat_map_app, last_app by done.
  destruct (last (JS.split_lf rest)) eqn:E.
  - by rewrite <- (assoc_L (++)).
  - by apply last_None in E.
Qed.

Lemma parse_line_valid line event :
  valid_line JSON_parse line event →
  parse_line JSON_parse line = [Yield event].
Proof. intros (_ & Ht & Hp). unfold parse_line. by rewrite Ht, Hp. Qed.

Lemma parse_line_malformed line :
  malformed_line JSON_parse line →
  parse_line JSON_parse line = [Warn (JS.trim line)].
Proof. intros (_ & Ht & Hp). unfold parse_line. by rewrite Ht, Hp. Qed.

Lemma outputs_of_text_last_valid line event :
  valid_line JSON_parse line event →
  outputs_of_text JSON_parse line = [Yield event].
Proof.
  intros (Hl & Ht & Hp). unfold outputs_of_text, outputs_of_lines.
  rewrite split_lf_no_lf by done. simpl. unfold on_close.
  by rewrite Ht, Hp.
Qed.

(** C8.  A line that does not parse, between two lines that do: the
    decoder yields the event of the first line, warns about the
    malformed line and drops it, yields the event of the second line,
    and goes on with the rest of the stream as if the malformed line had
    not been there.  This holds wherever the three lines stand in the
    stream, also when the second valid line is the unfinished end of it,
    and for every way the stream is cut into chunks. *)
Theorem malformed_line_between_valid_lines
  (chunks : list Buffer) (before l1 bad l2 : jsstring)
  (e1 e2 : StreamEvent) :
  complete_lines before →
  valid_line JSON_parse l1 e1 →
  malformed_line JSON_parse bad →
  valid_line JSON_parse l2 e2 →
  (∀ after,
     decoded chunks =
       before ++ l1 ++ [JS.LF] ++ bad ++ [JS.LF] ++ l2 ++ [JS.LF] ++ after →
     parseStreamJson JSON_parse chunks =
       outputs_of_lines JSON_parse before
         ++ [Yield e1; Warn (JS.trim bad); Yield e2]
         ++ outputs_of_text JSON_parse after)
  ∧ (decoded chunks = before ++ l1 ++ [JS.LF] ++ bad ++ [JS.LF] ++ l2 →
     parseStreamJson JSON_parse chunks =
       outputs_of_lines JSON_parse before
         ++ [Yield e1; Warn (JS.trim bad); Yield e2]).
Proof.
  intros Hb H1 Hbad H2.
  pose proof H1 as (Hl1 & _). pose proof Hbad as (Hlb & _).
  pose proof H2 as (Hl2 & _).
  split; [intros after Htext|intros Htext];
    rewrite parseStreamJson_outputs, Htext;
    rewrite outputs_of_text_complete by done; f_equal;
    simpl app; rewrite !outputs_of_text_line by done;
    rewrite (parse_line_valid _ _ H1), (parse_line_malformed _ Hbad).
  - by rewrite (parse_line_valid _ _ H2).
  - by rewrite (outputs_of_text_last_valid _ _ H2).
Qed.
End Parser.

Lemma malformed_line_between_valid_lines_witness :
  parseStreamJson parse_assistant_record (bytewise three_lines) =
    [Yield (assistant_event (JS.lit "Hel")); Warn (JS.lit "oops");
     Yield (assistant_event (JS.lit "Hello"))].
Proof.
  pose proof (malformed_line_between_valid_lines parse_assistant_record
                (bytewise three_lines) []
                (JS.Buffer_toString (record_bytes "Hel"))
                (JS.lit "oops")
                (JS.Buffer_toString (record_bytes "Hello"))
                (assistant_event (JS.lit "Hel"))
                (assistant_event (JS.lit "Hello"))) as H.
  destruct H as [H _].
  - by left.
  - split; [|split]; [|vm_compute; reflexivity..].
    apply (bool_decide_unpack _). vm_compute. exact I.
  - split; [|split]; [|vm_compute; reflexivity..].
    apply (bool_decide_unpack _). vm_compute. exact I.
  - split; [|split]; [|vm_compute; reflexivity..].
    apply (bool_decide_unpack _). vm_compute. exact I.
  - rewrite (H []); [reflexivity|]. vm_compute. reflexivity.
Defined.

End DecoderProperties.

(** ** The decoder on chunks *)
Module ChunkingProperties.
Import Types StreamParser StreamSpec StreamParserFacts Samples.

(** ASCII bytes decode to themselves, whatever follows them. *)
Lemma utf8_decode_ascii (a b : list N) :
  Forall (λ n, n <= 127) a →
  JS.utf8_decode JS.Idle (a ++ b) = a ++ JS.utf8_decode JS.Idle b.
Proof.
  induction 1 as [|n a Hn _ IH]; [done|].
  rewrite <- app_comm_cons.
  change (JS.utf8_decode JS.Idle (n :: ?l))
    with (let '(out, st') := JS.utf8_lead n in out ++ JS.utf8_decode st' l).
  unfold JS.utf8_lead.
  rewrite (proj2 (N.leb_le n 127)) by done.
  by rewrite IH.
Qed.

Lemma Buffer_toString_ascii (a b : Buffer) :
  ascii_only a →
  JS.Buffer_toString (a ++ b) = JS.Buffer_toString a ++ JS.Buffer_toString b.
Proof.
  intros Ha. unfold JS.Buffer_toString. rewrite fmap_app.
  assert (Forall (λ n, n <= 127) (Byte.to_N <$> a)) as Ha'.
  { unfold ascii_only in Ha. by rewrite Forall_fmap. }
  rewrite utf8_decode_ascii by done. f_equal.
  pose proof (utf8_decode_ascii _ [] Ha') as Hnil.
  rewrite app_nil_r in Hnil. rewrite Hnil. simpl. by rewrite app_nil_r.
Qed.

Lemma decoded_ascii (chunks : list Buffer) :
  ascii_only (concat chunks) →
  decoded chunks = JS.Buffer_toString (concat chunks).
Proof.
  induction chunks as [|chunk chunks IH]; [done|].
  unfold ascii_only. simpl concat. intros [Hc Hcs]%Forall_app.
  unfold decoded. rewrite fmap_cons. simpl concat.
  rewrite Buffer_toString_ascii by done. f_equal. by apply IH.
Qed.

(** On output that is ASCII, the decoder does not see the chunk
    boundaries: two ways of cutting the same bytes give the same outputs,
    in the same order. *)
Theorem ascii_chunking_invariant
  (JSON_parse : jsstring → option StreamEvent) (chunks1 chunks2 : list Buffer) :
  concat chunks1 = concat chunks2 →
  ascii_only (concat chunks1) →
  parseStreamJson JSON_parse chunks1 = parseStreamJson JSON_parse chunks2.
Proof.
  intros Heq Hascii. apply parseStreamJson_same_text.
  rewrite !decoded_ascii; [by rewrite Heq|by rewrite <- Heq|done].
Qed.

(** C3.  The bytes of one record whose text is a two-byte character,
    given to the decoder whole and given one byte per chunk.  Each chunk
    is decoded on its own, so the two halves of the character become two
    replacement characters: the parser is handed a different text, and
    the event that comes out carries a different text. *)
Theorem split_character_changes_events :
  concat [accent_stream] = concat (bytewise accent_stream)
  ∧ (∀ JSON_parse : jsstring → option StreamEvent,
       parseStreamJson JSON_parse [accent_stream] =
         parse_line JSON_parse (record_prefix ++ [233] ++ record_suffix)
       ∧ parseStreamJson JSON_parse (bytewise accent_stream) =
           parse_line JSON_parse
             (record_prefix ++ [65533; 65533] ++ record_suffix))
  ∧ events (parseStreamJson parse_assistant_record [accent_stream]) =
      [assistant_event [233]]
  ∧ events (parseStreamJson parse_assistant_record (bytewise accent_stream)) =
      [assistant_event [65533; 65533]].
Proof.
  split; [vm_compute; reflexivity|].
  split.
  { intros JSON_parse; split; vm_compute;
      match goal with
      | |- context [JSON_parse ?l] => by destruct (JSON_parse l)
      end. }
  split; vm_compute; reflexivity.
Qed.

End ChunkingProperties.

(** ** The prompt builder *)
Module PromptProperties.
Import Types PromptBuilder PromptSpec.

Lemma foldl_push {A B} (f : A → B) (xs : list A) (acc : list B) :
  foldl (λ acc x, acc ++ [f x]) acc xs = acc ++ (f <$> xs).
Proof.
  revert acc. induction xs as [|x xs IH]; intros acc; simpl.
  - by rewrite app_nil_r.
  - by rewrite IH, <- (assoc_L (++)).
Qed.

Lemma buildStreamJsonMessage_content input :
  content (wire_message (buildStreamJsonMessage input)) =
    (image <$> default [] (screenshots input))
      ++ [CText (buildPromptText input)].
Proof.
  unfold buildStreamJsonMessage. simpl.
  by rewrite (foldl_push image).
Qed.

Lemma buildPromptText_sections input :
  buildPromptText input =
    (if JS.truthy_opt (domContext input)
     then dom_label ++ default [] (domContext input) ++ blank_line
     else [])
    ++ (if has_length (pluginSnippets input)
        then plugin_label
               ++ JS.join [JS.LF] (default [] (pluginSnippets input))
               ++ blank_line
        else [])
    ++ text input.
Proof.
  unfold buildPromptText, blank_line.
  destruct (JS.truthy_opt (domContext input)),
    (has_length (pluginSnippets input)); simpl;
    rewrite <- ?(assoc_L (++)); reflexivity.
Qed.

Lemma join_lines (xs : list jsstring) : JS.join [JS.LF] xs = lines xs.
Proof.
  induction xs as [|x [|y xs] IH]; [done|done|].
  change (JS.join [JS.LF] (x :: y :: xs))
    with (x ++ [JS.LF] ++ JS.join [JS.LF] (y :: xs)).
  by rewrite IH.
Qed.

Lemma buildPromptText_blocks input :
  buildPromptText input =
    dom_block (domContext input) ++ plugin_block (pluginSnippets input)
      ++ text input.
Proof.
  rewrite buildPromptText_sections, join_lines.
  destruct (domContext input) as [[|c context]|],
    (pluginSnippets input) as [[|s rest]|]; reflexivity.
Qed.

(** C7.  The wire message is a function of the input alone.  Its content
    is one base64 image of media type image/png per screenshot, in input
    order, then exactly one text attachment.  The text is the DOM block,
    the plugin block and the user text, in that order.  The DOM block is
    there exactly when a DOM context is given that is not the empty
    string: its label, the context, a blank line.  The plugin block is
    there exactly when a snippet is given: its label, the snippets joined
    by line feeds, a blank line.  Screenshots AAA and BBB with the text hi
    give image AAA, image BBB, text hi; the context D and the snippets p
    and q with the text hi give one text, the label of the first block, D,
    a blank line, the label of the second, p and q on a line each, a
    blank line, hi. *)
Theorem buildStreamJsonMessage_layout :
  (∀ input,
     wire_type (buildStreamJsonMessage input) = JS.lit "user"
     ∧ role (wire_message (buildStreamJsonMessage input)) = JS.lit "user"
     ∧ content (wire_message (buildStreamJsonMessage input)) =
         (image <$> default [] (screenshots input))
           ++ [CText (dom_block (domContext input)
                        ++ plugin_block (pluginSnippets input)
                        ++ text input)]
     ∧ buildPromptText input =
         dom_block (domContext input)
           ++ plugin_block (pluginSnippets input)
           ++ text input)
  ∧ (∀ empty_array : bool,
       content (wire_message (buildStreamJsonMessage
         {| text := JS.lit "hi"; domContext := None;
            screenshots := Some [JS.lit "AAA"; JS.lit "BBB"];
            pluginSnippets := if empty_array then Some [] else None |})) =
         [image (JS.lit "AAA"); image (JS.lit "BBB"); CText (JS.lit "hi")])
  ∧ content (wire_message (buildStreamJsonMessage
      {| text := JS.lit "hi"; domContext := Some (JS.lit "D");
         screenshots := None;
         pluginSnippets := Some [JS.lit "p"; JS.lit "q"] |})) =
      [CText (dom_heading ++ JS.lit "D" ++ [10; 10]
                ++ plugin_heading ++ JS.lit "p" ++ [10] ++ JS.lit "q"
                ++ [10; 10] ++ JS.lit "hi")].
Proof.
  split; [|split].
  - intros input. split; [done|]. split; [done|].
    rewrite <- buildPromptText_blocks.
    split; [apply buildStreamJsonMessage_content|done].
  - by intros [].
  - vm_compute. reflexivity.
Qed.

End PromptProperties.

(** ** The store *)
Module StoreFacts.
Import Types Contract ProcessManager Agent SessionSpec.

Lemma eqb_true (s t : jsstring) : JS.eqb s t = true ↔ s = t.
Proof. unfold JS.eqb. apply bool_decide_eq_true. Qed.

Lemma eqb_false (s t : jsstring) : JS.eqb s t = false ↔ s ≠ t.
Proof. unfold JS.eqb. apply bool_decide_eq_false. Qed.

Lemma eqb_refl (s : jsstring) : JS.eqb s s = true.
Proof. by apply eqb_true. Qed.

Lemma obj_get_replace {V} (o : list (jsstring * V)) k v v0 :
  obj_get o k = Some v0 → obj_get (obj_replace o k v) k = Some v.
Proof.
  induction o as [|[k' v'] o IH]; simpl; [done|].
  destruct (JS.eqb k' k) eqn:E; simpl; rewrite E; [done|apply IH].
Qed.

Lemma obj_get_replace_ne {V} (o : list (jsstring * V)) k k' v :
  k ≠ k' → obj_get (obj_replace o k v) k' = obj_get o k'.
Proof.
  intros Hne. induction o as [|[k0 v0] o IH]; simpl; [done|].
  destruct (JS.eqb k0 k) eqn:E; simpl.
  - apply eqb_true in E as ->. by rewrite (proj2 (eqb_false k k')).
  - by rewrite IH.
Qed.

Lemma obj_keys_replace {V} (o : list (jsstring * V)) k v :
  obj_keys (obj_replace o k v) = obj_keys o.
Proof.
  unfold obj_keys. induction o as [|[k' v'] o IH]; simpl; [done|].
  destruct (JS.eqb k' k); rewrite !fmap_cons; [done|]. by f_equal.
Qed.

Lemma obj_replace_replace {V} (o : list (jsstring * V)) k v v' :
  obj_replace (obj_replace o k v) k v' = obj_replace o k v'.
Proof.
  induction o as [|[k0 v0] o IH]; simpl; [done|].
  destruct (JS.eqb k0 k) eqn:E; simpl; rewrite E; [done|by rewrite IH].
Qed.

Lemma obj_get_app {V} (o1 o2 : list (jsstring * V)) k :
  obj_get (o1 ++ o2) k =
    match obj_get o1 k with Some v => Some v | None => obj_get o2 k end.
Proof.
  induction o1 as [|[k' v'] o1 IH]; simpl; [done|].
  by destruct (JS.eqb k' k).
Qed.

Lemma obj_get_insert_index {V} (o : list (jsstring * V)) n k v :
  obj_get o k = None → obj_get (obj_insert_index n k v o) k = Some v.
Proof.
  induction o as [|[k' v'] o IH]; simpl.
  - by rewrite eqb_refl.
  - destruct (JS.eqb k' k) eqn:E; [done|]. intros Hn.
    destruct (JS.array_index k') as [n'|]; [destruct (n' <? n)%N|]; simpl;
      rewrite ?E, ?eqb_refl; auto.
Qed.

Lemma obj_get_insert_index_ne {V} (o : list (jsstring * V)) n k k' v :
  k ≠ k' → obj_get (obj_insert_index n k v o) k' = obj_get o k'.
Proof.
  intros Hne. apply eqb_false in Hne.
  induction o as [|[k0 v0] o IH]; simpl.
  - by rewrite Hne.
  - destruct (JS.array_index k0) as [n'|]; [destruct (n' <? n)%N|]; simpl;
      rewrite ?Hne, ?IH; done.
Qed.

Lemma obj_replace_insert_index {V} (o : list (jsstring * V)) n k v v' :
  obj_get o k = None →
  obj_replace (obj_insert_index n k v o) k v' = obj_insert_index n k v' o.
Proof.
  induction o as [|[k0 v0] o IH]; simpl.
  - by rewrite eqb_refl.
  - destruct (JS.eqb k0 k) eqn:E; [done|]. intros Hn.
    destruct (JS.array_index k0) as [n'|]; [destruct (n' <? n)%N|]; simpl;
      rewrite ?E, ?eqb_refl, ?IH; done.
Qed.

Lemma obj_replace_snoc {V} (o : list (jsstring * V)) k v v' :
  obj_get o k = None →
  obj_replace (o ++ [(k, v)]) k v' = o ++ [(k, v')].
Proof.
  induction o as [|[k0 v0] o IH]; simpl.
  - by rewrite eqb_refl.
  - destruct (JS.eqb k0 k) eqn:E; [done|]. intros Hn. by rewrite IH.
Qed.

Lemma obj_set_nil {V} k (v : V) : obj_set [] k v = [(k, v)].
Proof. unfold obj_set. simpl. by destruct (JS.array_index k). Qed.

Lemma obj_get_set {V} (o : list (jsstring * V)) k v :
  obj_get (obj_set o k v) k = Some v.
Proof.
  unfold obj_set. destruct (obj_get o k) as [v0|] eqn:Hg.
  - by eapply obj_get_replace.
  - destruct (JS.array_index k) as [n|].
    + by apply obj_get_insert_index.
    + rewrite obj_get_app, Hg. simpl. by rewrite eqb_refl.
Qed.

Lemma obj_get_set_ne {V} (o : list (jsstring * V)) k k' v :
  k ≠ k' → obj_get (obj_set o k v) k' = obj_get o k'.
Proof.
  intros Hne. unfold obj_set. destruct (obj_get o k) as [v0|] eqn:Hg.
  - by apply obj_get_replace_ne.
  - destruct (JS.array_index k) as [n|].
    + by apply obj_get_insert_index_ne.
    + rewrite obj_get_app. simpl. rewrite (proj2 (eqb_false k k')) by done.
      by destruct (obj_get o k').
Qed.

Lemma obj_keys_set {V} (o : list (jsstring * V)) k v v0 :
  obj_get o k = Some v0 → obj_keys (obj_set o k v) = obj_keys o.
Proof.
  intros Hg. unfold obj_set. rewrite Hg. apply obj_keys_replace.
Qed.

Lemma obj_set_set {V} (o : list (jsstring * V)) k v v' :
  obj_set (obj_set o k v) k v' = obj_set o k v'.
Proof.
  unfold obj_set at 1. rewrite obj_get_set.
  unfold obj_set. destruct (obj_get o k) as [v0|] eqn:Hg.
  - apply obj_replace_replace.
  - destruct (JS.array_index k) as [n|].
    + by apply obj_replace_insert_index.
    + by apply obj_replace_snoc.
Qed.

Lemma join_empty (xs : list jsstring) : JS.join [] xs = concat xs.
Proof.
  induction xs as [|x [|y xs] IH]; [done|simpl; by rewrite app_nil_r|].
  change (JS.join [] (x :: y :: xs)) with (x ++ [] ++ JS.join [] (y :: xs)).
  by rewrite IH.
Qed.

(** The text that the handler computes is the concatenation of the
    text-typed fragments. *)
Lemma textContent_of_concatenated event :
  default [] (textContent_of event) = concatenated_text event.
Proof.
  unfold textContent_of, concatenated_text.
  destruct (message event) as [m|]; [|done].
  destruct (m_content m) as [content|]; [|done].
  simpl. by rewrite join_empty.
Qed.

End StoreFacts.

(** ** Assistant events *)
Module AssistantText.
Import Types Contract ProcessManager Agent SessionSpec StoreFacts Samples.

Section Placeholder.
Variables (chatId assistantMessageId : jsstring).
Variables (pre post : list ChatMessage) (placeholder : ChatMessage).
Hypothesis placeholder_id : id placeholder = assistantMessageId.
Hypothesis placeholder_first :
  Forall (λ m, id m ≠ assistantMessageId) pre.

#[local] Abbreviation thread := (SessionSpec.thread pre post placeholder).

Lemma find_placeholder ps :
  list_find (λ m, id m = assistantMessageId) (thread ps) =
    Some (length pre, set_parts ps placeholder).
Proof.
  unfold SessionSpec.thread. rewrite list_find_app_r.
  - simpl. rewrite decide_True by done. simpl. done.
  - by apply list_find_None.
Qed.

Lemma replace_text_thread (st : State) (chat : Chat) o t :
  obj_get (chats st) chatId = Some chat →
  messages chat = thread (streamed_parts o) →
  replace_text chatId assistantMessageId t st =
    Ok (set_chats
          (obj_set (chats st) chatId
             (set_messages (thread (streamed_parts (Some t))) chat)) st).
Proof.
  intros Hchat Hms. unfold replace_text, with_messages.
  rewrite Hchat, Hms, find_placeholder. do 3 f_equal.
  unfold SessionSpec.thread at 1. rewrite insert_app_r_alt by done.
  rewrite Nat.sub_diag. simpl. unfold SessionSpec.thread. do 2 f_equal.
  by destruct o.
Qed.

(** One assistant event on the placeholder: a non-empty text becomes
    the one text part, whether there was a text part or not; an empty
    text leaves the message as it is. *)
Lemma handleStreamEvent_assistant ag event o :
  is_assistant event →
  chat_messages ag chatId = Some (thread (streamed_parts o)) →
  ∃ ag',
    handleStreamEvent event chatId assistantMessageId ag = Ok (ag', [])
    ∧ chat_messages ag' chatId =
        Some (thread (streamed_parts
                (later o (if JS.truthy (concatenated_text event)
                          then Some (concatenated_text event)
                          else None))))
    ∧ active ag' = active ag ∧ working ag' = working ag
    ∧ chat_ids ag' = chat_ids ag
    ∧ currentProcess ag' = currentProcess ag.
Proof.
  intros Hty Hms. unfold chat_messages in Hms.
  destruct (karton ag) as [st|] eqn:Hk; [|done]. simpl in Hms.
  destruct (obj_get (chats st) chatId) as [chat|] eqn:Hchat; [|done].
  simpl in Hms. injection Hms as Hms.
  unfold handleStreamEvent. rewrite Hk, Hty, eqb_refl.
  rewrite <- textContent_of_concatenated.
  destruct (textContent_of event) as [t|]; simpl;
    [destruct (JS.truthy t) eqn:Ht|]; simpl.
  - unfold setState. rewrite Hk.
    rewrite (replace_text_thread st chat o t Hchat Hms).
    eexists. split; [done|].
    unfold chat_messages, active, working, chat_ids. simpl.
    rewrite obj_get_set. simpl.
    rewrite Hk. simpl. by rewrite (obj_keys_set _ _ _ _ Hchat).
  - exists ag. split; [done|]. destruct o; simpl;
      unfold chat_messages; rewrite Hk; simpl; rewrite Hchat; simpl;
      by rewrite Hms.
  - exists ag. split; [done|]. destruct o; simpl;
      unfold chat_messages; rewrite Hk; simpl; rewrite Hchat; simpl;
      by rewrite Hms.
Qed.

Lemma last_nonempty_text_cons event events :
  last_nonempty_text (event :: events) =
    later (if JS.truthy (concatenated_text event)
           then Some (concatenated_text event) else None)
          (last_nonempty_text events).
Proof.
  unfold last_nonempty_text. rewrite fmap_cons. simpl List.filter.
  destruct (JS.truthy (concatenated_text event));
    [rewrite last_cons|]; unfold later; by destruct (last _).
Qed.

Lemma handleStreamEvents_assistant events : ∀ ag o,
  Forall is_assistant events →
  chat_messages ag chatId = Some (thread (streamed_parts o)) →
  ∃ ag',
    handleStreamEvents events chatId assistantMessageId ag = Ok ag'
    ∧ chat_messages ag' chatId =
        Some (thread (streamed_parts
                        (later o (last_nonempty_text events))))
    ∧ active ag' = active ag ∧ working ag' = working ag
    ∧ chat_ids ag' = chat_ids ag
    ∧ currentProcess ag' = currentProcess ag.
Proof.
  induction events as [|event events IH]; intros ag o Hall Hms.
  - exists ag. by destruct o.
  - apply Forall_cons in Hall as [Hev Hall].
    destruct (handleStreamEvent_assistant ag event o Hev Hms)
      as (ag1 & Hstep & Hms1 & Ha & Hw & Hc & Hp).
    destruct (IH ag1 _ Hall Hms1) as (ag2 & Hrun & Hms2 & Ha2 & Hw2 & Hc2 & Hp2).
    exists ag2. simpl. rewrite Hstep. split; [done|].
    split; [|by rewrite Ha2, Hw2, Hc2, Hp2].
    rewrite Hms2, last_nonempty_text_cons. do 3 f_equal.
    destruct o, (last_nonempty_text events),
      (JS.truthy (concatenated_text event)); done.
Qed.
End Placeholder.

(** C1.  Assistant events handled one after the other on the placeholder
    of the turn, the first message of the chat that has the assistant
    message identifier and that starts without parts.  All events are
    handled, none throws, and afterwards the chat holds the same messages
    with, in the place of the placeholder, a message whose parts are
    exactly one text part, of type text and with the concatenation of the
    text-typed fragments of the last event for which that concatenation is
    not empty; the texts of the earlier events are gone.  If every
    concatenation is empty the message has no part.  A single event with a
    non-empty text, on a message that has one text part, replaces the text
    of that part and adds none.  The identifier, the role and the metadata
    of the message, every other message, and the rest of the store are as
    before. *)
Theorem assistant_text_replaced
  (chatId assistantMessageId : jsstring) (pre post : list ChatMessage)
  (placeholder : ChatMessage) (ag : Agent) (events : list StreamEvent) :
  id placeholder = assistantMessageId →
  parts placeholder = [] →
  Forall (λ m, id m ≠ assistantMessageId) pre →
  chat_messages ag chatId = Some (pre ++ placeholder :: post) →
  Forall is_assistant events →
  (∃ ag' m,
     handleStreamEvents events chatId assistantMessageId ag = Ok ag'
     ∧ chat_messages ag' chatId = Some (pre ++ m :: post)
     ∧ parts m =
         match last_nonempty_text events with
         | Some t =>
             [{| p_type := JS.lit "text"; p_text := Some t; p_data := None;
                 p_mimeType := None |}]
         | None => []
         end
     ∧ id m = id placeholder
     ∧ msg_role m = msg_role placeholder
     ∧ metadata m = metadata placeholder
     ∧ active ag' = active ag ∧ working ag' = working ag
     ∧ chat_ids ag' = chat_ids ag)
  ∧ (∀ event previous current ag1,
       is_assistant event →
       JS.truthy (concatenated_text event) = true →
       id current = assistantMessageId →
       parts current =
         [{| p_type := JS.lit "text"; p_text := Some previous;
             p_data := None; p_mimeType := None |}] →
       chat_messages ag1 chatId = Some (pre ++ current :: post) →
       ∃ ag2 m,
         handleStreamEvent event chatId assistantMessageId ag1 = Ok (ag2, [])
         ∧ chat_messages ag2 chatId = Some (pre ++ m :: post)
         ∧ parts m =
             [{| p_type := JS.lit "text";
                 p_text := Some (concatenated_text event);
                 p_data := None; p_mimeType := None |}]
         ∧ id m = id current
         ∧ msg_role m = msg_role current
         ∧ metadata m = metadata current).
Proof.
  intros Hid Hparts Hpre Hms Hall.
  split.
  - assert (placeholder = holding [] placeholder) as Hph.
    { destruct placeholder; simpl in *; by subst. }
    rewrite Hph in Hms.
    destruct (handleStreamEvents_assistant chatId assistantMessageId pre
                post placeholder Hid Hpre events ag None Hall Hms)
      as (ag' & Hrun & Hms' & Ha & Hw & Hc & _).
    exists ag', (holding (streamed_parts (last_nonempty_text events))
                         placeholder).
    split; [done|]. split.
    { rewrite Hms'. unfold thread, later.
      by destruct (last_nonempty_text events). }
    split; [by destruct (last_nonempty_text events)|done].
  - intros event previous current ag1 Hev Htext Hidc Hpartsc Hms1.
    assert (current = holding (streamed_parts (Some previous)) current)
      as Hcur.
    { destruct current; simpl in *; by subst. }
    rewrite Hcur in Hms1.
    destruct (handleStreamEvent_assistant chatId assistantMessageId pre
                post current Hidc Hpre ag1 event (Some previous) Hev Hms1)
      as (ag2 & Hstep & Hms2 & _).
    exists ag2, (holding (streamed_parts (Some (concatenated_text event)))
                         current).
    split; [done|]. split; [|done].
    rewrite Hms2, Htext. done.
Qed.

Lemma assistant_text_replaced_witness :
  ∃ ag' m,
    handleStreamEvents
      [assistant_event (JS.lit "Hel"); assistant_event (JS.lit "Hello")]
      (JS.lit "c1") (JS.lit "a1") streaming_agent = Ok ag'
    ∧ chat_messages ag' (JS.lit "c1") = Some [user_message; m]
    ∧ parts m =
        [{| p_type := JS.lit "text"; p_text := Some (JS.lit "Hello");
            p_data := None; p_mimeType := None |}]
    ∧ id m = JS.lit "a1".
Proof.
  destruct (assistant_text_replaced (JS.lit "c1") (JS.lit "a1")
              [user_message] [] sample_placeholder streaming_agent
              [assistant_event (JS.lit "Hel");
               assistant_event (JS.lit "Hello")])
    as [(ag' & m & Hrun & Hms & Hparts & Hid & _) _].
  - reflexivity.
  - reflexivity.
  - repeat constructor. vm_compute. discriminate.
  - vm_compute. reflexivity.
  - repeat constructor.
  - exists ag', m. split; [exact Hrun|]. split; [exact Hms|].
    split; [exact Hparts|exact Hid].
Defined.

End AssistantText.

(** ** Steps of a turn *)
Module TurnFacts.
Import Types Contract ProcessManager StreamParser Agent SessionSpec
  StoreFacts.

Lemma same_session_refl chatId ag : same_session chatId ag ag.
Proof. by repeat split. Qed.

Lemma same_session_trans chatId ag1 ag2 ag3 :
  same_session chatId ag1 ag2 → same_session chatId ag2 ag3 →
  same_session chatId ag1 ag3.
Proof.
  intros (Ha & Hw & Hc & Hp & Hm) (Ha' & Hw' & Hc' & Hp' & Hm').
  repeat split; try congruence.
  intros k Hk. by rewrite Hm', Hm.
Qed.

Lemma with_messages_frame chatId f st st' :
  with_messages chatId f st = Ok st' →
  activeChatId st' = activeChatId st
  ∧ isWorking st' = isWorking st
  ∧ obj_keys (chats st') = obj_keys (chats st)
  ∧ (∀ k, k ≠ chatId → obj_get (chats st') k = obj_get (chats st) k).
Proof.
  unfold with_messages.
  destruct (obj_get (chats st) chatId) as [chat|] eqn:Hchat; [|done].
  intros [= <-]. simpl. repeat split.
  - by rewrite (obj_keys_set _ _ _ _ Hchat).
  - intros k Hk. by apply obj_get_set_ne.
Qed.

Lemma setState_with_messages_frame chatId f ag ag' :
  setState (with_messages chatId f) ag = Ok ag' →
  same_session chatId ag ag' ∧ initialized ag'.
Proof.
  unfold setState. destruct (karton ag) as [st|] eqn:Hk; [|done].
  destruct (with_messages chatId f st) as [st'|] eqn:Hw; [|done].
  intros [= <-].
  destruct (with_messages_frame _ _ _ _ Hw) as (Ha & Hi & Hkeys & Hother).
  split; [|by eexists].
  unfold same_session, active, working, chat_ids, chat_messages.
  rewrite Hk. simpl. repeat split; try congruence.
  intros k Hne. by rewrite Hother.
Qed.

(** An event of the stream changes nothing but the chat of the turn. *)
Lemma handleStreamEvent_frame event chatId aid ag ag' eff :
  handleStreamEvent event chatId aid ag = Ok (ag', eff) →
  same_session chatId ag ag' ∧ (initialized ag → initialized ag').
Proof.
  unfold handleStreamEvent.
  destruct (karton ag) as [st|] eqn:Hk;
    [|intros [= <- <-]; split; [apply same_session_refl|done]].
  repeat case_match; intros [= <- <-];
    try (split; [apply same_session_refl|done]).
  match goal with
  | H : setState _ _ = Ok _ |- _ =>
      apply setState_with_messages_frame in H as [? ?]
  end.
  done.
Qed.

Lemma consume_frame chatId aid outs : ∀ ag ag' eff threw,
  consume chatId aid outs ag = (ag', eff, threw) →
  same_session chatId ag ag' ∧ (initialized ag → initialized ag').
Proof.
  induction outs as [|[event|line] outs IH]; intros ag ag' eff threw; simpl.
  - intros [= <- <- <-]. split; [apply same_session_refl|done].
  - destruct (handleStreamEvent event chatId aid ag) as [[ag1 eff1]|] eqn:Hev.
    + destruct (consume chatId aid outs ag1) as [[ag2 eff2] threw2] eqn:Hrest.
      intros [= <- <- <-].
      apply handleStreamEvent_frame in Hev as [Hs1 Hi1].
      apply IH in Hrest as [Hs2 Hi2].
      split; [by eapply same_session_trans|tauto].
    + intros [= <- <- <-]. split; [apply same_session_refl|done].
  - destruct (consume chatId aid outs ag) as [[ag2 eff2] threw2] eqn:Hrest.
    intros [= <- <- <-]. by apply IH in Hrest.
Qed.

(** Step 7 clears the flag and the handle, and nothing else. *)
Lemma complete_spec ag :
  initialized ag →
  working (complete ag) = Some false
  ∧ currentProcess (complete ag) = None
  ∧ active (complete ag) = active ag
  ∧ chat_ids (complete ag) = chat_ids ag
  ∧ (∀ k, chat_messages (complete ag) k = chat_messages ag k)
  ∧ initialized (complete ag).
Proof.
  intros [st Hk]. unfold complete, setState. simpl. rewrite Hk. simpl.
  unfold working, active, chat_ids, chat_messages, initialized.
  simpl. rewrite Hk. repeat split; eauto.
Qed.

Lemma abort_spec ag :
  currentProcess (abort ag).1 = None
  ∧ (abort ag).2 =
      match currentProcess ag with Some h => [Kill (pid h)] | None => [] end
  ∧ (initialized ag → working (abort ag).1 = Some false)
  ∧ active (abort ag).1 = active ag
  ∧ chat_ids (abort ag).1 = chat_ids ag
  ∧ (∀ k, chat_messages (abort ag).1 k = chat_messages ag k)
  ∧ (initialized ag → initialized (abort ag).1)
  ∧ abort (abort ag).1 = ((abort ag).1, []).
Proof.
  unfold abort, setState_opt, working, active, chat_ids, chat_messages,
    initialized.
  destruct ag as [[st|] cfg [h|]]; simpl; repeat split; eauto;
    intros [? ?]; done.
Qed.

Lemma createAndActivateNewChat_spec fresh ag ag' chatId :
  createAndActivateNewChat fresh ag = Ok (ag', chatId) →
  chatId = new_id fresh
  ∧ active ag' = Some (new_id fresh)
  ∧ working ag' = working ag
  ∧ currentProcess ag' = currentProcess ag
  ∧ initialized ag'.
Proof.
  unfold createAndActivateNewChat, setState.
  destruct (karton ag) as [st|] eqn:Hk; [|done].
  intros [= <- <-]. unfold active, working, initialized. simpl.
  rewrite Hk. repeat split; eauto.
Qed.

Lemma switchChat_spec chatId ag :
  working (switchChat chatId ag) = working ag
  ∧ currentProcess (switchChat chatId ag) = currentProcess ag
  ∧ (initialized ag → initialized (switchChat chatId ag)).
Proof.
  unfold switchChat, setState_opt, working, initialized.
  destruct (karton ag) as [st|] eqn:Hk; simpl; rewrite ?Hk; eauto.
Qed.

Lemma setState_opt_frame f ag :
  (∀ st, isWorking (f st) = isWorking st) →
  working (setState_opt f ag) = working ag
  ∧ currentProcess (setState_opt f ag) = currentProcess ag
  ∧ (initialized ag → initialized (setState_opt f ag)).
Proof.
  intros Hf. unfold setState_opt, working, initialized.
  destruct (karton ag) as [st|] eqn:Hk; simpl; rewrite ?Hk; simpl;
    rewrite ?Hf; eauto.
Qed.

Lemma deleteChat_spec chatId fresh ag ag' :
  deleteChat chatId fresh ag = Ok ag' →
  working ag' = working ag
  ∧ currentProcess ag' = currentProcess ag
  ∧ initialized ag'.
Proof.
  unfold deleteChat. destruct (karton ag) as [st|] eqn:Hk; [|done].
  assert (initialized ag) as Hi by (by eexists).
  match goal with
  | |- match ?p with _ => _ end = _ → _ =>
      destruct p as [ag1|] eqn:Hp; [|done]
  end.
  intros [= <-].
  assert (working ag1 = working ag ∧ currentProcess ag1 = currentProcess ag
          ∧ initialized ag1) as (Hw & Hc & Hi1).
  { case_bool_decide; [|by injection Hp as <-].
    destruct (negb _).
    - destruct (createAndActivateNewChat fresh ag) as [[ag2 c]|] eqn:Hc;
        [|done].
      injection Hp as <-.
      by apply createAndActivateNewChat_spec in Hc as (_ & _ & ? & ? & ?).
    - injection Hp as <-.
      edestruct setState_opt_frame as (? & ? & ?); [|eauto]. done. }
  destruct (setState_opt_frame
              (λ draft, set_chats (obj_delete (chats draft) chatId) draft)
              ag1) as (Hw' & Hp' & Hi'); [done|].
  rewrite Hw', Hp', Hw, Hc. auto.
Qed.

Ltac close_step :=
  repeat split; auto; try done; try (intros [?|?]; done);
  try (intros; congruence).

Section Steps.
Variable JSON_parse : jsstring → option StreamEvent.

(** The loop on the outputs of one read. *)
Lemma advance_spec t outs buffer last ag ag' t' eff :
  advance t outs buffer last ag = (ag', t', eff) →
  initialized ag →
  turn_reading t = true →
  initialized ag'
  ∧ turn_process t' = turn_process t
  ∧ turn_chatId t' = turn_chatId t
  ∧ (last = true → turn_reading t' = false)
  ∧ (turn_reading t' = false → working ag' = Some false)
  ∧ (turn_reading t' = true → working ag' = working ag)
  ∧ (working ag = Some false → working ag' = Some false)
  ∧ active ag' = active ag
  ∧ chat_ids ag' = chat_ids ag
  ∧ (∀ k, k ≠ turn_chatId t → chat_messages ag' k = chat_messages ag k)
  ∧ (currentProcess ag = None → currentProcess ag' = None).
Proof.
  unfold advance. intros Hadv Hi Hr.
  destruct (consume (turn_chatId t) (turn_assistantMessageId t) outs ag)
    as [[ag1 eff1] threw] eqn:Hc.
  apply consume_frame in Hc as [(Ha & Hw & Hids & Hp & Hm) Hi1].
  specialize (Hi1 Hi).
  destruct (complete_spec ag1 Hi1) as (Cw & Cp & Ca & Cids & Cm & Ci).
  destruct threw; [|destruct last]; injection Hadv as <- <- <-; simpl;
    repeat split; try done; try congruence.
  all: try (intros k Hk; rewrite Cm; by apply Hm).
  all: try (intros ?; congruence).
Qed.

Lemma step_spec ag t i ag' t' eff :
  step JSON_parse (ag, t) i = (ag', t', eff) →
  initialized ag →
  initialized ag'
  ∧ turn_process t' = turn_process t
  ∧ turn_chatId t' = turn_chatId t
  ∧ (turn_reading t = false → turn_reading t' = false)
  ∧ (turn_reading t = true → turn_reading t' = false →
     working ag' = Some false)
  ∧ (working ag = Some false → working ag' = Some false)
  ∧ (i = CallAbort → working ag' = Some false)
  ∧ (i = StdoutEnd ∨ i = StdoutError → turn_reading t' = false)
  ∧ (exit_callback (turn_process t) = None → i ≠ CallAbort →
     turn_reading t' = true → working ag' = working ag).
Proof.
  intros Hstep Hi. destruct i; simpl in Hstep.
  - (* a chunk *)
    destruct (turn_reading t) eqn:Hr.
    + destruct (on_chunk JSON_parse (turn_buffer t) chunk) as [outs b].
      apply advance_spec in Hstep
        as (? & ? & ? & ? & ? & ? & ? & _); [|done..].
      close_step.
    + injection Hstep as <- <- <-. close_step.
  - (* the end of the output *)
    destruct (turn_reading t) eqn:Hr.
    + apply advance_spec in Hstep
        as (? & ? & ? & ? & ? & ? & ? & _); [|done..].
      close_step.
    + injection Hstep as <- <- <-. close_step.
  - (* a failure of the output *)
    destruct (complete_spec ag Hi) as (Cw & Cp & Ca & Cids & Cm & Ci).
    destruct (turn_reading t) eqn:Hr; injection Hstep as <- <- <-;
      simpl; close_step.
  - (* the exit of the subprocess *)
    injection Hstep as <- <- <-. unfold on_exit_event.
    destruct (exit_callback (turn_process t)) as [[]|]; simpl;
      repeat split; auto; try done.
    all: try (intros [?|?]; done).
    all: unfold setState_opt, working, initialized in *;
      destruct (karton ag) as [st|]; simpl; try done; eauto.
    all: try (intros; congruence).
    all: try by destruct Hi.
  - (* abort *)
    destruct (abort ag) as [ag1 eff1] eqn:Hab.
    injection Hstep as <- <- <-.
    destruct (abort_spec ag) as (_ & _ & Hw & _ & _ & _ & Hi1 & _).
    rewrite Hab in Hw, Hi1. simpl in Hw, Hi1.
    close_step.
  - (* a new chat *)
    destruct (createAndActivateNewChat fresh ag) as [[ag1 c]|] eqn:Hc;
      injection Hstep as <- <- <-.
    + apply createAndActivateNewChat_spec in Hc as (_ & _ & Hw & _ & Hi1).
      rewrite Hw. close_step.
    + close_step.
  - (* another active chat *)
    injection Hstep as <- <- <-.
    destruct (switchChat_spec chatId ag) as (Hw & _ & Hi1).
    rewrite Hw. close_step.
  - (* a chat deleted *)
    destruct (deleteChat chatId fresh ag) as [ag1|] eqn:Hd;
      injection Hstep as <- <- <-.
    + apply deleteChat_spec in Hd as (Hw & _ & Hi1).
      rewrite Hw. close_step.
    + close_step.
Qed.
End Steps.

End TurnFacts.

(** ** The working flag over a turn *)
Module TurnProperties.
Import Types Contract ProcessManager StreamParser Agent SessionSpec
  StoreFacts TurnFacts Samples.

Section Turn.
Variable JSON_parse : jsstring → option StreamEvent.
Variable JSON_stringify : list (jsstring * jsstring) → jsstring.

(** The synchronous part of [handleUserMessage] when the active chat
    exists and [spawn] returns a child. *)
Lemma handleUserMessage_start_reading message p fresh ag st chatId chat :
  karton ag = Some st →
  activeChatId st = Some chatId →
  JS.truthy chatId = true →
  obj_get (chats st) chatId = Some chat →
  ∃ ag1 eff t,
    handleUserMessage_start JSON_stringify message (Spawned p) fresh ag =
      (ag1, eff, Reading t)
    ∧ working ag1 = Some true
    ∧ initialized ag1
    ∧ turn_reading t = true
    ∧ turn_chatId t = chatId
    ∧ turn_assistantMessageId t = new_id fresh
    ∧ exit_callback (turn_process t) = None
    ∧ currentProcess ag1 = Some (turn_process t)
    ∧ active ag1 = Some chatId
    ∧ ∃ placeholder,
        id placeholder = new_id fresh ∧ parts placeholder = []
        ∧ chat_messages ag1 chatId =
            Some ((messages chat ++ [message]) ++ [placeholder]).
Proof.
  intros Hk Ha Ht Hchat. unfold handleUserMessage_start.
  rewrite Hk, Ha, Ht. simpl.
  destruct ag as [k cfg cp]. simpl in Hk. subst k.
  unfold setState, with_messages. simpl. rewrite Hchat. simpl.
  rewrite obj_get_set. simpl.
  do 3 eexists. split; [reflexivity|].
  unfold working, initialized, active, chat_messages. simpl.
  rewrite obj_get_set. simpl. rewrite obj_set_set.
  repeat split; eauto. eexists. repeat split; reflexivity.
Qed.

Lemma run_cons s i inputs :
  run JSON_parse s (i :: inputs) =
    let '(s1, eff1) := step JSON_parse s i in
    let '(s2, eff2) := run JSON_parse s1 inputs in
    (s2, eff1 ++ eff2).
Proof. reflexivity. Qed.

Lemma run_app s inputs1 inputs2 :
  run JSON_parse s (inputs1 ++ inputs2) =
    let '(s1, eff1) := run JSON_parse s inputs1 in
    let '(s2, eff2) := run JSON_parse s1 inputs2 in
    (s2, eff1 ++ eff2).
Proof.
  revert s. induction inputs1 as [|i inputs1 IH]; intros s.
  - simpl. by destruct (run JSON_parse s inputs2).
  - rewrite <- app_comm_cons, !run_cons.
    destruct (step JSON_parse s i) as [s1 eff1].
    rewrite IH. destruct (run JSON_parse s1 inputs1) as [s2 eff2].
    destruct (run JSON_parse s2 inputs2) as [s3 eff3].
    by rewrite (assoc_L (++)).
Qed.

(** The flag along a run of a turn whose exit observer has no
    callback. *)
Lemma run_working inputs : ∀ ag t ag2 t2 eff,
  run JSON_parse (ag, t) inputs = (ag2, t2, eff) →
  initialized ag →
  exit_callback (turn_process t) = None →
  (turn_reading t = false → working ag = Some false) →
  initialized ag2
  ∧ (turn_reading t2 = false → working ag2 = Some false)
  ∧ (CallAbort ∈ inputs → working ag2 = Some false)
  ∧ (CallAbort ∉ inputs → turn_reading t2 = true →
     working ag2 = working ag)
  ∧ (working ag = Some false → working ag2 = Some false).
Proof.
  induction inputs as [|i inputs IH]; intros ag t ag2 t2 eff Hrun Hi Hcb Hidle.
  - simpl in Hrun. injection Hrun as <- <- <-. repeat split; auto.
    intros []%not_elem_of_nil.
  - rewrite run_cons in Hrun.
    destruct (step JSON_parse (ag, t) i) as [[ag1 t1] eff1] eqn:Hstep.
    destruct (run JSON_parse (ag1, t1) inputs) as [[ag' t'] eff'] eqn:Hrest.
    injection Hrun as <- <- <-.
    destruct (step_spec JSON_parse _ _ _ _ _ _ Hstep Hi)
      as (Hi1 & Hp1 & _ & Hmono & Hterm & Hkeep & Habort & _ & Hbusy).
    assert (turn_reading t1 = false → working ag1 = Some false) as Hidle1.
    { intros Hr1. destruct (turn_reading t) eqn:Hr; auto. }
    destruct (IH _ _ _ _ _ Hrest Hi1 ltac:(by rewrite Hp1) Hidle1)
      as (Hi2 & Hdone & Hab & Hbusy2 & Hkeep2).
    repeat split; auto.
    + intros [<-|Hin]%elem_of_cons; auto.
    + intros Hnin Hr2.
      apply not_elem_of_cons in Hnin as [Hne Hnin].
      rewrite (Hbusy2 Hnin Hr2). apply Hbusy; auto.
      destruct (turn_reading t1) eqn:Hr1; [done|].
      assert (turn_reading t' = false) as Hf; [|congruence].
      clear -Hrest Hr1.
      revert ag1 t1 ag' t' eff' Hrest Hr1.
      induction inputs as [|j inputs IHi]; intros ag1 t1 ag' t' eff' Hrest Hr1.
      * simpl in Hrest. by injection Hrest as <- <- <-.
      * rewrite run_cons in Hrest.
        destruct (step JSON_parse (ag1, t1) j) as [[ag3 t3] eff3] eqn:Hs.
        destruct (run JSON_parse (ag3, t3) inputs) as [[ag4 t4] eff4] eqn:Hr.
        injection Hrest as <- <- <-.
        eapply IHi; [exact Hr|].
        destruct j; simpl in Hs; rewrite ?Hr1 in Hs;
          repeat case_match; by simplify_eq.
Qed.

(** The flag over a turn whose subprocess is spawned.  A user message
    is submitted to an instance whose active chat exists.  When the synchronous
    part of the operation is over the flag is true.  From there, for
    every sequence of chunks, calls and exits that follows: once the
    read loop is over, by the end of the output, by a failure of the
    output or by an exception of the event handler, the flag is false;
    once abort was called the flag is false; and while the loop reads
    and abort was not called the flag is true.  The end and the failure
    of the output always end the loop. *)
Theorem working_flag_over_turn message p fresh ag st chatId chat :
  karton ag = Some st →
  activeChatId st = Some chatId →
  JS.truthy chatId = true →
  obj_get (chats st) chatId = Some chat →
  ∃ ag1 eff t,
    handleUserMessage_start JSON_stringify message (Spawned p) fresh ag =
      (ag1, eff, Reading t)
    ∧ working ag1 = Some true
    ∧ turn_reading t = true
    ∧ (∀ inputs ag2 t2 eff2,
         run JSON_parse (ag1, t) inputs = (ag2, t2, eff2) →
         (turn_reading t2 = false → working ag2 = Some false)
         ∧ (CallAbort ∈ inputs → working ag2 = Some false)
         ∧ (CallAbort ∉ inputs → turn_reading t2 = true →
            working ag2 = Some true))
    ∧ (∀ inputs final ag2 t2 eff2,
         final = StdoutEnd ∨ final = StdoutError →
         run JSON_parse (ag1, t) (inputs ++ [final]) = (ag2, t2, eff2) →
         turn_reading t2 = false ∧ working ag2 = Some false).
Proof.
  intros Hk Ha Ht Hchat.
  destruct (handleUserMessage_start_reading message p fresh ag st chatId
              chat Hk Ha Ht Hchat)
    as (ag1 & eff & t & Hstart & Hw & Hi & Hr & _ & _ & Hcb & _).
  exists ag1, eff, t. split; [done|]. split; [done|]. split; [done|].
  assert (∀ inputs ag2 t2 eff2,
            run JSON_parse (ag1, t) inputs = (ag2, t2, eff2) →
            initialized ag2
            ∧ turn_process t2 = turn_process t
            ∧ (turn_reading t2 = false → working ag2 = Some false)
            ∧ (CallAbort ∈ inputs → working ag2 = Some false)
            ∧ (CallAbort ∉ inputs → turn_reading t2 = true →
               working ag2 = Some true)) as Hruns.
  { intros inputs ag2 t2 eff2 Hrun.
    destruct (run_working inputs _ _ _ _ _ Hrun Hi Hcb)
      as (Hi2 & Hdone & Hab & Hbusy & _); [congruence|].
    repeat split; auto.
    - clear -Hrun. revert ag1 t ag2 t2 eff2 Hrun.
      induction inputs as [|i inputs IH]; intros ag1 t ag2 t2 eff2 Hrun.
      + simpl in Hrun. by injection Hrun as <- <- <-.
      + rewrite run_cons in Hrun.
        destruct (step JSON_parse (ag1, t) i) as [[ag3 t3] eff3] eqn:Hs.
        destruct (run JSON_parse (ag3, t3) inputs) as [[ag4 t4] eff4] eqn:Hr.
        injection Hrun as <- <- <-.
        rewrite (IH _ _ _ _ _ Hr).
        destruct i; simpl in Hs; repeat case_match; simplify_eq; try done.
        all: unfold advance in *; repeat case_match; by simplify_eq.
    - intros ? ?. rewrite <- Hw. auto. }
  split.
  - intros inputs ag2 t2 eff2 Hrun.
    by destruct (Hruns _ _ _ _ Hrun) as (_ & _ & ? & ? & ?).
  - intros inputs final ag2 t2 eff2 Hfinal Hrun.
    rewrite run_app in Hrun.
    destruct (run JSON_parse (ag1, t) inputs) as [[ag3 t3] eff3] eqn:Hfirst.
    rewrite run_cons in Hrun.
    destruct (step JSON_parse (ag3, t3) final) as [[ag4 t4] eff4] eqn:Hs.
    injection Hrun as <- <- <-.
    destruct (Hruns _ _ _ _ Hfirst) as (Hi3 & _ & Hdone3 & _).
    destruct (step_spec JSON_parse _ _ _ _ _ _ Hs Hi3)
      as (_ & _ & _ & _ & Hterm & Hkeep & _ & Hend & _).
    split; [by apply Hend|].
    destruct (turn_reading t3) eqn:Hr3; auto.
Qed.
End Turn.

Lemma working_flag_over_turn_witness :
  ∃ ag1 eff t,
    handleUserMessage_start no_stringify user_message (Spawned 7) fresh1
      ready_agent = (ag1, eff, Reading t)
    ∧ working ag1 = Some true
    ∧ turn_reading t = true
    ∧ (∀ inputs ag2 t2 eff2,
         run parse_assistant_record (ag1, t) inputs = (ag2, t2, eff2) →
         (turn_reading t2 = false → working ag2 = Some false)
         ∧ (CallAbort ∈ inputs → working ag2 = Some false)
         ∧ (CallAbort ∉ inputs → turn_reading t2 = true →
            working ag2 = Some true))
    ∧ (∀ inputs final ag2 t2 eff2,
         final = StdoutEnd ∨ final = StdoutError →
         run parse_assistant_record (ag1, t) (inputs ++ [final]) =
           (ag2, t2, eff2) →
         turn_reading t2 = false ∧ working ag2 = Some false).
Proof.
  apply (working_flag_over_turn parse_assistant_record no_stringify
           user_message 7 fresh1 ready_agent
           {| activeChatId := Some (JS.lit "c1");
              chats := [(JS.lit "c1", empty_chat 0)];
              isWorking := false |}
           (JS.lit "c1") (empty_chat 0)); reflexivity.
Defined.

End TurnProperties.

(** ** Abort and the events that follow it *)
Module AbortProperties.
Import Types Contract ProcessManager StreamParser Agent SessionSpec
  StoreFacts TurnFacts Samples.

(** The turn that the samples start. *)
Lemma started_eq :
  started =
    (streaming_agent,
     [Spawn sample_handle;
      StdinWrite 7
        {| wire_type := JS.lit "user";
           wire_message :=
             {| role := JS.lit "user";
                content := [CText (JS.lit "hi")] |} |};
      StdinEnd 7],
     Reading streaming_turn).
Proof. vm_compute. reflexivity. Qed.

(** C4, as stated, fails.  A turn is reading; abort is called, which
    clears the handle and the flag; then a chunk that was on its way
    arrives.  The loop is still reading, and the assistant event of the
    chunk rewrites the placeholder of the chat. *)
Lemma event_after_abort_mutates_chat :
  let '(ag2, t2, eff2) :=
    step parse_assistant_record (streaming_agent, streaming_turn) CallAbort in
  let '(ag3, t3, eff3) :=
    step parse_assistant_record (ag2, t2) (StdoutData late_chunk) in
  eff2 = [Kill 7]
  ∧ currentProcess ag2 = None
  ∧ working ag2 = Some false
  ∧ turn_reading t2 = true
  ∧ chat_messages ag2 (JS.lit "c1") = Some [user_message; sample_placeholder]
  ∧ chat_messages ag3 (JS.lit "c1") =
      Some [user_message;
            {| id := JS.lit "a1"; msg_role := JS.lit "assistant";
               parts := [{| p_type := JS.lit "text";
                            p_text := Some (JS.lit "late");
                            p_data := None; p_mimeType := None |}];
               metadata := metadata sample_placeholder |}]
  ∧ chat_messages ag3 (JS.lit "c1") ≠ chat_messages ag2 (JS.lit "c1").
Proof. vm_compute. repeat split; try reflexivity. discriminate. Qed.

(** The first element of a list that has a property is at one place. *)
Lemma first_split_unique {A} (P : A → Prop) (a a' : list A) x x' b b' :
  a ++ x :: b = a' ++ x' :: b' →
  Forall (λ y, ¬ P y) a → P x → Forall (λ y, ¬ P y) a' → P x' →
  a = a' ∧ x = x' ∧ b = b'.
Proof.
  revert a'. induction a as [|y a IH]; intros [|y' a'] Heq Ha Hx Ha' Hx';
    simpl in Heq.
  - by injection Heq as -> ->.
  - injection Heq as -> _. by apply Forall_cons in Ha' as [? _].
  - injection Heq as -> _. by apply Forall_cons in Ha as [? _].
  - injection Heq as -> Heq.
    apply Forall_cons in Ha as [_ Ha]. apply Forall_cons in Ha' as [_ Ha'].
    destruct (IH _ Heq Ha Hx Ha' Hx') as (-> & -> & ->). done.
Qed.

Lemma list_find_split {A} (P : A → Prop) `{∀ x, Decision (P x)}
  (l : list A) i x :
  list_find P l = Some (i, x) →
  l = take i l ++ x :: drop (S i) l
  ∧ Forall (λ y, ¬ P y) (take i l) ∧ P x
  ∧ ∀ y, <[i := y]> l = take i l ++ y :: drop (S i) l.
Proof.
  intros (Hl & HP & Hbefore)%list_find_Some.
  split; [by rewrite take_drop_middle|]. split; [|split; [done|]].
  - apply Forall_lookup. intros j y Hj.
    apply lookup_take_Some in Hj as [Hj Hlt]. by eapply Hbefore.
  - intros y. apply insert_take_drop. by eapply lookup_lt_Some.
Qed.

Lemma text_written_trans ps1 ps2 ps3 :
  text_written ps1 ps2 → text_written ps2 ps3 → text_written ps1 ps3.
Proof.
  intros [(a & p & b & t & -> & Ha & Hp & ->)|(t & Hno & ->)]
         [(a' & p' & b' & t' & Heq & Ha' & Hp' & ->)|(t' & Hno' & ->)].
  - apply (first_split_unique (λ q, p_type q = JS.lit "text")) in Heq
      as (<- & <- & <-); [|done..].
    left. by exists a, p, b, t'.
  - apply Forall_app in Hno' as [_ Hno'].
    by apply Forall_cons in Hno' as [? _].
  - replace (ps1 ++ [text_part t]) with (ps1 ++ text_part t :: [])
      in Heq by done.
    apply (first_split_unique (λ q, p_type q = JS.lit "text")) in Heq
      as (<- & <- & <-); [|done..].
    right. by exists t'.
  - apply Forall_app in Hno' as [_ Hno'].
    by apply Forall_cons in Hno' as [? _].
Qed.

Lemma placeholder_written_trans aid ms1 ms2 ms3 :
  placeholder_written aid ms1 ms2 → placeholder_written aid ms2 ms3 →
  placeholder_written aid ms1 ms3.
Proof.
  intros [->|(pre & m & post & ps & -> & Hpre & Hm & Hps & ->)]; [done|].
  intros [->|(pre' & m' & post' & ps' & Heq & Hpre' & Hm' & Hps' & ->)].
  - right. by exists pre, m, post, ps.
  - apply (first_split_unique (λ x, id x = aid)) in Heq
      as (<- & <- & <-); [|done..].
    right. exists pre, m, post, ps'. repeat split; try done.
    by eapply text_written_trans.
Qed.

(** The callback of the handler on the messages of a chat. *)
Lemma replace_text_written chatId aid t st st' ms :
  replace_text chatId aid t st = Ok st' →
  (messages <$> obj_get (chats st) chatId) = Some ms →
  ∃ ms',
    (messages <$> obj_get (chats st') chatId) = Some ms'
    ∧ placeholder_written aid ms ms'.
Proof.
  unfold replace_text, with_messages.
  destruct (obj_get (chats st) chatId) as [chat|] eqn:Hchat; [|done].
  intros [= <-] [= <-]. simpl. rewrite obj_get_set. simpl.
  eexists. split; [reflexivity|].
  destruct (list_find _ (messages chat)) as [[i m]|] eqn:Hfind; [|by left].
  apply list_find_split in Hfind as (Hms & Hpre & Hm & Hins).
  right. exists (take i (messages chat)), m, (drop (S i) (messages chat)).
  eexists. split; [done|]. split; [done|]. split; [done|].
  split; [|by rewrite Hins].
  destruct (list_find _ (parts m)) as [[j p]|] eqn:Hpart.
  - apply list_find_split in Hpart as (Hps & Hbefore & Hp & Hinsp).
    left. exists (take j (parts m)), p, (drop (S j) (parts m)), t.
    split; [done|]. split; [done|]. split; [done|]. by rewrite Hinsp.
  - right. exists t. split; [|done].
    by apply list_find_None in Hpart.
Qed.

Lemma handleStreamEvent_written event chatId aid ag ag' eff :
  handleStreamEvent event chatId aid ag = Ok (ag', eff) →
  (∀ ms, chat_messages ag chatId = Some ms →
         ∃ ms', chat_messages ag' chatId = Some ms'
                ∧ placeholder_written aid ms ms')
  ∧ (chat_messages ag chatId = None → chat_messages ag' chatId = None).
Proof.
  unfold handleStreamEvent.
  assert (∀ ms, chat_messages ag chatId = Some ms →
                ∃ ms', chat_messages ag chatId = Some ms'
                       ∧ placeholder_written aid ms ms') as Hsame.
  { intros ms Hms. exists ms. split; [done|by left]. }
  destruct (karton ag) as [st|] eqn:Hk; [|by intros [= <- <-]].
  repeat case_match; intros [= <- <-]; try done.
  match goal with
  | H : setState _ _ = Ok _ |- _ => rename H into Hset
  end.
  unfold setState in Hset. rewrite Hk in Hset.
  destruct (replace_text _ _ _ st) as [st'|] eqn:Hrep; [|done].
  injection Hset as <-. unfold chat_messages. simpl. rewrite Hk. simpl.
  split.
  - intros ms Hms.
    destruct (replace_text_written _ _ _ _ _ ms Hrep) as (ms' & Hms' & Hw).
    { by destruct (obj_get (chats st) chatId). }
    exists ms'. split; [|done]. by destruct (obj_get (chats st') chatId).
  - intros Hnone. unfold replace_text, with_messages in Hrep.
    by destruct (obj_get (chats st) chatId).
Qed.

Lemma consume_written chatId aid outs : ∀ ag ag' eff threw,
  consume chatId aid outs ag = (ag', eff, threw) →
  (∀ ms, chat_messages ag chatId = Some ms →
         ∃ ms', chat_messages ag' chatId = Some ms'
                ∧ placeholder_written aid ms ms')
  ∧ (chat_messages ag chatId = None → chat_messages ag' chatId = None).
Proof.
  induction outs as [|[event|line] outs IH]; intros ag ag' eff threw; simpl.
  - intros [= <- <- <-]. split; [|done].
    intros ms Hms. exists ms. split; [done|by left].
  - destruct (handleStreamEvent event chatId aid ag) as [[ag1 eff1]|] eqn:Hev.
    + destruct (consume chatId aid outs ag1) as [[ag2 eff2] threw2] eqn:Hrest.
      intros [= <- <- <-].
      apply handleStreamEvent_written in Hev as [Hev Hnone].
      apply IH in Hrest as [Hrest Hnone'].
      split; [|auto].
      intros ms Hms. destruct (Hev ms Hms) as (ms1 & Hms1 & Hw1).
      destruct (Hrest ms1 Hms1) as (ms2 & Hms2 & Hw2).
      exists ms2. split; [done|]. by eapply placeholder_written_trans.
    + intros [= <- <- <-]. split; [|done].
      intros ms Hms. exists ms. split; [done|by left].
  - destruct (consume chatId aid outs ag) as [[ag2 eff2] threw2] eqn:Hrest.
    intros [= <- <- <-]. by apply IH in Hrest.
Qed.

Section Steps.
Variable JSON_parse : jsstring → option StreamEvent.

Lemma advance_written t outs buffer last ag ag' t' eff :
  advance t outs buffer last ag = (ag', t', eff) →
  initialized ag →
  (∀ ms, chat_messages ag (turn_chatId t) = Some ms →
         ∃ ms', chat_messages ag' (turn_chatId t) = Some ms'
                ∧ placeholder_written (turn_assistantMessageId t) ms ms')
  ∧ (chat_messages ag (turn_chatId t) = None →
     chat_messages ag' (turn_chatId t) = None).
Proof.
  unfold advance. intros Hadv Hi.
  destruct (consume (turn_chatId t) (turn_assistantMessageId t) outs ag)
    as [[ag1 eff1] threw] eqn:Hc.
  pose proof Hc as Hf. apply consume_frame in Hf as [_ Hi1].
  apply consume_written in Hc as [Hw Hnone].
  destruct (complete_spec ag1 (Hi1 Hi)) as (_ & _ & _ & _ & Cm & _).
  destruct threw; [|destruct last]; injection Hadv as <- <- <-;
    rewrite ?Cm; done.
Qed.

Lemma stdout_step_written ag t i ag' t' eff :
  from_stdout i →
  initialized ag →
  step JSON_parse (ag, t) i = (ag', t', eff) →
  (∀ ms, chat_messages ag (turn_chatId t) = Some ms →
         ∃ ms', chat_messages ag' (turn_chatId t) = Some ms'
                ∧ placeholder_written (turn_assistantMessageId t) ms ms')
  ∧ (chat_messages ag (turn_chatId t) = None →
     chat_messages ag' (turn_chatId t) = None).
Proof.
  assert (∀ ms, chat_messages ag (turn_chatId t) = Some ms →
                ∃ ms', chat_messages ag (turn_chatId t) = Some ms'
                       ∧ placeholder_written (turn_assistantMessageId t)
                                             ms ms') as Hsame.
  { intros ms Hms. exists ms. split; [done|by left]. }
  intros Hi Hinit Hstep. destruct i; try done; simpl in Hstep.
  - destruct (turn_reading t) eqn:Hr.
    + destruct (on_chunk JSON_parse (turn_buffer t) chunk) as [outs b].
      by eapply advance_written.
    + by injection Hstep as <- <- <-.
  - destruct (turn_reading t) eqn:Hr.
    + by eapply advance_written.
    + by injection Hstep as <- <- <-.
  - destruct (complete_spec ag Hinit) as (_ & _ & _ & _ & Cm & _).
    destruct (turn_reading t); injection Hstep as <- <- <-;
      rewrite ?Cm; done.
Qed.

Lemma stdout_step_frame ag t i ag' t' eff :
  from_stdout i →
  initialized ag →
  step JSON_parse (ag, t) i = (ag', t', eff) →
  active ag' = active ag
  ∧ chat_ids ag' = chat_ids ag
  ∧ (∀ k, k ≠ turn_chatId t → chat_messages ag' k = chat_messages ag k)
  ∧ (working ag = Some false → working ag' = Some false)
  ∧ (currentProcess ag = None → currentProcess ag' = None).
Proof.
  intros Hi Hinit Hstep. destruct i; try done; simpl in Hstep.
  - destruct (turn_reading t) eqn:Hr.
    + destruct (on_chunk JSON_parse (turn_buffer t) chunk) as [outs b].
      apply advance_spec in Hstep
        as (_ & _ & _ & _ & _ & _ & ? & ? & ? & ? & ?); done.
    + by injection Hstep as <- <- <-.
  - destruct (turn_reading t) eqn:Hr.
    + apply advance_spec in Hstep
        as (_ & _ & _ & _ & _ & _ & ? & ? & ? & ? & ?); done.
    + by injection Hstep as <- <- <-.
  - destruct (complete_spec ag Hinit) as (Cw & Cp & Ca & Cids & Cm & Ci).
    destruct (turn_reading t); injection Hstep as <- <- <-; done.
Qed.

(** C4, amended.  Abort can be called at any time, also while the loop
    reads: it kills the subprocess if there is a handle, clears the
    handle and the flag, changes no chat, and a second abort does
    nothing.  It does not end the loop.  What is read from the output
    afterwards never changes the active chat, the set of chats, a chat
    other than the one of the turn, the cleared flag or the cleared
    handle; and in the chat of the turn it changes nothing but the text of
    the placeholder, the first message with the assistant identifier: the
    first text part of that message gets another text, or a text part is
    added to it if it has none, while every other part, the identifier,
    the role and the metadata of that message, and every other message,
    stay.  The loop ends when the output ends or fails. *)
Theorem abort_then_stream :
  (∀ ag,
     currentProcess (abort ag).1 = None
     ∧ (abort ag).2 =
         match currentProcess ag with
         | Some h => [Kill (pid h)]
         | None => []
         end
     ∧ (initialized ag → working (abort ag).1 = Some false)
     ∧ active (abort ag).1 = active ag
     ∧ chat_ids (abort ag).1 = chat_ids ag
     ∧ (∀ k, chat_messages (abort ag).1 k = chat_messages ag k)
     ∧ abort (abort ag).1 = ((abort ag).1, []))
  ∧ (∀ ag t, step JSON_parse (ag, t) CallAbort = ((abort ag).1, t, (abort ag).2))
  ∧ (∀ ag t i ag' t' eff,
       from_stdout i →
       initialized ag →
       step JSON_parse (ag, t) i = (ag', t', eff) →
       active ag' = active ag
       ∧ chat_ids ag' = chat_ids ag
       ∧ (∀ k, k ≠ turn_chatId t →
               chat_messages ag' k = chat_messages ag k)
       ∧ (working ag = Some false → working ag' = Some false)
       ∧ (currentProcess ag = None → currentProcess ag' = None)
       ∧ (∀ ms, chat_messages ag (turn_chatId t) = Some ms →
                ∃ ms', chat_messages ag' (turn_chatId t) = Some ms'
                       ∧ placeholder_written (turn_assistantMessageId t)
                                             ms ms')
       ∧ (chat_messages ag (turn_chatId t) = None →
          chat_messages ag' (turn_chatId t) = None))
  ∧ (∀ ag t,
       turn_reading (step JSON_parse (ag, t) StdoutEnd).1.2 = false
       ∧ turn_reading (step JSON_parse (ag, t) StdoutError).1.2 = false).
Proof.
  split; [|split; [|split]].
  - intros ag.
    by destruct (abort_spec ag) as (? & ? & ? & ? & ? & ? & _ & ?).
  - intros ag t. simpl. by destruct (abort ag).
  - intros ag t i ag' t' eff Hi Hinit Hstep.
    destruct (stdout_step_frame _ _ _ _ _ _ Hi Hinit Hstep)
      as (? & ? & ? & ? & ?).
    destruct (stdout_step_written _ _ _ _ _ _ Hi Hinit Hstep) as [? ?].
    done.
  - intros ag t. simpl. unfold advance.
    destruct (turn_reading t) eqn:Hr; [|done].
    destruct (consume _ _ _ _) as [[ag1 eff1] []]; done.
Qed.
End Steps.

Lemma abort_then_stream_witness :
  let s2 := (step parse_assistant_record (streaming_agent, streaming_turn)
                  CallAbort).1 in
  let s3 := (step parse_assistant_record s2 (StdoutData late_chunk)).1 in
  active s3.1 = active s2.1 ∧ chat_ids s3.1 = chat_ids s2.1
  ∧ working s3.1 = Some false ∧ currentProcess s3.1 = None
  ∧ ∃ ms', chat_messages s3.1 (JS.lit "c1") = Some ms'
           ∧ placeholder_written (JS.lit "a1")
               [user_message; sample_placeholder] ms'.
Proof.
  destruct (abort_then_stream parse_assistant_record) as (_ & _ & H & _).
  destruct (H (abort streaming_agent).1 streaming_turn
              (StdoutData late_chunk)
              (step parse_assistant_record
                    ((abort streaming_agent).1, streaming_turn)
                    (StdoutData late_chunk)).1.1
              (step parse_assistant_record
                    ((abort streaming_agent).1, streaming_turn)
                    (StdoutData late_chunk)).1.2
              (step parse_assistant_record
                    ((abort streaming_agent).1, streaming_turn)
                    (StdoutData late_chunk)).2)
    as (Ha & Hc & _ & Hw & Hp & Hms & _).
  - exact I.
  - vm_compute. eexists. reflexivity.
  - vm_compute. reflexivity.
  - cbv zeta. repeat apply conj.
    + exact Ha.
    + exact Hc.
    + apply Hw. vm_compute. reflexivity.
    + apply Hp. vm_compute. reflexivity.
    + apply (Hms [user_message; sample_placeholder]).
      vm_compute. reflexivity.
Defined.

End AbortProperties.

(** ** Spawning *)
Module SpawnProperties.
Import Types Contract ProcessManager StreamParser Agent SessionSpec
  StoreFacts TurnFacts Samples.

(** [spawnClaudeCode] called as it is declared, with a session identifier
    that is a string or absent and with a callback: the resume flag and
    the identifier follow the fixed flags exactly when the identifier is
    a non-empty string, and one exit event calls the callback once, with
    the exit code. *)
Lemma spawnClaudeCode_as_declared {F} (config : ClaudeCodeAgentConfig)
  (sessionId : option jsstring) (onExit : F) (p : N) :
  ∃ h : ProcessHandle F,
    spawnClaudeCode config (ArgString <$> sessionId) (Some onExit)
                    (Spawned p) = Ok h
    ∧ (∃ rest,
         spawn_args h =
           (ArgString <$> [JS.lit "-p"; JS.lit "--input-format";
                           JS.lit "stream-json"; JS.lit "--output-format";
                           JS.lit "stream-json"; JS.lit "--verbose"])
             ++ (if JS.truthy_opt sessionId
                 then [ArgString (JS.lit "--resume");
                       ArgString (default [] sessionId)]
                 else [])
             ++ rest
         ∧ rest = drop 6 (buildArgs config None))
    ∧ ∀ code, on_exit_event h code = [(onExit, code)].
Proof.
  eexists. split; [reflexivity|]. split; [|done].
  eexists. split; [|reflexivity]. simpl. unfold buildArgs.
  destruct sessionId as [[|c s]|]; simpl;
    destruct (skipPermissions config),
      (JS.truthy_opt (appendSystemPrompt config)),
      (PromptBuilder.has_length (allowedTools config)); reflexivity.
Qed.

(** No handle has a listener for ['error']. *)
Lemma spawnClaudeCode_no_error_listener {F} (config : ClaudeCodeAgentConfig)
  (sessionId : option (Arg F)) (onExit : option F) (p : N) (h : ProcessHandle F) :
  spawnClaudeCode config sessionId onExit (Spawned p) = Ok h →
  error_event_handled h = false.
Proof. intros [= <-]. reflexivity. Qed.

(** A [spawn] that throws, in a turn on an existing active chat: the
    exception leaves [handleUserMessage] after step 1, with the flag set
    and the message stored. *)
Lemma spawn_throws_after_step_1 JSON_stringify message fresh ag st chatId chat :
  karton ag = Some st →
  activeChatId st = Some chatId →
  JS.truthy chatId = true →
  obj_get (chats st) chatId = Some chat →
  ∃ ag1,
    handleUserMessage_start JSON_stringify message SpawnThrows fresh ag =
      (ag1, [], Rejected)
    ∧ working ag1 = Some true
    ∧ chat_messages ag1 chatId = Some (messages chat ++ [message]).
Proof.
  intros Hk Ha Ht Hchat. unfold handleUserMessage_start.
  rewrite Hk, Ha, Ht. simpl.
  destruct ag as [k cfg cp]. simpl in Hk. subst k.
  unfold setState, with_messages. simpl. rewrite Hchat. simpl.
  eexists. split; [reflexivity|].
  unfold working, chat_messages. simpl. by rewrite obj_get_set.
Qed.

(** C5.  A turn on the sample instance in which [spawn] throws: the
    operation is left by the exception, no effect was produced, and the
    instance stays with the flag set.  And whatever the arguments, the
    handle of a spawn that succeeds has listeners for the exit event and
    for the data of the error output only, none for the error event, by
    which the platform reports a missing executable. *)
Theorem spawn_failure_leaves_working_flag :
  (∀ JSON_stringify,
     handleUserMessage_start JSON_stringify user_message SpawnThrows fresh1
       ready_agent = (stuck_agent, [], Rejected))
  ∧ working ready_agent = Some false
  ∧ working stuck_agent = Some true
  ∧ (∀ config (sessionId : option (Arg Closure)) onExit p,
       ∃ h,
         spawnClaudeCode config sessionId onExit (Spawned p) = Ok h
         ∧ proc_listeners h = [JS.lit "exit"]
         ∧ error_event_handled h = false).
Proof.
  repeat split; try (vm_compute; reflexivity).
  intros config sessionId onExit p. eexists. repeat split.
Qed.

(** C6.  The turn on the sample instance.  The arrow function that
    clears the flag is the second argument of [spawnClaudeCode], the
    place of [sessionId], and the third argument is absent: the handle
    has no callback for its exit observer, the arguments of the
    subprocess hold the resume flag followed by the function although no
    session identifier exists, and an exit of the subprocess calls
    nothing and leaves the instance as it is, flag included. *)
Theorem exit_callback_in_place_of_session_id :
  started.2 = Reading streaming_turn
  ∧ turn_process streaming_turn = sample_handle
  ∧ exit_callback sample_handle = None
  ∧ spawn_args sample_handle =
      (ArgString <$> [JS.lit "-p"; JS.lit "--input-format";
                      JS.lit "stream-json"; JS.lit "--output-format";
                      JS.lit "stream-json"; JS.lit "--verbose"])
        ++ [ArgString (JS.lit "--resume"); ArgFunction ClearWorking;
            ArgString (JS.lit "--dangerously-skip-permissions")]
  ∧ (∀ code, on_exit_event sample_handle code = [])
  ∧ working streaming_agent = Some true
  ∧ (∀ JSON_parse code,
       step JSON_parse (streaming_agent, streaming_turn) (ProcExit code) =
         (streaming_agent, streaming_turn, [])).
Proof. repeat split; vm_compute; reflexivity. Qed.

(** C10.  An instance without store, or with a store that has no active
    chat: the operation returns at once, the instance is the same, and
    nothing was done to the outside, so no subprocess was spawned, for
    whatever message, whatever [spawn] would have done and whatever the
    output would have been. *)
Theorem handleUserMessage_without_active_chat
  JSON_parse JSON_stringify message outcome fresh chunks ag :
  karton ag = None
  ∨ (∃ st, karton ag = Some st ∧ activeChatId st = None) →
  handleUserMessage_start JSON_stringify message outcome fresh ag =
    (ag, [], Returned)
  ∧ handleUserMessage JSON_parse JSON_stringify message outcome fresh
      chunks ag = (ag, []).
Proof.
  intros Hcase.
  assert (handleUserMessage_start JSON_stringify message outcome fresh ag =
            (ag, [], Returned)) as Hstart.
  { unfold handleUserMessage_start.
    destruct Hcase as [->|(st & -> & ->)]; reflexivity. }
  split; [done|]. unfold handleUserMessage. by rewrite Hstart.
Qed.

Lemma handleUserMessage_without_active_chat_witness :
  handleUserMessage_start no_stringify user_message (Spawned 7) fresh1
    blank_agent = (blank_agent, [], Returned)
  ∧ handleUserMessage parse_assistant_record no_stringify user_message
      (Spawned 7) fresh1 [late_chunk] blank_agent = (blank_agent, []).
Proof.
  apply (handleUserMessage_without_active_chat parse_assistant_record
           no_stringify user_message (Spawned 7) fresh1 [late_chunk]
           blank_agent).
  left. reflexivity.
Defined.

End SpawnProperties.

(** ** The flag on the two outcomes of the spawn *)
Module TurnPaths.
Import Types Contract ProcessManager StreamParser Agent SessionSpec
  StoreFacts TurnFacts Samples.

(** C2.  A user message to an instance whose active chat exists, the
    first of its chats here, whatever the instance holds otherwise.  The
    turn starts: the flag is set and the message is stored.  If the
    subprocess is spawned, the flag is false when the output has been read
    to its end, whatever the output was.  If the spawn throws, the
    operation ends there by the exception, nothing was done to the
    outside, no loop reads and no step of the operation is left to run,
    and the flag is true: this path starts a turn and leaves the flag
    set. *)
Theorem working_flag_stuck_when_spawn_throws
  (JSON_parse : jsstring → option StreamEvent)
  (JSON_stringify : list (jsstring * jsstring) → jsstring)
  (message : ChatMessage) (fresh : Fresh) (chunks : list Buffer)
  (cfg : ClaudeCodeAgentConfig) (held : option Handle) (flag : bool)
  (c : N) (cs : jsstring) (chat : Chat) (others : list (jsstring * Chat)) :
  let ag :=
    {| karton := Some {| activeChatId := Some (c :: cs);
                         chats := (c :: cs, chat) :: others;
                         isWorking := flag |};
       config := cfg; currentProcess := held |} in
  let stuck :=
    (handleUserMessage_start JSON_stringify message SpawnThrows fresh
       ag).1.1 in
  (∀ p,
     working (handleUserMessage JSON_parse JSON_stringify message
                (Spawned p) fresh chunks ag).1 = Some false)
  ∧ handleUserMessage_start JSON_stringify message SpawnThrows fresh ag =
      (stuck, [], Rejected)
  ∧ handleUserMessage JSON_parse JSON_stringify message SpawnThrows fresh
      chunks ag = (stuck, [])
  ∧ working stuck = Some true
  ∧ chat_messages stuck (c :: cs) = Some (messages chat ++ [message]).
Proof.
  intros ag stuck.
  assert (obj_get ((c :: cs, chat) :: others) (c :: cs) = Some chat) as Hchat.
  { simpl. by rewrite eqb_refl. }
  split; [|].
  - intros p.
    destruct (TurnProperties.working_flag_over_turn JSON_parse
                JSON_stringify message p fresh ag _ (c :: cs) chat
                eq_refl eq_refl eq_refl Hchat)
      as (ag1 & eff & t & Hstart & _ & _ & _ & Hend).
    unfold handleUserMessage. rewrite Hstart.
    destruct (run JSON_parse (ag1, t) ((StdoutData <$> chunks) ++ [StdoutEnd]))
      as [[ag2 t2] eff2] eqn:Hrun.
    by destruct (Hend _ StdoutEnd _ _ _ (or_introl eq_refl) Hrun).
  - destruct (SpawnProperties.spawn_throws_after_step_1 JSON_stringify
                message fresh ag _ (c :: cs) chat
                eq_refl eq_refl eq_refl Hchat)
      as (ag1 & Hstart & Hw & Hms).
    unfold handleUserMessage. subst stuck. rewrite Hstart. done.
Qed.

End TurnPaths.

(** ** Deleting the active chat *)
Module ChatProperties.
Import Types Contract ProcessManager Agent SessionSpec StoreFacts TurnFacts
  Samples.

(** C9.  Deleting the active chat when exactly one other chat exists does
    not always make that chat active.  Two chats, the active one and one
    under the empty identifier, which [generateId] returns when the
    random number is zero.  The search finds the empty identifier, the
    test that follows takes it for no identifier, and a third chat is
    created and made active in the place of the other chat. *)
Lemma deleteChat_other_with_empty_identifier :
  ∃ ag',
    deleteChat (JS.lit "c1") fresh2 two_chat_agent = Ok ag'
    ∧ chat_ids two_chat_agent = [JS.lit "c1"; []]
    ∧ active two_chat_agent = Some (JS.lit "c1")
    ∧ active ag' = Some (JS.lit "c2")
    ∧ active ag' ≠ Some []
    ∧ chat_ids ag' = [[]; JS.lit "c2"].
Proof. eexists. vm_compute. repeat split; discriminate. Qed.

Lemma find_other (chatId other : jsstring) (keys : list jsstring) :
  other ≠ chatId →
  keys = [chatId; other] ∨ keys = [other; chatId] →
  List.find (λ id, negb (JS.eqb id chatId)) keys = Some other.
Proof.
  intros Hne [-> | ->]; simpl;
    rewrite ?eqb_refl, (proj2 (eqb_false other chatId)) by done; done.
Qed.

(** After deleting the active chat the active identifier is not null. *)
Lemma deleteChat_active_not_null chatId fresh ag st :
  karton ag = Some st →
  activeChatId st = Some chatId →
  ∃ ag', deleteChat chatId fresh ag = Ok ag' ∧ is_Some (active ag').
Proof.
  intros Hk Ha. unfold deleteChat. rewrite Hk, Ha.
  rewrite bool_decide_true by done.
  destruct (List.find _ _) as [[|c next]|]; simpl.
  - unfold createAndActivateNewChat, setState. rewrite Hk. simpl.
    eexists. split; [reflexivity|]. unfold active. simpl. by eexists.
  - eexists. split; [reflexivity|].
    unfold active, setState_opt. rewrite Hk. simpl. by eexists.
  - unfold createAndActivateNewChat, setState. rewrite Hk. simpl.
    eexists. split; [reflexivity|]. unfold active. simpl. by eexists.
Qed.

(** Deleting the active chat, where it does what is meant.  If exactly one other chat
    exists and its identifier is not the empty string, that chat becomes
    active and is the only chat left, with its messages.  If the active
    chat is the only chat and the generated identifier differs from its
    identifier, a new chat without messages is created under the
    generated identifier, becomes active and is the only chat left.  In
    all cases the operation succeeds and the active identifier is not
    null afterwards; it is one identifier, so at most one chat is
    active. *)
Theorem deleteChat_active chatId fresh ag st :
  karton ag = Some st →
  activeChatId st = Some chatId →
  (∀ other,
     other ≠ chatId → other ≠ [] →
     obj_keys (chats st) = [chatId; other]
     ∨ obj_keys (chats st) = [other; chatId] →
     ∃ ag',
       deleteChat chatId fresh ag = Ok ag'
       ∧ active ag' = Some other
       ∧ chat_ids ag' = [other]
       ∧ chat_messages ag' other = chat_messages ag other)
  ∧ (obj_keys (chats st) = [chatId] →
     new_id fresh ≠ chatId →
     ∃ ag',
       deleteChat chatId fresh ag = Ok ag'
       ∧ active ag' = Some (new_id fresh)
       ∧ chat_ids ag' = [new_id fresh]
       ∧ chat_messages ag' (new_id fresh) = Some [])
  ∧ (∃ ag', deleteChat chatId fresh ag = Ok ag' ∧ is_Some (active ag')).
Proof.
  intros Hk Ha. split; [|split].
  - intros other Hne Hnonempty Hkeys.
    assert (JS.eqb other chatId = false) as E1 by (by apply eqb_false).
    assert (JS.eqb chatId other = false) as E2
      by (apply eqb_false; congruence).
    assert (JS.truthy other = true) as Ht by (by destruct other).
    destruct ag as [k cfg cp]. simpl in Hk. subst k.
    destruct st as [a cs w]. simpl in *. subst a.
    unfold obj_keys in Hkeys.
    destruct cs as [|[k1 c1] [|[k2 c2] [|? ?]]];
      destruct Hkeys as [Hkeys|Hkeys]; try done;
      injection Hkeys as -> ->.
    all: unfold deleteChat, active, chat_ids, chat_messages, setState_opt;
      simpl; rewrite bool_decide_true by done; simpl;
      rewrite ?eqb_refl, ?E1, ?E2; simpl; rewrite ?Ht; simpl;
      eexists; (split; [reflexivity|]); simpl;
      rewrite ?eqb_refl, ?E1, ?E2; simpl;
      rewrite ?eqb_refl, ?E1, ?E2; simpl; done.
  - intros Hkeys Hfresh.
    assert (JS.eqb chatId (new_id fresh) = false) as E1
      by (apply eqb_false; congruence).
    assert (JS.eqb (new_id fresh) chatId = false) as E2
      by (by apply eqb_false).
    destruct ag as [k cfg cp]. simpl in Hk. subst k.
    destruct st as [a cs w]. simpl in *. subst a.
    unfold obj_keys in Hkeys.
    destruct cs as [|[k1 c1] [|? ?]]; try done. injection Hkeys as ->.
    unfold deleteChat, active, chat_ids, chat_messages, setState_opt,
      createAndActivateNewChat, setState, obj_set.
    simpl. rewrite bool_decide_true by done. simpl.
    rewrite ?eqb_refl, ?E1, ?E2. simpl.
    destruct (JS.array_index (new_id fresh)) as [n|]; simpl;
      [destruct (JS.array_index _) as [n'|]; [destruct (n' <? n)%N|]|];
      simpl; rewrite ?eqb_refl, ?E1, ?E2; simpl;
      (eexists; split; [reflexivity|]); simpl;
      rewrite ?eqb_refl, ?E1, ?E2; simpl;
      rewrite ?eqb_refl, ?E1, ?E2; simpl; done.
  - apply (deleteChat_active_not_null _ _ _ _ Hk Ha).
Qed.

Lemma deleteChat_active_witness :
  (∃ ag',
     deleteChat (JS.lit "c1") fresh2 two_named_chats_agent = Ok ag'
     ∧ active ag' = Some (JS.lit "c0")
     ∧ chat_ids ag' = [JS.lit "c0"]
     ∧ chat_messages ag' (JS.lit "c0") =
         chat_messages two_named_chats_agent (JS.lit "c0"))
  ∧ (∃ ag',
       deleteChat (JS.lit "c1") fresh2 ready_agent = Ok ag'
       ∧ active ag' = Some (JS.lit "c2")
       ∧ chat_ids ag' = [JS.lit "c2"]
       ∧ chat_messages ag' (JS.lit "c2") = Some []).
Proof.
  split.
  - destruct (deleteChat_active (JS.lit "c1") fresh2 two_named_chats_agent
                {| activeChatId := Some (JS.lit "c1");
                   chats := [(JS.lit "c1", empty_chat 0);
                             (JS.lit "c0", empty_chat 1)];
                   isWorking := false |} eq_refl eq_refl) as (H & _ & _).
    apply (H (JS.lit "c0")).
    + vm_compute. discriminate.
    + vm_compute. discriminate.
    + left. reflexivity.
  - destruct (deleteChat_active (JS.lit "c1") fresh2 ready_agent
                {| activeChatId := Some (JS.lit "c1");
                   chats := [(JS.lit "c1", empty_chat 0)];
                   isWorking := false |} eq_refl eq_refl) as (_ & H & _).
    apply H.
    + reflexivity.
    + vm_compute. discriminate.
Defined.

End ChatProperties.

(** ** Scenarios *)
Module Scenarios.
Import Types Contract ProcessManager StreamParser Agent StreamSpec PromptSpec
  SessionSpec Samples.

(** The loop of the turn on events that are all yielded is the fold of the
    handler. *)
Lemma consume_events (events : list StreamEvent) chatId assistantMessageId :
  ∀ ag ag',
    handleStreamEvents events chatId assistantMessageId ag = Ok ag' →
    ∃ eff,
      consume chatId assistantMessageId (Yield <$> events) ag =
        (ag', eff, false).
Proof.
  induction events as [|event events IH]; intros ag ag' Hrun.
  - injection Hrun as <-. by eexists.
  - rewrite fmap_cons. simpl in *.
    destruct (handleStreamEvent event chatId assistantMessageId ag)
      as [[ag1 eff1]|]; [|done].
    destruct (IH _ _ Hrun) as [eff Heff]. rewrite Heff. by eexists.
Qed.

(** [initialize] creates the first chat and makes it active. *)
Example initialize_creates_chat :
  initialize {| new_id := JS.lit "c1"; now := 0 |} blank_agent = Ok ready_agent.
Proof. reflexivity. Qed.

(** A text and nothing else gives one text attachment. *)
Example text_only_message :
  content (wire_message (PromptBuilder.buildStreamJsonMessage
    {| text := JS.lit "fix bug"; domContext := None; screenshots := Some [];
       pluginSnippets := Some [] |})) = [CText (JS.lit "fix bug")].
Proof. reflexivity. Qed.

(** All sections at once. *)
Example full_prompt_text :
  PromptBuilder.buildPromptText
    {| text := JS.lit "go"; domContext := Some (JS.lit "D");
       screenshots := None;
       pluginSnippets := Some [JS.lit "p"; JS.lit "q"] |} =
    PromptBuilder.dom_label ++ JS.lit "D" ++ blank_line
      ++ PromptBuilder.plugin_label ++ JS.lit "p" ++ [JS.LF] ++ JS.lit "q"
      ++ blank_line ++ JS.lit "go".
Proof. reflexivity. Qed.

(** No selected element, no block. *)
Example serializeDomContext_absent JSON_stringify :
  PromptBuilder.serializeDomContext JSON_stringify None = None
  ∧ PromptBuilder.serializeDomContext JSON_stringify
      (Some {| selectedElements := None |}) = None
  ∧ PromptBuilder.serializeDomContext JSON_stringify
      (Some {| selectedElements := Some [] |}) = None.
Proof. repeat split. Qed.

Example serializeDomContext_two_elements JSON_stringify :
  PromptBuilder.serializeDomContext JSON_stringify
    (Some {| selectedElements :=
               Some [{| xpath := Some (JS.lit "/html/body");
                        textContent := None; attributes := None |};
                     {| xpath := None; textContent := Some (JS.lit "Hi");
                        attributes := Some [(JS.lit "id", JS.lit "x")] |}] |}) =
    Some (PromptBuilder.element_label ++ JS.lit "1:" ++ [JS.LF]
            ++ JS.lit "XPath: /html/body" ++ blank_line
            ++ PromptBuilder.element_label ++ JS.lit "2:" ++ [JS.LF]
            ++ PromptBuilder.text_label ++ JS.lit "Hi" ++ [JS.LF]
            ++ PromptBuilder.attributes_label
            ++ JSON_stringify [(JS.lit "id", JS.lit "x")]).
Proof. vm_compute. reflexivity. Qed.

(** Only image files that carry data are screenshots. *)
Example extractScreenshots_filters :
  PromptBuilder.extractScreenshots
    [{| p_type := JS.lit "text"; p_text := Some (JS.lit "hi");
        p_data := None; p_mimeType := None |};
     {| p_type := JS.lit "file"; p_text := None;
        p_data := Some (JS.lit "AAA");
        p_mimeType := Some (JS.lit "image/png") |};
     {| p_type := JS.lit "file"; p_text := None;
        p_data := Some (JS.lit "PDF");
        p_mimeType := Some (JS.lit "application/pdf") |};
     {| p_type := JS.lit "file"; p_text := None; p_data := None;
        p_mimeType := Some (JS.lit "image/jpeg") |};
     {| p_type := JS.lit "file"; p_text := None;
        p_data := Some (JS.lit "BBB");
        p_mimeType := Some (JS.lit "image/jpeg") |}] =
    [JS.lit "AAA"; JS.lit "BBB"].
Proof. reflexivity. Qed.

Example extractPluginSnippets_order :
  PromptBuilder.extractPluginSnippets
    (Some [(JS.lit "react", [(JS.lit "tree", {| item_text := JS.lit "T" |});
                           (JS.lit "props", {| item_text := JS.lit "P" |})]);
           (JS.lit "vue", [(JS.lit "sfc", {| item_text := JS.lit "S" |})])]) =
    [JS.lit "[react/tree]" ++ [JS.LF] ++ JS.lit "T";
     JS.lit "[react/props]" ++ [JS.LF] ++ JS.lit "P";
     JS.lit "[vue/sfc]" ++ [JS.LF] ++ JS.lit "S"].
Proof. reflexivity. Qed.

(** Splitting and trimming. *)
Example split_lf_text :
  JS.split_lf (JS.lit "a" ++ [JS.LF] ++ [JS.LF] ++ JS.lit "bc") =
    [JS.lit "a"; []; JS.lit "bc"]
  ∧ JS.split_lf [] = [[]]
  ∧ JS.split_lf (JS.lit "a" ++ [JS.LF]) = [JS.lit "a"; []].
Proof. repeat split. Qed.

Example trim_text :
  JS.trim ([32; 9] ++ JS.lit "a b" ++ [13; 32]) = JS.lit "a b"
  ∧ JS.trim [32; 13; 9] = [].
Proof. repeat split. Qed.

(** A blank line and a line of white space yield nothing; an unfinished
    last line is parsed when the output ends. *)
Example blank_lines_and_residue :
  parseStreamJson parse_assistant_record
    [[Byte.x0a; Byte.x20; Byte.x09; Byte.x0a] ++ record_bytes "Hel"] =
    [Yield (assistant_event (JS.lit "Hel"))].
Proof. vm_compute. reflexivity. Qed.

(** A whole turn: two assistant records, the second with the longer text;
    the answer is the text of the second, the flag is cleared and the
    handle released. *)
Example whole_turn :
  let '(ag, eff) :=
    handleUserMessage parse_assistant_record no_stringify user_message
      (Spawned 7) fresh1
      [record_bytes "Hel" ++ [Byte.x0a]; record_bytes "Hello" ++ [Byte.x0a]]
      ready_agent in
  chat_messages ag (JS.lit "c1") =
    Some [user_message;
          holding [text_part (JS.lit "Hello")] sample_placeholder]
  ∧ working ag = Some false
  ∧ currentProcess ag = None.
Proof. vm_compute. repeat split. Qed.

(** Abort without a turn changes nothing. *)
Example abort_when_idle : abort ready_agent = (ready_agent, []).
Proof. reflexivity. Qed.

(** The chat of the turn deleted while the turn reads: the next assistant
    event throws in the handler, the loop is left and the turn completes. *)
Example chat_deleted_mid_turn :
  let '(ag, t, eff) :=
    run parse_assistant_record (streaming_agent, streaming_turn)
      [CallDeleteChat (JS.lit "c1") fresh2; StdoutData late_chunk] in
  turn_reading t = false ∧ working ag = Some false
  ∧ currentProcess ag = None ∧ eff = [ConsoleError]
  ∧ chat_ids ag = [JS.lit "c2"].
Proof. vm_compute. repeat split. Qed.

End Scenarios.

(** * Further properties *)

(** ** The decoder: lines, blanks, line endings, chunk boundaries *)
Module StreamExtra.
Import Types StreamParser StreamSpec LineSpec StreamParserFacts
  DecoderProperties Samples.

Lemma trimStart_blank (s : jsstring) : blank_text s → JS.trimStart s = [].
Proof. induction 1 as [|c s Hc _ IH]; [done|]. simpl. by rewrite Hc. Qed.

Lemma trim_blank (s : jsstring) : blank_text s → JS.trim s = [].
Proof. intros H. unfold JS.trim. rewrite (trimStart_blank s H). reflexivity. Qed.

Lemma trimStart_nonblank (s : jsstring) :
  ¬ blank_text s → ∀ t, JS.trimStart (s ++ t) = JS.trimStart s ++ t.
Proof.
  induction s as [|c s IH]; intros Hnb t.
  - destruct Hnb. constructor.
  - simpl. destruct (JS.is_space c) eqn:Hc; [|done].
    apply IH. intros Hb. apply Hnb. by constructor.
Qed.

Lemma trim_snoc_space (s : jsstring) (c : N) :
  JS.is_space c = true → JS.trim (s ++ [c]) = JS.trim s.
Proof.
  intros Hc. unfold JS.trim.
  destruct (decide (blank_text s)) as [Hb|Hnb].
  - rewrite (trimStart_blank s Hb), (trimStart_blank (s ++ [c])); [done|].
    apply Forall_app. split; [done|]. by constructor.
  - rewrite trimStart_nonblank by done.
    rewrite reverse_snoc. simpl. by rewrite Hc.
Qed.

Section Parser.
Variable JSON_parse : jsstring → option StreamEvent.

Lemma events_app (o1 o2 : list Output) :
  events (o1 ++ o2) = events o1 ++ events o2.
Proof. unfold events. apply omap_app. Qed.

Lemma events_parse_line line :
  events (parse_line JSON_parse line) =
    option_list (record_of_line JSON_parse line).
Proof.
  unfold parse_line, record_of_line.
  destruct (JS.truthy (JS.trim line)); [|done].
  by destruct (JSON_parse (JS.trim line)).
Qed.

Lemma events_on_close buffer :
  events (on_close JSON_parse buffer) =
    option_list (record_of_line JSON_parse buffer).
Proof.
  unfold on_close, record_of_line.
  destruct (JS.truthy (JS.trim buffer)); [|done].
  by destruct (JSON_parse (JS.trim buffer)).
Qed.

Lemma length_parse_line line :
  length (parse_line JSON_parse line) = if nonblank line then 1%nat else 0%nat.
Proof.
  unfold parse_line, nonblank.
  destruct (JS.truthy (JS.trim line)); [|done].
  by destruct (JSON_parse (JS.trim line)).
Qed.

Lemma length_on_close buffer :
  length (on_close JSON_parse buffer) =
    if nonblank buffer then 1%nat else 0%nat.
Proof.
  unfold on_close, nonblank.
  destruct (JS.truthy (JS.trim buffer)); [|done].
  by destruct (JSON_parse (JS.trim buffer)).
Qed.

Lemma split_lf_removelast_last text :
  JS.split_lf text =
    removelast (JS.split_lf text) ++ [default [] (last (JS.split_lf text))].
Proof.
  pose proof (split_lf_nonempty text) as Hne.
  destruct (last (JS.split_lf text)) as [seg|] eqn:E.
  - apply last_Some in E as [l' E]. rewrite E at 1. rewrite E.
    by rewrite removelast_last.
  - by apply last_None in E.
Qed.

Lemma length_outputs (chunks : list Buffer) :
  length (parseStreamJson JSON_parse chunks) =
    length (List.filter nonblank (JS.split_lf (decoded chunks))).
Proof.
  rewrite parseStreamJson_outputs.
  pose proof (split_lf_removelast_last (decoded chunks)) as Hs.
  unfold outputs_of_text, outputs_of_lines.
  set (lines := removelast (JS.split_lf (decoded chunks))) in *.
  set (rest := default [] (last (JS.split_lf (decoded chunks)))) in *.
  rewrite Hs. clearbody lines rest. clear Hs.
  rewrite length_app, List.filter_app, length_app, length_on_close.
  f_equal.
  - induction lines as [|l lines IH]; [done|].
    simpl. rewrite length_app, length_parse_line, IH.
    by destruct (nonblank l).
  - simpl. by destruct (nonblank rest).
Qed.

(** X1.  The events that the decoder yields are the events of the lines
    of the decoded text, the unfinished last line included, in the order
    of the lines; blank lines and lines that do not parse give none.  Each
    line that is not blank gives exactly one output, an event or a
    warning. *)
Theorem events_are_the_parsed_lines (chunks : list Buffer) :
  events (parseStreamJson JSON_parse chunks) =
    omap (record_of_line JSON_parse) (JS.split_lf (decoded chunks))
  ∧ length (parseStreamJson JSON_parse chunks) =
      length (List.filter nonblank (JS.split_lf (decoded chunks))).
Proof.
  split; [|apply length_outputs].
  rewrite parseStreamJson_outputs.
  pose proof (split_lf_removelast_last (decoded chunks)) as Hs.
  unfold outputs_of_text, outputs_of_lines.
  set (lines := removelast (JS.split_lf (decoded chunks))) in *.
  set (rest := default [] (last (JS.split_lf (decoded chunks)))) in *.
  rewrite Hs. clearbody lines rest. clear Hs.
  rewrite events_app, omap_app, events_on_close.
  replace (omap (record_of_line JSON_parse) [rest])
    with (option_list (record_of_line JSON_parse rest))
    by (simpl; by destruct (record_of_line JSON_parse rest)).
  f_equal.
  induction lines as [|l lines IH]; [done|].
  simpl flat_map. rewrite events_app, events_parse_line, IH.
  simpl. by destruct (record_of_line JSON_parse l).
Qed.

Lemma blank_segments text seg :
  blank_text text → seg ∈ JS.split_lf text → blank_text seg.
Proof.
  intros Hb. revert seg. induction Hb as [|c text Hc Hb IH]; intros seg.
  - simpl. intros ->%list_elem_of_singleton. constructor.
  - rewrite split_lf_cons. case_bool_decide.
    + intros [->|?]%elem_of_cons; [constructor|by apply IH].
    + destruct (JS.split_lf text) as [|seg0 segs]; simpl.
      * intros ->%list_elem_of_singleton. by repeat constructor.
      * intros [->|Hin]%elem_of_cons.
        -- constructor; [done|]. apply IH. left.
        -- apply IH. by right.
Qed.

(** X2.  Output that decodes to white space only, line feeds and
    carriage returns included, yields no event and no warning, however
    it is cut into chunks; so does no output at all. *)
Theorem blank_output_yields_nothing (chunks : list Buffer) :
  blank_text (decoded chunks) → parseStreamJson JSON_parse chunks = [].
Proof.
  intros Hb. apply length_zero_iff_nil.
  rewrite length_outputs. apply length_zero_iff_nil.
  assert (∀ seg, seg ∈ JS.split_lf (decoded chunks) → nonblank seg = false)
    as Hall.
  { intros seg Hin. unfold nonblank.
    by rewrite (trim_blank seg (blank_segments _ _ Hb Hin)). }
  induction (JS.split_lf (decoded chunks)) as [|l ls IH]; [done|].
  simpl. rewrite (Hall l) by left. apply IH. intros seg Hin. apply Hall.
  by right.
Qed.

Lemma parse_line_snoc_space line c :
  JS.is_space c = true →
  parse_line JSON_parse (line ++ [c]) = parse_line JSON_parse line.
Proof. intros Hc. unfold parse_line. by rewrite trim_snoc_space. Qed.

Lemma outputs_of_text_crlf text : ∀ line,
  JS.LF ∉ line →
  outputs_of_text JSON_parse (line ++ crlf text) =
    outputs_of_text JSON_parse (line ++ text).
Proof.
  induction text as [|c text IH]; intros line Hl; [done|].
  unfold crlf. simpl flat_map. fold (crlf text). case_bool_decide as Hc.
  - subst c. simpl app.
    change (line ++ CR :: JS.LF :: crlf text)
      with (line ++ [CR] ++ JS.LF :: crlf text).
    rewrite (assoc_L (++) line [CR]).
    rewrite !outputs_of_text_line; try done.
    + rewrite parse_line_snoc_space by done. f_equal.
      apply (IH []). apply not_elem_of_nil.
    + intros [?|Hin%list_elem_of_singleton]%elem_of_app; [done|].
      discriminate.
  - simpl app.
    change (line ++ c :: crlf text) with (line ++ [c] ++ crlf text).
    change (line ++ c :: text) with (line ++ [c] ++ text).
    rewrite !(assoc_L (++) line [c]). apply IH.
    intros [?|Hin%list_elem_of_singleton]%elem_of_app; [done|].
    by subst c.
Qed.

(** X3.  Output whose lines end with a carriage return and a line feed
    gives the same events and warnings as the same output with bare line
    feeds. *)
Theorem crlf_output_decodes_alike (chunks chunks' : list Buffer) :
  decoded chunks' = crlf (decoded chunks) →
  parseStreamJson JSON_parse chunks' = parseStreamJson JSON_parse chunks.
Proof.
  intros H. rewrite !parseStreamJson_outputs, H.
  apply (outputs_of_text_crlf (decoded chunks) []), not_elem_of_nil.
Qed.
End Parser.

Lemma utf8_decode_resume (a b : list N) : ∀ st,
  utf8_state_after st a = JS.Idle →
  JS.utf8_decode st (a ++ b) = JS.utf8_decode st a ++ JS.utf8_decode JS.Idle b.
Proof.
  induction a as [|x a IH]; intros st Hst.
  - simpl in *. by subst st.
  - simpl in *. destruct (JS.utf8_step st x) as [out st'] eqn:E.
    simpl in Hst. by rewrite (IH st' Hst), (assoc_L (++)).
Qed.

Lemma decoded_aligned (chunks : list Buffer) :
  Forall ends_on_character chunks →
  decoded chunks = JS.Buffer_toString (concat chunks).
Proof.
  induction 1 as [|chunk chunks Hc _ IH]; [done|].
  unfold decoded in *. rewrite fmap_cons. simpl concat. rewrite IH.
  unfold JS.Buffer_toString. rewrite fmap_app.
  by rewrite (utf8_decode_resume _ _ JS.Idle Hc).
Qed.

(** X4.  Output cut into chunks that each end where a character ends
    gives the same events and warnings, in the same order, as the same
    bytes delivered as one chunk. *)
Theorem aligned_chunks_decode_as_whole
  (JSON_parse : jsstring → option StreamEvent) (chunks : list Buffer) :
  Forall ends_on_character chunks →
  parseStreamJson JSON_parse chunks =
    parseStreamJson JSON_parse [concat chunks].
Proof.
  intros H. apply parseStreamJson_same_text.
  rewrite (decoded_aligned chunks H). unfold decoded. simpl.
  by rewrite app_nil_r.
Qed.

Lemma blank_output_yields_nothing_witness :
  parseStreamJson parse_assistant_record
    [[Byte.x20; Byte.x0a]; [Byte.x0d; Byte.x0a; Byte.x09]] = [].
Proof.
  apply (blank_output_yields_nothing parse_assistant_record).
  vm_compute. repeat constructor.
Defined.

Lemma crlf_output_decodes_alike_witness :
  parseStreamJson parse_assistant_record
    [record_bytes "Hel" ++ [Byte.x0d; Byte.x0a] ++ record_bytes "Hello"
       ++ [Byte.x0d; Byte.x0a]] =
    parseStreamJson parse_assistant_record
      [record_bytes "Hel" ++ [Byte.x0a] ++ record_bytes "Hello"
         ++ [Byte.x0a]].
Proof.
  apply (crlf_output_decodes_alike parse_assistant_record).
  vm_compute. reflexivity.
Defined.

Lemma aligned_chunks_decode_as_whole_witness :
  parseStreamJson parse_assistant_record
    [take 77 accent_stream; drop 77 accent_stream] =
    parseStreamJson parse_assistant_record
      [concat [take 77 accent_stream; drop 77 accent_stream]].
Proof.
  apply (aligned_chunks_decode_as_whole parse_assistant_record).
  repeat constructor; vm_compute; reflexivity.
Defined.

End StreamExtra.

(** ** The prompt builder: contexts, screenshots, snippets *)
Module PromptExtra.
Import Types Contract PromptBuilder PromptSpec MessageSpec PromptProperties
  Agent Samples.

Lemma truthy_join_cons (sep x : jsstring) (xs : list jsstring) :
  JS.truthy x = true → JS.truthy (JS.join sep (x :: xs)) = true.
Proof. destruct x as [|c x]; [done|]. by destruct xs. Qed.

Lemma serializeElement_truthy JSON_stringify i el :
  JS.truthy (serializeElement JSON_stringify i el) = true.
Proof.
  unfold serializeElement.
  destruct (JS.truthy_opt (xpath el)), (JS.truthy_opt (textContent el)),
    (attributes el); by apply truthy_join_cons.
Qed.

Lemma join_cons_prefix (sep x : jsstring) (xs : list jsstring) :
  ∃ rest, JS.join sep (x :: xs) = x ++ rest.
Proof.
  destruct xs as [|y xs].
  - exists []. simpl. by rewrite app_nil_r.
  - by eexists.
Qed.

Lemma serializeElement_first JSON_stringify el :
  ∃ rest,
    serializeElement JSON_stringify 0 el = first_element_heading ++ rest.
Proof.
  unfold serializeElement.
  destruct (JS.truthy_opt (xpath el)), (JS.truthy_opt (textContent el)),
    (attributes el); simpl "++";
    match goal with
    | |- ∃ rest, JS.join ?sep (?x :: ?xs) = _ =>
        destruct (join_cons_prefix sep x xs) as [r ->]; exists r
    end; reflexivity.
Qed.

(** X5.  [serializeDomContext] and the selection.  Without browser data,
    without a list of selected elements or with an empty list it returns
    no text.  With a first selected element it returns a text, which
    starts with the heading of the first element and so is not the empty
    string; then the prompt text of every input that carries this context
    starts with the label of the DOM block followed by that heading: the
    test on [domContext] in [buildPromptText] keeps the block of every
    selection. *)
Theorem serializeDomContext_absent_or_nonempty
  (JSON_stringify : list (jsstring * jsstring) → jsstring)
  (browserData : option BrowserData) :
  match browserData ≫= selectedElements with
  | Some (el :: els) =>
      ∃ rest,
        serializeDomContext JSON_stringify browserData =
          Some (first_element_heading ++ rest)
        ∧ ∀ input,
            domContext input =
              serializeDomContext JSON_stringify browserData →
            buildPromptText input =
              dom_heading ++ first_element_heading ++ rest ++ blank_line
                ++ plugin_block (pluginSnippets input) ++ text input
  | Some [] | None =>
      serializeDomContext JSON_stringify browserData = None
  end.
Proof.
  unfold serializeDomContext.
  destruct browserData as [[[[|el els]|]]|]; simpl; try done.
  destruct (serializeElement_first JSON_stringify el) as [r Hr].
  destruct (join_cons_prefix [JS.LF; JS.LF]
              (serializeElement JSON_stringify 0 el)
              (imap (serializeElement JSON_stringify ∘ S) els)) as [r' Hr'].
  assert (JS.join [JS.LF; JS.LF]
            (imap (serializeElement JSON_stringify) (el :: els)) =
          first_element_heading ++ r ++ r') as Hjoin.
  { rewrite (assoc_L (++)), <- Hr. exact Hr'. }
  exists (r ++ r'). split.
  - f_equal. exact Hjoin.
  - intros input Hctx. rewrite buildPromptText_blocks, Hctx.
    change (dom_block (Some (JS.join [JS.LF; JS.LF]
                         (imap (serializeElement JSON_stringify)
                               (el :: els))))
              ++ plugin_block (pluginSnippets input) ++ text input =
            dom_heading ++ first_element_heading ++ (r ++ r') ++ blank_line
              ++ plugin_block (pluginSnippets input) ++ text input).
    rewrite Hjoin. unfold first_element_heading. cbn [dom_block app].
    rewrite <- (assoc_L (++) dom_heading). f_equal. cbn [app].
    do 5 f_equal. by rewrite <- !(assoc_L (++)).
Qed.

(** A selection of one element without path, text or attributes. *)
Example serializeDomContext_bare_element :
  serializeDomContext no_stringify
    (Some {| selectedElements :=
               Some [{| xpath := None; textContent := None;
                        attributes := None |}] |}) =
    Some first_element_heading.
Proof. vm_compute. reflexivity. Qed.

Lemma length_omap_le {A B} (f : A → option B) (l : list A) :
  (length (omap f l) ≤ length l)%nat.
Proof.
  induction l as [|x l IH]; [done|]. simpl.
  destruct (f x); simpl; [by apply le_n_S|by apply le_S].
Qed.

(** X6.  The screenshots of a list of parts are the data of its image
    files that carry data, in the order of the parts: the extraction
    distributes over concatenation, a text is extracted exactly when a
    part is an image file with that non-empty data, and no more texts come
    out than parts go in. *)
Theorem extractScreenshots_are_image_data :
  (∀ ps qs,
     extractScreenshots (ps ++ qs) =
       extractScreenshots ps ++ extractScreenshots qs)
  ∧ (∀ ps d,
       d ∈ extractScreenshots ps ↔ ∃ p, p ∈ ps ∧ is_screenshot p d)
  ∧ (∀ ps, (length (extractScreenshots ps) ≤ length ps)%nat).
Proof.
  split; [|split].
  - intros ps qs. unfold extractScreenshots.
    by rewrite List.filter_app, omap_app.
  - intros ps d. unfold extractScreenshots.
    rewrite list_elem_of_omap. split.
    + intros (p & Hin & Hd). apply list_elem_of_In, filter_In in Hin
        as [Hin Hf]. apply list_elem_of_In in Hin.
      apply andb_prop in Hf as [Hty Hm].
      exists p. split; [done|]. unfold is_screenshot.
      apply bool_decide_eq_true in Hty.
      destruct (p_mimeType p) as [m|]; [|done].
      destruct (p_data p) as [d'|]; [|done].
      destruct d' as [|c d']; [done|]. injection Hd as <-.
      repeat split; eauto.
    + intros (p & Hin & Hty & (m & Hm & Hs) & Hd & Hne).
      exists p. split.
      * apply list_elem_of_In, filter_In. split; [by apply list_elem_of_In|].
        apply andb_true_intro. split.
        -- by apply bool_decide_eq_true.
        -- by rewrite Hm.
      * rewrite Hd. by destruct d.
  - intros ps. unfold extractScreenshots.
    etrans; [apply length_omap_le|]. apply List.filter_length_le.
Qed.

Lemma foldl_items plugin (items : list (jsstring * PluginItem)) acc :
  foldl (λ snippets '(itemName, item),
           snippets ++
             [JS.lit "[" ++ plugin ++ JS.lit "/" ++ itemName
                ++ JS.lit "]" ++ [JS.LF] ++ item_text item])
        acc items =
    acc ++ ((λ '(itemName, item), snippet plugin itemName item) <$> items).
Proof.
  revert acc. induction items as [|[name item] items IH]; intros acc; simpl.
  - by rewrite app_nil_r.
  - by rewrite IH, <- (assoc_L (++)).
Qed.

(** X7.  The snippets of the plugins are one labelled text per content
    item, plugin after plugin and item after item in the order of the
    objects; their number is the number of items, and plugins without
    items or an absent object give none. *)
Theorem extractPluginSnippets_one_per_item
  (plugins : list (jsstring * list (jsstring * PluginItem))) :
  extractPluginSnippets (Some plugins) =
    flat_map (λ '(pluginName, items),
                (λ '(itemName, item), snippet pluginName itemName item)
                  <$> items) plugins
  ∧ length (extractPluginSnippets (Some plugins)) =
      sum_list (length ∘ snd <$> plugins)
  ∧ extractPluginSnippets None = [].
Proof.
  assert (∀ acc,
            foldl (λ snippets '(pluginName, items),
                     foldl (λ snippets '(itemName, item),
                              snippets ++
                                [JS.lit "[" ++ pluginName ++ JS.lit "/"
                                   ++ itemName ++ JS.lit "]" ++ [JS.LF]
                                   ++ item_text item])
                           snippets items)
                  acc plugins =
              acc ++ flat_map (λ '(pluginName, items),
                                 (λ '(itemName, item),
                                    snippet pluginName itemName item)
                                   <$> items) plugins) as Hfold.
  { induction plugins as [|[plugin items] plugins IH]; intros acc.
    - simpl. by rewrite app_nil_r.
    - cbn [foldl flat_map]. by rewrite foldl_items, IH, <- (assoc_L (++)). }
  split; [apply (Hfold [])|]. split; [|done].
  unfold extractPluginSnippets. rewrite (Hfold []). simpl.
  clear Hfold. induction plugins as [|[plugin items] plugins IH]; [done|].
  simpl. by rewrite length_app, length_fmap, IH.
Qed.

Lemma find_first_text (ps : list Part) :
  default [] (List.find (λ p, JS.eqb (p_type p) (JS.lit "text")) ps ≫= p_text) =
    match List.find (λ p, bool_decide (p_type p = JS.lit "text")) ps with
    | Some p => default [] (p_text p)
    | None => []
    end.
Proof. unfold JS.eqb. by destruct (List.find _ ps). Qed.

(** X8.  The wire message that a turn builds from a chat message: one
    image per image file of the message that carries data, in order, then
    one text; the text ends with the text of the first text part of the
    message, and for a message without metadata it is that text and
    nothing else. *)
Theorem wire_message_of_chat_message
  (JSON_stringify : list (jsstring * jsstring) → jsstring)
  (message : ChatMessage) :
  content (wire_message (buildStreamJsonMessage
                           (inputOf JSON_stringify message))) =
    (image <$> extractScreenshots (parts message))
      ++ [CText (buildPromptText (inputOf JSON_stringify message))]
  ∧ (∃ context,
       buildPromptText (inputOf JSON_stringify message) =
         context ++ first_text message)
  ∧ (metadata message = None →
     buildPromptText (inputOf JSON_stringify message) = first_text message).
Proof.
  split; [|split].
  - by rewrite buildStreamJsonMessage_content.
  - rewrite buildPromptText_sections. eexists.
    rewrite (assoc_L (++)). f_equal. unfold inputOf. simpl.
    apply find_first_text.
  - intros Hm. rewrite buildPromptText_sections. unfold inputOf. simpl.
    rewrite Hm. simpl. apply find_first_text.
Qed.

End PromptExtra.

(** ** The store: events of other kinds, edge cases, chats *)
Module StoreExtra.
Import Types Contract ProcessManager StreamParser Agent SessionSpec StoreSpec
  StoreFacts TurnFacts Samples MoreSamples.

Lemma obj_get_is_Some {V} (o : list (jsstring * V)) k :
  is_Some (obj_get o k) ↔ k ∈ obj_keys o.
Proof.
  unfold obj_keys. induction o as [|[k0 v0] o IH]; simpl.
  - split; [by intros [? ?]|by intros ?%not_elem_of_nil].
  - rewrite ?fmap_cons, elem_of_cons. simpl.
    destruct (JS.eqb k0 k) eqn:E.
    + apply eqb_true in E as ->. split; [auto|by eexists].
    + apply eqb_false in E. rewrite IH. split; [auto|].
      intros [?|?]; [congruence|done].
Qed.

Lemma obj_get_None {V} (o : list (jsstring * V)) k :
  obj_get o k = None ↔ k ∉ obj_keys o.
Proof.
  rewrite <- obj_get_is_Some, eq_None_not_Some. done.
Qed.

Lemma elem_obj_keys_set {V} (o : list (jsstring * V)) k v k' :
  k' ∈ obj_keys (obj_set o k v) ↔ k' = k ∨ k' ∈ obj_keys o.
Proof.
  rewrite <- !obj_get_is_Some.
  destruct (decide (k' = k)) as [->|Hne].
  - rewrite obj_get_set. split; [auto|by eexists].
  - rewrite obj_get_set_ne by done. split; [auto|]. by intros [?|?].
Qed.

Lemma obj_keys_insert_index {V} (o : list (jsstring * V)) n k v :
  ∃ front back,
    obj_keys o = front ++ back
    ∧ obj_keys (obj_insert_index n k v o) = front ++ k :: back
    ∧ Forall (index_below n) front
    ∧ match back with
      | [] => True
      | k' :: _ => ¬ index_below n k'
      end.
Proof.
  unfold obj_keys. induction o as [|[k0 v0] o IH]; simpl.
  - by exists [], [].
  - destruct (JS.array_index k0) as [n0|] eqn:Hi.
    + destruct (N.ltb_spec n0 n) as [Hlt|Hge].
      * destruct IH as (front & back & Hk & Hk' & Hf & Hb).
        exists (k0 :: front), back. rewrite !fmap_cons. simpl.
        split; [by f_equal|]. split; [by f_equal|]. split; [|done].
        constructor; [by exists n0|done].
      * exists [], (k0 :: o.*1). repeat split; [constructor|].
        intros (n' & Hn' & Hlt). rewrite Hi in Hn'.
        injection Hn' as <-. by apply N.lt_nge in Hlt.
    + exists [], (k0 :: o.*1). repeat split; [constructor|].
      intros (n' & Hn' & _). by rewrite Hi in Hn'.
Qed.

(** The place of a key that is new. *)
Lemma obj_keys_set_new {V} (o : list (jsstring * V)) k v :
  k ∉ obj_keys o →
  ∃ front back,
    obj_keys o = front ++ back
    ∧ obj_keys (obj_set o k v) = front ++ k :: back
    ∧ placed k front back.
Proof.
  intros Hnew%obj_get_None. unfold obj_set, placed. rewrite Hnew.
  destruct (JS.array_index k) as [n|].
  - destruct (obj_keys_insert_index o n k v)
      as (front & back & Hk & Hk' & Hf & Hb).
    by exists front, back.
  - exists (obj_keys o), []. unfold obj_keys.
    by rewrite app_nil_r, fmap_app.
Qed.

Lemma obj_keys_delete {V} (o : list (jsstring * V)) k :
  obj_keys (obj_delete o k) = without k (obj_keys o).
Proof.
  unfold obj_keys, without. induction o as [|[k0 v0] o IH]; simpl; [done|].
  rewrite ?fmap_cons. simpl.
  destruct (JS.eqb k0 k); simpl; [done|]. rewrite ?fmap_cons. f_equal. exact IH.
Qed.

Lemma obj_get_delete {V} (o : list (jsstring * V)) k :
  obj_get (obj_delete o k) k = None.
Proof.
  induction o as [|[k0 v0] o IH]; simpl; [done|].
  destruct (JS.eqb k0 k) eqn:E; simpl; [done|]. by rewrite E.
Qed.

Lemma obj_get_delete_ne {V} (o : list (jsstring * V)) k k' :
  k' ≠ k → obj_get (obj_delete o k) k' = obj_get o k'.
Proof.
  intros Hne. induction o as [|[k0 v0] o IH]; simpl; [done|].
  destruct (JS.eqb k0 k) eqn:E; simpl.
  - apply eqb_true in E as ->. by rewrite (proj2 (eqb_false k k')).
  - by rewrite IH.
Qed.

Lemma elem_without chatId ids k :
  k ∈ without chatId ids ↔ k ≠ chatId ∧ k ∈ ids.
Proof.
  unfold without. rewrite list_elem_of_In, filter_In, <- list_elem_of_In.
  rewrite negb_true_iff, eqb_false. tauto.
Qed.

Lemma without_absent chatId ids : chatId ∉ ids → without chatId ids = ids.
Proof.
  unfold without. induction ids as [|k ids IH]; [done|].
  intros [Hne Hnin]%not_elem_of_cons. simpl.
  rewrite (proj2 (eqb_false k chatId)) by done. simpl. by rewrite IH.
Qed.

(** X9.  An event of any kind but [assistant] (result, system, tool use,
    tool result, a kind that is not known) never throws and leaves the
    instance exactly as it is, whatever the store holds; it is logged if it
    is a result or the init event of the system, and only then. *)
Theorem other_events_change_nothing
  (event : StreamEvent) (chatId assistantMessageId : jsstring) (ag : Agent) :
  type_ event ≠ JS.lit "assistant" →
  handleStreamEvent event chatId assistantMessageId ag =
    Ok (ag, match karton ag with
            | Some _ => other_kind_log event
            | None => []
            end).
Proof.
  intros Hty. unfold handleStreamEvent, other_kind_log.
  destruct (karton ag); [|done].
  rewrite (proj2 (eqb_false _ _) Hty).
  destruct (JS.eqb (type_ event) (JS.lit "result")); [done|].
  destruct (JS.eqb (type_ event) (JS.lit "system")); [|done].
  simpl. by case_bool_decide.
Qed.

Lemma other_events_change_nothing_witness :
  handleStreamEvent tool_use_event (JS.lit "gone") (JS.lit "a1") ready_agent =
    Ok (ready_agent, []).
Proof.
  apply (other_events_change_nothing tool_use_event (JS.lit "gone")
           (JS.lit "a1") ready_agent).
  vm_compute. discriminate.
Defined.

Lemma set_messages_same (chat : Chat) : set_messages (messages chat) chat = chat.
Proof. by destruct chat. Qed.

Lemma obj_set_same {V} (o : list (jsstring * V)) k v :
  obj_get o k = Some v → obj_set o k v = o.
Proof.
  intros Hg. unfold obj_set. rewrite Hg.
  induction o as [|[k0 v0] o IH]; simpl in *; [done|].
  destruct (JS.eqb k0 k) eqn:E.
  - by injection Hg as ->.
  - by rewrite IH.
Qed.

Lemma chat_messages_None_initialized ag chatId st :
  karton ag = Some st → chat_messages ag chatId = None →
  obj_get (chats st) chatId = None.
Proof.
  intros Hk. unfold chat_messages. rewrite Hk. simpl.
  by destruct (obj_get (chats st) chatId).
Qed.

(** X10.  An assistant event at the edges.  Without a store, or with a
    concatenated text that is empty, it does nothing and does not throw,
    even if the chat of the turn is gone.  With text and a store from which
    the chat of the turn was deleted it throws.  With text and a chat that
    holds no message with the assistant identifier it changes nothing. *)
Theorem assistant_event_edge_cases
  (event : StreamEvent) (chatId assistantMessageId : jsstring) (ag : Agent) :
  is_assistant event →
  (karton ag = None →
   handleStreamEvent event chatId assistantMessageId ag = Ok (ag, []))
  ∧ (JS.truthy (concatenated_text event) = false →
     handleStreamEvent event chatId assistantMessageId ag = Ok (ag, []))
  ∧ (JS.truthy (concatenated_text event) = true →
     initialized ag → chat_messages ag chatId = None →
     handleStreamEvent event chatId assistantMessageId ag = Throw)
  ∧ (JS.truthy (concatenated_text event) = true →
     ∀ ms, chat_messages ag chatId = Some ms →
           Forall (λ m, id m ≠ assistantMessageId) ms →
           handleStreamEvent event chatId assistantMessageId ag = Ok (ag, [])).
Proof.
  intros Hty. unfold handleStreamEvent.
  pose proof (textContent_of_concatenated event) as Htext.
  split; [by intros ->|]. split; [|split].
  - intros Hempty. destruct (karton ag); [|done].
    rewrite Hty, eqb_refl.
    destruct (textContent_of event) as [t|]; [|done].
    simpl in Htext. by rewrite Htext, Hempty.
  - intros Ht [st Hk] Hnone. rewrite Hk, Hty, eqb_refl.
    destruct (textContent_of event) as [t|]; simpl in Htext;
      [|by rewrite <- Htext in Ht].
    rewrite Htext, Ht. unfold setState, replace_text, with_messages.
    rewrite Hk. by rewrite (chat_messages_None_initialized _ _ _ Hk Hnone).
  - intros Ht ms Hms Hall.
    unfold chat_messages in Hms.
    destruct (karton ag) as [st|] eqn:Hk; [|done]. simpl in Hms.
    destruct (obj_get (chats st) chatId) as [chat|] eqn:Hchat; [|done].
    injection Hms as Hms. rewrite Hty, eqb_refl.
    destruct (textContent_of event) as [t|]; simpl in Htext;
      [|by rewrite <- Htext in Ht].
    rewrite Htext, Ht. unfold setState, replace_text, with_messages.
    rewrite Hk, Hchat, Hms.
    rewrite (proj2 (list_find_None _ ms)) by done.
    rewrite <- Hms, set_messages_same, (obj_set_same _ _ _ Hchat).
    destruct ag as [k c p]. simpl in Hk. subst k. by destruct st.
Qed.

Lemma assistant_event_edge_cases_witness :
  handleStreamEvent (assistant_event (JS.lit "late")) (JS.lit "gone")
    (JS.lit "a1") ready_agent = Throw
  ∧ handleStreamEvent (assistant_event (JS.lit "late")) (JS.lit "c1")
      (JS.lit "a1") ready_agent = Ok (ready_agent, [])
  ∧ handleStreamEvent (assistant_event []) (JS.lit "gone")
      (JS.lit "a1") ready_agent = Ok (ready_agent, []).
Proof.
  split; [|split].
  - apply (assistant_event_edge_cases (assistant_event (JS.lit "late"))
             (JS.lit "gone") (JS.lit "a1") ready_agent); try reflexivity.
    by eexists.
  - eapply (assistant_event_edge_cases (assistant_event (JS.lit "late"))
              (JS.lit "c1") (JS.lit "a1") ready_agent); try reflexivity.
    constructor.
  - apply (assistant_event_edge_cases (assistant_event [])
             (JS.lit "gone") (JS.lit "a1") ready_agent); reflexivity.
Defined.

(** X11.  Abort when no turn is active, no handle held and the flag not
    set: the instance is unchanged and nothing is killed; [shutdown] is the
    same call. *)
Theorem abort_when_idle_changes_nothing (ag : Agent) :
  currentProcess ag = None →
  working ag ≠ Some true →
  abort ag = (ag, []) ∧ shutdown ag = (ag, []).
Proof.
  intros Hp Hw. unfold shutdown, abort, setState_opt. rewrite Hp.
  destruct ag as [[st|] c p]; simpl in *; subst p; [|done].
  destruct st as [a cs w]. unfold working in Hw. simpl in *.
  destruct w; [done|]. done.
Qed.

Lemma abort_when_idle_changes_nothing_witness :
  abort three_chat_agent = (three_chat_agent, [])
  ∧ shutdown three_chat_agent = (three_chat_agent, []).
Proof.
  apply (abort_when_idle_changes_nothing three_chat_agent);
    [reflexivity|vm_compute; discriminate].
Defined.

Section Stringify.
Variable JSON_stringify : list (jsstring * jsstring) → jsstring.

(** X12.  [switchChat] does not check its argument.  After a switch to an
    identifier that no chat has, the identifier is active, and a user
    message spawns nothing and produces no effect: the operation throws
    before it spawns, or returns at once if the identifier is the empty
    string. *)
Theorem message_after_switch_to_missing_chat
  (message : ChatMessage) (outcome : SpawnOutcome) (fresh : Fresh)
  (chatId : jsstring) (ag : Agent) :
  initialized ag →
  chatId ∉ chat_ids ag →
  active (switchChat chatId ag) = Some chatId
  ∧ chat_ids (switchChat chatId ag) = chat_ids ag
  ∧ (handleUserMessage_start JSON_stringify message outcome fresh
       (switchChat chatId ag)).1.2 = []
  ∧ (handleUserMessage_start JSON_stringify message outcome fresh
       (switchChat chatId ag)).2 =
      if JS.truthy chatId then Rejected else Returned.
Proof.
  intros [st Hk] Hnin. unfold chat_ids in Hnin. rewrite Hk in Hnin.
  apply obj_get_None in Hnin.
  unfold switchChat, setState_opt, active, chat_ids,
    handleUserMessage_start. rewrite Hk. simpl.
  destruct (JS.truthy chatId); simpl; [|done].
  unfold setState, with_messages. simpl. by rewrite Hnin.
Qed.
End Stringify.

Lemma message_after_switch_to_missing_chat_witness :
  active (switchChat (JS.lit "nope") ready_agent) = Some (JS.lit "nope")
  ∧ chat_ids (switchChat (JS.lit "nope") ready_agent) = chat_ids ready_agent
  ∧ (handleUserMessage_start no_stringify user_message (Spawned 7) fresh1
       (switchChat (JS.lit "nope") ready_agent)).1.2 = []
  ∧ (handleUserMessage_start no_stringify user_message (Spawned 7) fresh1
       (switchChat (JS.lit "nope") ready_agent)).2 =
      if JS.truthy (JS.lit "nope") then Rejected else Returned.
Proof.
  apply (message_after_switch_to_missing_chat no_stringify user_message
           (Spawned 7) fresh1 (JS.lit "nope") ready_agent).
  - by eexists.
  - vm_compute. intros H. by repeat (inversion H as [|? ? ? H']; clear H; rename H' into H).
Defined.

End StoreExtra.

(** ** Chats: creation, deletion, the active chat *)
Module ChatExtra.
Import Types Contract ProcessManager StreamParser Agent SessionSpec StoreSpec
  StoreFacts TurnFacts StoreExtra Samples MoreSamples.

(** X13.  [createAndActivateNewChat] on an instance with a store: the
    chat under the generated identifier is active and has no message, and
    every other chat keeps its messages.  If a chat already has the
    identifier, the chats are the same and the messages of that chat are
    lost.  If the identifier is new, the other chats keep their order and
    the new chat is listed last, unless its identifier is an array index:
    then it is listed after the chats whose identifiers are smaller
    indices and before all others. *)
Theorem createAndActivateNewChat_adds_or_overwrites
  (fresh : Fresh) (ag : Agent) :
  initialized ag →
  ∃ ag',
    createAndActivateNewChat fresh ag = Ok (ag', new_id fresh)
    ∧ active ag' = Some (new_id fresh)
    ∧ chat_messages ag' (new_id fresh) = Some []
    ∧ (∀ k, k ≠ new_id fresh → chat_messages ag' k = chat_messages ag k)
    ∧ (new_id fresh ∉ chat_ids ag →
       ∃ front back,
         chat_ids ag = front ++ back
         ∧ chat_ids ag' = front ++ new_id fresh :: back
         ∧ placed (new_id fresh) front back)
    ∧ (new_id fresh ∈ chat_ids ag → chat_ids ag' = chat_ids ag)
    ∧ working ag' = working ag
    ∧ currentProcess ag' = currentProcess ag.
Proof.
  intros [st Hk]. unfold createAndActivateNewChat, setState. rewrite Hk.
  eexists. split; [reflexivity|].
  unfold active, chat_messages, chat_ids, working. simpl. rewrite Hk. simpl.
  rewrite obj_get_set. simpl. repeat split.
  - intros k Hne. by rewrite obj_get_set_ne.
  - apply obj_keys_set_new.
  - intros [c Hc]%obj_get_is_Some. by apply (obj_keys_set _ _ _ c).
Qed.

Lemma createAndActivateNewChat_adds_or_overwrites_witness :
  (∃ ag',
     createAndActivateNewChat {| new_id := JS.lit "c1"; now := 9 |}
       three_chat_agent = Ok (ag', JS.lit "c1")
     ∧ chat_messages three_chat_agent (JS.lit "c1") = Some [user_message]
     ∧ chat_messages ag' (JS.lit "c1") = Some []
     ∧ chat_ids ag' = chat_ids three_chat_agent)
  ∧ (∃ ag',
       createAndActivateNewChat {| new_id := JS.lit "7"; now := 9 |}
         three_chat_agent = Ok (ag', JS.lit "7")
       ∧ ∃ front back,
           chat_ids three_chat_agent = front ++ back
           ∧ chat_ids ag' = front ++ JS.lit "7" :: back
           ∧ placed (JS.lit "7") front back).
Proof.
  split.
  - destruct (createAndActivateNewChat_adds_or_overwrites
                {| new_id := JS.lit "c1"; now := 9 |} three_chat_agent)
      as (ag' & Hc & _ & Hm & _ & _ & Hids & _); [by eexists|].
    exists ag'. split; [exact Hc|]. split; [reflexivity|].
    split; [exact Hm|]. apply Hids. vm_compute. left.
  - destruct (createAndActivateNewChat_adds_or_overwrites
                {| new_id := JS.lit "7"; now := 9 |} three_chat_agent)
      as (ag' & Hc & _ & _ & _ & Hnew & _); [by eexists|].
    exists ag'. split; [exact Hc|]. apply Hnew.
    vm_compute. intros Hin. repeat (inversion Hin as [|? ? ? Hin']; subst;
      clear Hin; rename Hin' into Hin).
Defined.

(** A chat whose identifier is made of digits only is listed first. *)
Example digits_only_identifier_comes_first :
  ∃ ag',
    createAndActivateNewChat {| new_id := JS.lit "7"; now := 9 |}
      three_chat_agent = Ok (ag', JS.lit "7")
    ∧ chat_ids three_chat_agent = [JS.lit "c1"; JS.lit "c2"; JS.lit "c3"]
    ∧ chat_ids ag' = [JS.lit "7"; JS.lit "c1"; JS.lit "c2"; JS.lit "c3"].
Proof. eexists. vm_compute. repeat split. Qed.

(** X14.  Deleting a chat that is not the active one: the operation
    succeeds, the chat is gone, the other chats keep their place and their
    messages, the active chat, the flag and the handle are as before, and
    no chat is created.  For an identifier that no chat has, the chats are
    the same. *)
Theorem deleteChat_not_active
  (chatId : jsstring) (fresh : Fresh) (ag : Agent) :
  initialized ag →
  active ag ≠ Some chatId →
  ∃ ag',
    deleteChat chatId fresh ag = Ok ag'
    ∧ active ag' = active ag
    ∧ chat_ids ag' = without chatId (chat_ids ag)
    ∧ chat_messages ag' chatId = None
    ∧ (∀ k, k ≠ chatId → chat_messages ag' k = chat_messages ag k)
    ∧ (chatId ∉ chat_ids ag → chat_ids ag' = chat_ids ag)
    ∧ working ag' = working ag
    ∧ currentProcess ag' = currentProcess ag.
Proof.
  intros [st Hk] Ha. unfold active in Ha. rewrite Hk in Ha. simpl in Ha.
  unfold deleteChat. rewrite Hk. rewrite bool_decide_false by done.
  eexists. split; [reflexivity|].
  unfold active, chat_ids, chat_messages, working, setState_opt.
  rewrite Hk. simpl. rewrite obj_keys_delete, obj_get_delete.
  repeat split.
  - intros k Hne. by rewrite obj_get_delete_ne.
  - apply without_absent.
Qed.

Lemma deleteChat_not_active_witness :
  ∃ ag',
    deleteChat (JS.lit "c1") fresh4 three_chat_agent = Ok ag'
    ∧ active ag' = Some (JS.lit "c2")
    ∧ chat_ids ag' = [JS.lit "c2"; JS.lit "c3"].
Proof.
  destruct (deleteChat_not_active (JS.lit "c1") fresh4 three_chat_agent)
    as (ag' & Hd & Ha & Hids & _).
  - by eexists.
  - vm_compute. discriminate.
  - exists ag'. split; [exact Hd|]. split; [exact Ha|]. exact Hids.
Defined.

(** X15.  Deleting the active chat while other chats exist: the other
    chat that comes first among the chats, if its identifier is not the
    empty string, becomes active; the deleted chat is gone, the others keep
    their place and their messages, and no chat is created. *)
Theorem deleteChat_promotes_first_other
  (chatId next : jsstring) (fresh : Fresh) (ag : Agent) :
  active ag = Some chatId →
  List.find (λ k, negb (JS.eqb k chatId)) (chat_ids ag) = Some next →
  next ≠ [] →
  ∃ ag',
    deleteChat chatId fresh ag = Ok ag'
    ∧ active ag' = Some next
    ∧ next ∈ chat_ids ag'
    ∧ chat_ids ag' = without chatId (chat_ids ag)
    ∧ (∀ k, k ≠ chatId → chat_messages ag' k = chat_messages ag k).
Proof.
  intros Ha Hfind Hne. unfold active, chat_ids in *.
  destruct (karton ag) as [st|] eqn:Hk; [|done]. simpl in Ha.
  unfold deleteChat. rewrite Hk, Ha, bool_decide_true by done.
  rewrite Hfind. simpl.
  replace (JS.truthy next) with true by (by destruct next). simpl.
  eexists. split; [reflexivity|].
  unfold chat_messages, setState_opt. rewrite Hk. simpl.
  rewrite obj_keys_delete. repeat split.
  - apply elem_without. apply find_some in Hfind as [Hin Hf].
    apply negb_true_iff, eqb_false in Hf. by rewrite list_elem_of_In.
  - intros k Hk'. by rewrite obj_get_delete_ne.
Qed.

Lemma deleteChat_promotes_first_other_witness :
  ∃ ag',
    deleteChat (JS.lit "c2") fresh4 three_chat_agent = Ok ag'
    ∧ active ag' = Some (JS.lit "c1")
    ∧ chat_ids ag' = [JS.lit "c1"; JS.lit "c3"].
Proof.
  destruct (deleteChat_promotes_first_other (JS.lit "c2") (JS.lit "c1")
              fresh4 three_chat_agent)
    as (ag' & Hd & Ha & _ & Hids & _); try reflexivity.
  - vm_compute. discriminate.
  - exists ag'. split; [exact Hd|]. split; [exact Ha|]. exact Hids.
Defined.

End ChatExtra.

(** ** The turn: invariants, and a whole turn from start to end *)
Module TurnExtra.
Import Types Contract ProcessManager StreamParser Agent StreamSpec SessionSpec
  StoreSpec StoreFacts TurnFacts StoreExtra AssistantText AbortProperties
  StreamExtra Samples MoreSamples.

Lemma deleteChat_keeps_active chatId fresh ag ag' :
  deleteChat chatId fresh ag = Ok ag' →
  new_id fresh ≠ chatId →
  active_chat_exists ag → active_chat_exists ag'.
Proof.
  intros Hd Hfresh (a & Ha & Hin). unfold active, chat_ids in *.
  unfold deleteChat in Hd. destruct (karton ag) as [st|] eqn:Hk; [|done].
  simpl in Ha. unfold active_chat_exists, active, chat_ids.
  case_bool_decide as Hact.
  - destruct (List.find _ _) as [next|] eqn:Hfind;
      [destruct (JS.truthy next) eqn:Hnext|]; simpl in Hd;
      rewrite ?Hnext in Hd; simpl in Hd.
    + injection Hd as <-. unfold setState_opt. rewrite Hk. simpl.
      exists next. split; [done|]. rewrite obj_keys_delete.
      apply elem_without. apply find_some in Hfind as [Hi Hf].
      apply negb_true_iff, eqb_false in Hf. by rewrite list_elem_of_In.
    + unfold createAndActivateNewChat, setState in Hd. rewrite Hk in Hd.
      injection Hd as <-. unfold setState_opt. simpl.
      exists (new_id fresh). split; [done|]. rewrite obj_keys_delete.
      apply elem_without. split; [done|]. apply elem_obj_keys_set. by left.
    + unfold createAndActivateNewChat, setState in Hd. rewrite Hk in Hd.
      injection Hd as <-. unfold setState_opt. simpl.
      exists (new_id fresh). split; [done|]. rewrite obj_keys_delete.
      apply elem_without. split; [done|]. apply elem_obj_keys_set. by left.
  - injection Hd as <-. unfold setState_opt. rewrite Hk. simpl.
    exists a. split; [done|]. rewrite obj_keys_delete.
    apply elem_without. split; [congruence|done].
Qed.

Lemma advance_handle t outs buffer last ag ag' t' eff :
  advance t outs buffer last ag = (ag', t', eff) →
  initialized ag →
  handle_implies_working ag → handle_implies_working ag'.
Proof.
  unfold advance. intros Hadv Hi Hinv.
  destruct (consume (turn_chatId t) (turn_assistantMessageId t) outs ag)
    as [[ag1 eff1] threw] eqn:Hc.
  apply consume_frame in Hc as [(Ha & Hw & Hids & Hp & Hm) Hi1].
  destruct (complete_spec ag1 (Hi1 Hi)) as (_ & Cp & _).
  unfold handle_implies_working in *.
  destruct threw; [|destruct last]; injection Hadv as <- <- <-.
  - rewrite Cp. by intros [? ?].
  - rewrite Cp. by intros [? ?].
  - by rewrite Hp, Hw.
Qed.

(** X16.  Two invariants of every step of a turn, whatever arrives: a
    chunk, the end or a failure of the output, the exit of the subprocess,
    or a call of abort, of chat creation, switch or deletion.  If the
    active chat is a chat of the store before the step, it is one after
    it, provided a switch names a chat that exists and a deletion does not
    generate the identifier it deletes.  And if the flag is set whenever a
    handle is held, it still is after the step, for a turn whose exit
    observer has no callback. *)
Theorem step_keeps_session_invariants
  (JSON_parse : jsstring → option StreamEvent)
  (ag : Agent) (t : Turn) (i : Input) (ag' : Agent) (t' : Turn)
  (eff : list Effect) :
  step JSON_parse (ag, t) i = (ag', t', eff) →
  initialized ag →
  (active_chat_exists ag → input_ok ag i → active_chat_exists ag')
  ∧ (exit_callback (turn_process t) = None →
     handle_implies_working ag → handle_implies_working ag').
Proof.
  intros Hstep Hi.
  destruct i.
  - (* a chunk *)
    split.
    + intros (a & Ha & Hin) _.
      destruct (stdout_step_frame JSON_parse _ _ (StdoutData chunk) _ _ _
                  I Hi Hstep) as (Ha' & Hids & _).
      exists a. by rewrite Ha', Hids.
    + intros _ Hinv. simpl in Hstep. destruct (turn_reading t).
      * destruct (on_chunk JSON_parse (turn_buffer t) chunk) as [outs b].
        by eapply advance_handle.
      * by injection Hstep as <- <- <-.
  - (* the end of the output *)
    split.
    + intros (a & Ha & Hin) _.
      destruct (stdout_step_frame JSON_parse _ _ StdoutEnd _ _ _
                  I Hi Hstep) as (Ha' & Hids & _).
      exists a. by rewrite Ha', Hids.
    + intros _ Hinv. simpl in Hstep. destruct (turn_reading t).
      * by eapply advance_handle.
      * by injection Hstep as <- <- <-.
  - (* a failure of the output *)
    split.
    + intros (a & Ha & Hin) _.
      destruct (stdout_step_frame JSON_parse _ _ StdoutError _ _ _
                  I Hi Hstep) as (Ha' & Hids & _).
      exists a. by rewrite Ha', Hids.
    + intros _ Hinv. simpl in Hstep.
      destruct (complete_spec ag Hi) as (_ & Cp & _).
      destruct (turn_reading t); injection Hstep as <- <- <-; [|done].
      unfold handle_implies_working. rewrite Cp. by intros [? ?].
  - (* the exit of the subprocess *)
    simpl in Hstep. injection Hstep as <- <- <-. unfold on_exit_event.
    split.
    + intros (a & Ha & Hin) _.
      destruct (exit_callback (turn_process t)) as [[]|]; simpl;
        [|by exists a].
      exists a. unfold active, chat_ids, setState_opt in *.
      by destruct (karton ag).
    + by intros ->.
  - (* abort *)
    simpl in Hstep. destruct (abort ag) as [ag1 eff1] eqn:Hab.
    injection Hstep as <- <- <-.
    destruct (abort_spec ag) as (Hp & _ & _ & Ha & Hids & _).
    rewrite Hab in Hp, Ha, Hids. simpl in *. split.
    + intros (a & Ha' & Hin) _. exists a. by rewrite Ha, Hids.
    + intros _ _. unfold handle_implies_working. rewrite Hp. by intros [? ?].
  - (* a new chat *)
    simpl in Hstep.
    destruct (createAndActivateNewChat fresh ag) as [[ag1 c]|] eqn:Hc;
      injection Hstep as <- <- <-; [|done].
    pose proof Hc as Hc'.
    apply createAndActivateNewChat_spec in Hc' as (_ & Ha & Hw & Hp & _).
    split.
    + intros _ _. exists (new_id fresh). split; [done|].
      unfold createAndActivateNewChat, setState in Hc.
      destruct (karton ag) as [st|]; [|done]. injection Hc as <- _.
      unfold chat_ids. simpl. apply elem_obj_keys_set. by left.
    + intros _. unfold handle_implies_working. by rewrite Hp, Hw.
  - (* another active chat *)
    simpl in Hstep. injection Hstep as <- <- <-.
    destruct (switchChat_spec chatId ag) as (Hw & Hp & _). split.
    + intros _ Hin. simpl in Hin. exists chatId.
      unfold switchChat, active, chat_ids, setState_opt in *.
      destruct (karton ag) as [st|] eqn:Hk; simpl in *;
        [done|by apply elem_of_nil in Hin].
    + intros _. unfold handle_implies_working. by rewrite Hp, Hw.
  - (* a chat deleted *)
    simpl in Hstep.
    destruct (deleteChat chatId fresh ag) as [ag1|] eqn:Hd;
      injection Hstep as <- <- <-; [|done].
    pose proof Hd as Hd'. apply deleteChat_spec in Hd' as (Hw & Hp & _).
    split.
    + intros Hex Hok. by eapply deleteChat_keeps_active.
    + intros _. unfold handle_implies_working. by rewrite Hp, Hw.
Qed.

Lemma step_keeps_session_invariants_witness :
  active_chat_exists
    (step parse_assistant_record (streaming_agent, streaming_turn)
          (CallDeleteChat (JS.lit "c1") fresh2)).1.1
  ∧ handle_implies_working
      (step parse_assistant_record (streaming_agent, streaming_turn)
            (CallDeleteChat (JS.lit "c1") fresh2)).1.1.
Proof.
  destruct (step_keeps_session_invariants parse_assistant_record
              streaming_agent streaming_turn
              (CallDeleteChat (JS.lit "c1") fresh2)
              (step parse_assistant_record (streaming_agent, streaming_turn)
                    (CallDeleteChat (JS.lit "c1") fresh2)).1.1
              (step parse_assistant_record (streaming_agent, streaming_turn)
                    (CallDeleteChat (JS.lit "c1") fresh2)).1.2
              (step parse_assistant_record (streaming_agent, streaming_turn)
                    (CallDeleteChat (JS.lit "c1") fresh2)).2)
    as [Hactive Hhandle].
  - vm_compute. reflexivity.
  - by eexists.
  - split.
    + apply Hactive.
      * exists (JS.lit "c1"). split; [reflexivity|]. vm_compute. left.
      * vm_compute. discriminate.
    + apply Hhandle; [reflexivity|]. intros _. reflexivity.
Defined.






Section Thread.
Variables (chatId assistantMessageId : jsstring).
Variables (pre post : list ChatMessage) (placeholder : ChatMessage).
Hypothesis placeholder_id : id placeholder = assistantMessageId.
Hypothesis placeholder_first :
  Forall (λ m, id m ≠ assistantMessageId) pre.


End Thread.

Section WholeTurn.
Variable JSON_stringify : list (jsstring * jsstring) → jsstring.



End WholeTurn.


End TurnExtra.

(** ** The loader *)
Module LoaderExtra.
Import Types Contract ProcessManager StreamParser Agent AgentLoader
  SessionSpec StoreSpec LifeSpec StoreFacts TurnExtra Samples MoreSamples.














(** X19.  A load when the class already holds an instance, as after a
    first load, with or without a shutdown in between: the instance keeps
    the configuration it was made with, whatever the configuration now
    asks, and keeps the process handle it holds, while its store starts
    again: one empty chat with the generated identifier, active, and the
    flag false. *)
Theorem reload_keeps_first_instance (config : Config) (fresh : Fresh)
  (ld : Loader) (a : Agent) :
  agent config = JS.lit "claude-code" →
  instance ld = Some a →
  ∃ ld' a',
    loadAndInitializeAgent config fresh ld = Some (ld', true)
    ∧ instance ld' = Some a'
    ∧ agentInstance ld' = true
    ∧ Agent.config a' = Agent.config a
    ∧ currentProcess a' = currentProcess a
    ∧ chat_ids a' = [new_id fresh]
    ∧ chat_messages a' (new_id fresh) = Some []
    ∧ active a' = Some (new_id fresh)
    ∧ working a' = Some false.
Proof.
  intros Hagent Hinst. unfold loadAndInitializeAgent.
  rewrite Hagent, eqb_refl, Hinst.
  unfold initialize, createAndActivateNewChat, setState. simpl.
  rewrite obj_set_nil.
  do 2 eexists. split; [reflexivity|]. split; [reflexivity|].
  unfold chat_ids, chat_messages, active, working. simpl.
  rewrite eqb_refl. by repeat split.
Qed.

Lemma reload_keeps_first_instance_witness :
  ∃ ld' a',
    loadAndInitializeAgent
      {| agent := JS.lit "claude-code"; claudeCommand := Some (JS.lit "cc");
         dir := JS.lit "/other" |} fresh4
      {| instance := Some three_chat_agent; agentInstance := false |}
      = Some (ld', true)
    ∧ instance ld' = Some a'
    ∧ Agent.config a' = sample_config
    ∧ chat_ids a' = [JS.lit "c4"].
Proof.
  destruct (reload_keeps_first_instance
              {| agent := JS.lit "claude-code";
                 claudeCommand := Some (JS.lit "cc");
                 dir := JS.lit "/other" |} fresh4
              {| instance := Some three_chat_agent; agentInstance := false |}
              three_chat_agent eq_refl eq_refl)
    as (ld' & a' & Hload & Hinst & _ & Hcfg & _ & Hids & _).
  exists ld', a'. by repeat apply conj.
Defined.

(** X20.  [shutdownAgent], whatever the loader holds: afterwards the
    loader refers to no agent, the instance of the class, which stays,
    holds no process handle, and the effects are the kill of the process
    that was held, if the loader referred to the agent and one was held,
    and nothing otherwise.  A second shutdown changes nothing and has no
    effect. *)
Theorem shutdownAgent_once_is_enough (ld : Loader) :
  agentInstance (shutdownAgent ld).1 = false
  ∧ (shutdownAgent ld).2 =
      match instance ld with
      | Some a =>
          if agentInstance ld
          then match currentProcess a with
               | Some h => [Kill (pid h)]
               | None => []
               end
          else []
      | None => []
      end
  ∧ (∀ a, agentInstance ld = true → instance ld = Some a →
          ∃ a', instance (shutdownAgent ld).1 = Some a'
                ∧ currentProcess a' = None
                ∧ Agent.config a' = Agent.config a
                ∧ (initialized a → working a' = Some false))
  ∧ shutdownAgent (shutdownAgent ld).1 = ((shutdownAgent ld).1, []).
Proof.
  destruct ld as [[a|] []]; unfold shutdownAgent; simpl;
    try by (repeat split; intros; simplify_eq).
  unfold shutdown, abort.
  destruct a as [k cfg [h|]]; simpl.
  - split; [done|]. split; [done|]. split; [|done].
    intros a _ [= <-]. eexists. split; [reflexivity|].
    unfold setState_opt, working, initialized. simpl.
    destruct k; simpl; (split; [done|]); (split; [done|]);
      [done|by intros [? ?]].
  - split; [done|]. split; [done|]. split; [|done].
    intros a _ [= <-]. eexists. split; [reflexivity|].
    unfold setState_opt, working, initialized. simpl.
    destruct k; simpl; (split; [done|]); (split; [done|]);
      [done|by intros [? ?]].
Qed.

End LoaderExtra.

(** ** The filter of the proxy *)
Module ProxyExtra.
Import Proxy StoreFacts.

Lemma startsWith_app (p rest : jsstring) : JS.startsWith (p ++ rest) p = true.
Proof.
  unfold JS.startsWith. apply bool_decide_eq_true. by rewrite take_app_length.
Qed.

(** X21.  The two rules of the filter that look at the path alone.  A path
    that starts with the proxy prefix goes to the application whatever the
    headers of the request are, with one debug line; a path that starts
    with the prefix of the toolbar assets never does, whatever the
    headers, and logs nothing.  The two prefixes exclude each other, so
    the order of the two tests plays no role. *)
Theorem pathFilter_by_path (rest : jsstring) (headers : Headers) :
  pathFilter (PROXY_PREFIX ++ rest) headers =
    (true, [JS.lit "Proxying (prefixed): " ++ PROXY_PREFIX ++ rest])
  ∧ pathFilter (JS.lit "/stagewise-toolbar-app" ++ rest) headers =
      (false, [])
  ∧ JS.startsWith (PROXY_PREFIX ++ rest) (JS.lit "/stagewise-toolbar-app")
      = false
  ∧ JS.startsWith (JS.lit "/stagewise-toolbar-app" ++ rest) PROXY_PREFIX
      = false.
Proof.
  assert (JS.startsWith (JS.lit "/stagewise-toolbar-app" ++ rest)
            PROXY_PREFIX = false) as Hno.
  { unfold JS.startsWith. apply bool_decide_eq_false.
    rewrite take_app_le by (vm_compute; lia). vm_compute. discriminate. }
  split; [|split; [|split]].
  - unfold pathFilter. by rewrite startsWith_app.
  - unfold pathFilter. by rewrite Hno, startsWith_app.
  - unfold JS.startsWith. apply bool_decide_eq_false.
    vm_compute. discriminate.
  - exact Hno.
Qed.

(** X22.  When the filter keeps a request from the application: exactly
    when the path does not start with the proxy prefix and either starts
    with the prefix of the toolbar assets, or the request carries a
    [sec-fetch-dest] header that is [document], or carries none and its
    [Accept] header starts with [text/html].  So a [sec-fetch-dest] header,
    even an empty one, decides without the [Accept] header, and a request
    with neither header goes to the application. *)
Theorem pathFilter_refuses_iff (pathname : jsstring) (headers : Headers) :
  (pathFilter pathname headers).1 = false ↔
    JS.startsWith pathname PROXY_PREFIX = false
    ∧ (JS.startsWith pathname (JS.lit "/stagewise-toolbar-app") = true
       ∨ sec_fetch_dest headers = Some (JS.lit "document")
       ∨ (sec_fetch_dest headers = None
          ∧ JS.startsWith (default [] (accept headers)) (JS.lit "text/html")
              = true)).
Proof.
  unfold pathFilter.
  destruct (JS.startsWith pathname PROXY_PREFIX); simpl;
    [split; [done|by intros [? _]]|].
  destruct (JS.startsWith pathname (JS.lit "/stagewise-toolbar-app")); simpl;
    [split; [by auto|done]|].
  destruct (sec_fetch_dest headers) as [d|]; simpl.
  - destruct (JS.eqb d (JS.lit "document")) eqn:Hd; simpl.
    + apply eqb_true in Hd as ->. split; [by auto|done].
    + apply eqb_false in Hd. split; [done|].
      intros [_ [?|[[= ?]|[? _]]]]; done.
  - destruct (JS.startsWith (default [] (accept headers))
                (JS.lit "text/html")); simpl.
    + split; [by auto|done].
    + split; [done|]. intros [_ [?|[?|[_ ?]]]]; done.
Qed.

End ProxyExtra.
